(** * Merger-tree construction of shark (src/tree_builder.cpp)

    A shallow embedding of [TreeBuilder] and [HaloBasedTreeBuilder]:
    halos, subhalos and merger trees live in a heap addressed by
    handles (the [shared_ptr]s of the source), every member function is
    a computation in a state monad whose outcomes are a normal return,
    a thrown exception or undefined behaviour (a null or dangling
    dereference, an index past the end, a signed overflow).

    The [#pragma omp parallel for] loops over trees are modelled by
    their sequential semantics.  [LOG] calls below the [warning] level
    are not modelled. *)

From Stdlib Require Import ZArith Lia.
From stdpp Require Import base tactics option list list_numbers sorting gmap.

Local Open Scope Z_scope.

(** ** Scalars

    [Mvir], [Vvir], the accreted mass and the baryon fraction are
    floating-point numbers in the source.  The code only adds,
    subtracts, multiplies and compares them, so the model is written
    over any type offering these operations. *)

Class Scalar (R : Type) : Type := {
  s_zero : R;
  s_add : R → R → R;
  s_sub : R → R → R;
  s_mul : R → R → R;
  s_ltb : R → R → bool
}.

(** The comparison is a strict total order (no NaN). *)
Class ScalarOrder (R : Type) `{Scalar R} : Prop := {
  s_ltb_irrefl (a : R) : s_ltb a a = false;
  s_ltb_trans (a b c : R) : s_ltb a b = true → s_ltb b c = true → s_ltb a c = true;
  s_ltb_total (a b : R) : s_ltb a b = false → s_ltb b a = false → a = b
}.

(** [std::max] of two scalars: [(a < b) ? b : a]. *)
Definition s_max {R} `{Scalar R} (a b : R) : R := if s_ltb a b then b else a.

(** [a <= b] on scalars, as [!(b < a)]. *)
Definition s_le {R} `{Scalar R} (a b : R) : Prop := s_ltb b a = false.

#[export] Instance Z_scalar : Scalar Z := {
  s_zero := 0;
  s_add := Z.add;
  s_sub := Z.sub;
  s_mul := Z.mul;
  s_ltb := Z.ltb
}.

(** ** Handles *)

Abbreviation hptr := nat (only parsing).
Abbreviation sptr := nat (only parsing).
Abbreviation tptr := nat (only parsing).

(** ** Parameters *)

Record ExecutionParameters := mkExec {
  output_snapshots : list Z;
  skip_missing_descendants : bool;
  warn_on_missing_descendants : bool;
  ensure_mass_growth : bool
}.

Record SimulationParameters := mkSim {
  min_snapshot : Z;
  max_snapshot : Z
}.

(** Largest and smallest value of the source's [int]. *)
Definition int_max : Z := 2147483647.
Definition int_min : Z := -2147483648.

(** ** Messages

    One constructor per [ostringstream] the source builds, carrying the
    objects it prints. *)

Inductive message : Type :=
| msg_empty
| msg_not_part_of_tree (halo : hptr) (tree : tptr)
| msg_no_halos_at_snapshot (last : Z) (found : list Z) (considered : list Z)
| msg_subhalo_has_descendant (parent current claiming : sptr)
| msg_halo_has_descendant (parent current claiming : hptr)
| msg_no_merger_tree (desc_halo : hptr)
| msg_more_than_one_central (halo : hptr) (snapshot : Z)
| msg_no_central (halo : hptr) (snapshot : Z)
| msg_no_satellites (halo : hptr)
| msg_not_direct_descendant (d_subhalo subhalo : sptr)
| msg_descendant_not_found (descendant_id : Z) (subhalo : sptr) (d_halo : hptr)
                           (d_subhalos : list sptr)
| msg_no_main_progenitor (subhalo main_prog : sptr)
| msg_not_in_satellites.

Inductive exn : Type :=
| invalid_data (m : message)
| invalid_argument (m : message)
| subhalo_not_found (m : message) (id : Z).

Inductive subhalo_type_t : Type := CENTRAL | SATELLITE.

Inductive ctl : Type := Next | Break.

(** ** [std::set<int>] as a strictly ascending list *)

Fixpoint set_insert (x : Z) (l : list Z) : list Z :=
  match l with
  | [] => [x]
  | y :: l' =>
      if x <? y then x :: l
      else if x =? y then l
      else y :: set_insert x l'
  end.

(** ** [std::set<HaloPtr>] as a finite set of handles.  The second
    component tells whether the element was new, as [std::set::insert]
    does. *)

Definition hset_insert (x : hptr) (s : gset nat) : gset nat * bool :=
  ({[x]} ∪ s, bool_decide (x ∉ s)).

(** [std::find] followed by [erase]: drops the first occurrence. *)
Fixpoint erase_first (x : sptr) (l : list sptr) : option (list sptr) :=
  match l with
  | [] => None
  | y :: l' =>
      if (x =? y)%nat then Some l'
      else match erase_first x l' with
           | Some r => Some (y :: r)
           | None => None
           end
  end.

(** The snapshots of [for (s = hi; s >= lo; s--)]. *)
Definition snapshots_down (hi lo : Z) : list Z := reverse (seqZ lo (hi - lo + 1)).

(** The snapshots of [for (s = lo; s < hi; s++)]. *)
Definition snapshots_up (lo hi : Z) : list Z := seqZ lo (hi - lo).

Section Model.

Context {R : Type} {SR : Scalar R}.

Definition xyz : Type := R * R * R.

(** ** Data model *)

Record Subhalo : Type := mkSubhalo {
  sh_id : Z;
  sh_snapshot : Z;
  sh_Mvir : R;
  sh_Vvir : R;
  sh_concentration : R;
  sh_lambda : R;
  sh_position : xyz;
  sh_velocity : xyz;
  sh_subhalo_type : subhalo_type_t;
  sh_host_halo : option hptr;
  sh_ascendants : list sptr;
  sh_descendant : option sptr;
  sh_main_progenitor : bool;
  sh_has_descendant : bool;
  sh_descendant_halo_id : Z;
  sh_descendant_id : Z;
  sh_accreted_mass : R;
  sh_last_snapshot_identified : Z
}.

Record Halo : Type := mkHalo {
  h_id : Z;
  h_snapshot : Z;
  h_Mvir : R;
  h_Vvir : R;
  h_concentration : R;
  h_lambda : R;
  h_position : xyz;
  h_velocity : xyz;
  h_ascendants : gset nat;
  h_descendant : option hptr;
  h_central_subhalo : option sptr;
  h_satellite_subhalos : list sptr;
  h_merger_tree : option tptr
}.

Record MergerTree : Type := mkMergerTree {
  t_id : Z;
  t_halos : gmap Z (list hptr)
}.

(** The heap, the warnings logged so far and [AllBaryons]. *)
Record state : Type := mkState {
  halos : list Halo;
  subhalos : list Subhalo;
  trees : list MergerTree;
  warnings : list message;
  baryon_total_created : gmap Z R
}.

(** *** Field updates *)

Definition sh_with_subhalo_type (v : subhalo_type_t) (s : Subhalo) : Subhalo :=
  mkSubhalo (sh_id s) (sh_snapshot s) (sh_Mvir s) (sh_Vvir s) (sh_concentration s)
    (sh_lambda s) (sh_position s) (sh_velocity s) v (sh_host_halo s)
    (sh_ascendants s) (sh_descendant s) (sh_main_progenitor s) (sh_has_descendant s)
    (sh_descendant_halo_id s) (sh_descendant_id s) (sh_accreted_mass s)
    (sh_last_snapshot_identified s).

Definition sh_with_ascendants (v : list sptr) (s : Subhalo) : Subhalo :=
  mkSubhalo (sh_id s) (sh_snapshot s) (sh_Mvir s) (sh_Vvir s) (sh_concentration s)
    (sh_lambda s) (sh_position s) (sh_velocity s) (sh_subhalo_type s) (sh_host_halo s)
    v (sh_descendant s) (sh_main_progenitor s) (sh_has_descendant s)
    (sh_descendant_halo_id s) (sh_descendant_id s) (sh_accreted_mass s)
    (sh_last_snapshot_identified s).

Definition sh_with_descendant (v : option sptr) (s : Subhalo) : Subhalo :=
  mkSubhalo (sh_id s) (sh_snapshot s) (sh_Mvir s) (sh_Vvir s) (sh_concentration s)
    (sh_lambda s) (sh_position s) (sh_velocity s) (sh_subhalo_type s) (sh_host_halo s)
    (sh_ascendants s) v (sh_main_progenitor s) (sh_has_descendant s)
    (sh_descendant_halo_id s) (sh_descendant_id s) (sh_accreted_mass s)
    (sh_last_snapshot_identified s).

Definition sh_with_main_progenitor (v : bool) (s : Subhalo) : Subhalo :=
  mkSubhalo (sh_id s) (sh_snapshot s) (sh_Mvir s) (sh_Vvir s) (sh_concentration s)
    (sh_lambda s) (sh_position s) (sh_velocity s) (sh_subhalo_type s) (sh_host_halo s)
    (sh_ascendants s) (sh_descendant s) v (sh_has_descendant s)
    (sh_descendant_halo_id s) (sh_descendant_id s) (sh_accreted_mass s)
    (sh_last_snapshot_identified s).

Definition sh_with_accreted_mass (v : R) (s : Subhalo) : Subhalo :=
  mkSubhalo (sh_id s) (sh_snapshot s) (sh_Mvir s) (sh_Vvir s) (sh_concentration s)
    (sh_lambda s) (sh_position s) (sh_velocity s) (sh_subhalo_type s) (sh_host_halo s)
    (sh_ascendants s) (sh_descendant s) (sh_main_progenitor s) (sh_has_descendant s)
    (sh_descendant_halo_id s) (sh_descendant_id s) v
    (sh_last_snapshot_identified s).

Definition sh_with_last_snapshot_identified (v : Z) (s : Subhalo) : Subhalo :=
  mkSubhalo (sh_id s) (sh_snapshot s) (sh_Mvir s) (sh_Vvir s) (sh_concentration s)
    (sh_lambda s) (sh_position s) (sh_velocity s) (sh_subhalo_type s) (sh_host_halo s)
    (sh_ascendants s) (sh_descendant s) (sh_main_progenitor s) (sh_has_descendant s)
    (sh_descendant_halo_id s) (sh_descendant_id s) (sh_accreted_mass s) v.

Definition h_with_Mvir (v : R) (h : Halo) : Halo :=
  mkHalo (h_id h) (h_snapshot h) v (h_Vvir h) (h_concentration h) (h_lambda h)
    (h_position h) (h_velocity h) (h_ascendants h) (h_descendant h)
    (h_central_subhalo h) (h_satellite_subhalos h) (h_merger_tree h).

Definition h_with_Vvir (v : R) (h : Halo) : Halo :=
  mkHalo (h_id h) (h_snapshot h) (h_Mvir h) v (h_concentration h) (h_lambda h)
    (h_position h) (h_velocity h) (h_ascendants h) (h_descendant h)
    (h_central_subhalo h) (h_satellite_subhalos h) (h_merger_tree h).

Definition h_with_concentration (v : R) (h : Halo) : Halo :=
  mkHalo (h_id h) (h_snapshot h) (h_Mvir h) (h_Vvir h) v (h_lambda h)
    (h_position h) (h_velocity h) (h_ascendants h) (h_descendant h)
    (h_central_subhalo h) (h_satellite_subhalos h) (h_merger_tree h).

Definition h_with_lambda (v : R) (h : Halo) : Halo :=
  mkHalo (h_id h) (h_snapshot h) (h_Mvir h) (h_Vvir h) (h_concentration h) v
    (h_position h) (h_velocity h) (h_ascendants h) (h_descendant h)
    (h_central_subhalo h) (h_satellite_subhalos h) (h_merger_tree h).

Definition h_with_position (v : xyz) (h : Halo) : Halo :=
  mkHalo (h_id h) (h_snapshot h) (h_Mvir h) (h_Vvir h) (h_concentration h) (h_lambda h)
    v (h_velocity h) (h_ascendants h) (h_descendant h)
    (h_central_subhalo h) (h_satellite_subhalos h) (h_merger_tree h).

Definition h_with_velocity (v : xyz) (h : Halo) : Halo :=
  mkHalo (h_id h) (h_snapshot h) (h_Mvir h) (h_Vvir h) (h_concentration h) (h_lambda h)
    (h_position h) v (h_ascendants h) (h_descendant h)
    (h_central_subhalo h) (h_satellite_subhalos h) (h_merger_tree h).

Definition h_with_ascendants (v : gset nat) (h : Halo) : Halo :=
  mkHalo (h_id h) (h_snapshot h) (h_Mvir h) (h_Vvir h) (h_concentration h) (h_lambda h)
    (h_position h) (h_velocity h) v (h_descendant h)
    (h_central_subhalo h) (h_satellite_subhalos h) (h_merger_tree h).

Definition h_with_descendant (v : option hptr) (h : Halo) : Halo :=
  mkHalo (h_id h) (h_snapshot h) (h_Mvir h) (h_Vvir h) (h_concentration h) (h_lambda h)
    (h_position h) (h_velocity h) (h_ascendants h) v
    (h_central_subhalo h) (h_satellite_subhalos h) (h_merger_tree h).

Definition h_with_central_subhalo (v : option sptr) (h : Halo) : Halo :=
  mkHalo (h_id h) (h_snapshot h) (h_Mvir h) (h_Vvir h) (h_concentration h) (h_lambda h)
    (h_position h) (h_velocity h) (h_ascendants h) (h_descendant h)
    v (h_satellite_subhalos h) (h_merger_tree h).

Definition h_with_satellite_subhalos (v : list sptr) (h : Halo) : Halo :=
  mkHalo (h_id h) (h_snapshot h) (h_Mvir h) (h_Vvir h) (h_concentration h) (h_lambda h)
    (h_position h) (h_velocity h) (h_ascendants h) (h_descendant h)
    (h_central_subhalo h) v (h_merger_tree h).

Definition h_with_merger_tree (v : option tptr) (h : Halo) : Halo :=
  mkHalo (h_id h) (h_snapshot h) (h_Mvir h) (h_Vvir h) (h_concentration h) (h_lambda h)
    (h_position h) (h_velocity h) (h_ascendants h) (h_descendant h)
    (h_central_subhalo h) (h_satellite_subhalos h) v.

Definition t_with_halos (v : gmap Z (list hptr)) (t : MergerTree) : MergerTree :=
  mkMergerTree (t_id t) v.

Definition st_with_halos (v : list Halo) (σ : state) : state :=
  mkState v (subhalos σ) (trees σ) (warnings σ) (baryon_total_created σ).

Definition st_with_subhalos (v : list Subhalo) (σ : state) : state :=
  mkState (halos σ) v (trees σ) (warnings σ) (baryon_total_created σ).

Definition st_with_trees (v : list MergerTree) (σ : state) : state :=
  mkState (halos σ) (subhalos σ) v (warnings σ) (baryon_total_created σ).

Definition st_with_warnings (v : list message) (σ : state) : state :=
  mkState (halos σ) (subhalos σ) (trees σ) v (baryon_total_created σ).

Definition st_with_baryons (v : gmap Z R) (σ : state) : state :=
  mkState (halos σ) (subhalos σ) (trees σ) (warnings σ) v.

(** ** The monad *)

Inductive outcome (A : Type) : Type :=
| Ret (a : A) (σ : state)
| Throw (e : exn)
| Undefined
| OutOfFuel.

Arguments Ret {A} a σ.
Arguments Throw {A} e.
Arguments Undefined {A}.
Arguments OutOfFuel {A}.

Definition M (A : Type) : Type := state → outcome A.

Definition ret {A} (a : A) : M A := λ σ, Ret a σ.

Definition bind {A B} (m : M A) (k : A → M B) : M B :=
  λ σ, match m σ with
       | Ret a σ' => k a σ'
       | Throw e => Throw e
       | Undefined => Undefined
       | OutOfFuel => OutOfFuel
       end.

Definition throw {A} (e : exn) : M A := λ _, Throw e.
Definition undefined {A} : M A := λ _, Undefined.
Definition out_of_fuel {A} : M A := λ _, OutOfFuel.

Notation "'let*' x ':=' m 'in' k" := (bind m (λ x, k))
  (at level 10, x pattern, m at level 100, k at level 200,
   format "'[v' 'let*'  x  ':='  m  'in' '/' k ']'").
Notation "m ';;;' k" := (bind m (λ _, k))
  (at level 100, k at level 200, right associativity,
   format "'[v' m  ';;;' '/' k ']'").

(** *** Heap access *)

Definition get_halo (h : hptr) : M Halo :=
  λ σ, match halos σ !! h with Some x => Ret x σ | None => Undefined end.

Definition get_subhalo (s : sptr) : M Subhalo :=
  λ σ, match subhalos σ !! s with Some x => Ret x σ | None => Undefined end.

Definition get_tree (t : tptr) : M MergerTree :=
  λ σ, match trees σ !! t with Some x => Ret x σ | None => Undefined end.

Definition modify_halo (h : hptr) (f : Halo → Halo) : M unit :=
  λ σ, match halos σ !! h with
       | Some x => Ret tt (st_with_halos (<[h := f x]> (halos σ)) σ)
       | None => Undefined
       end.

Definition modify_subhalo (s : sptr) (f : Subhalo → Subhalo) : M unit :=
  λ σ, match subhalos σ !! s with
       | Some x => Ret tt (st_with_subhalos (<[s := f x]> (subhalos σ)) σ)
       | None => Undefined
       end.

Definition modify_tree (t : tptr) (f : MergerTree → MergerTree) : M unit :=
  λ σ, match trees σ !! t with
       | Some x => Ret tt (st_with_trees (<[t := f x]> (trees σ)) σ)
       | None => Undefined
       end.

(** [std::make_shared<MergerTree>(id)] *)
Definition make_tree (id : Z) : M tptr :=
  λ σ, Ret (length (trees σ)) (st_with_trees (trees σ ++ [mkMergerTree id ∅]) σ).

(** [LOG(warning) << m] *)
Definition log_warning (m : message) : M unit :=
  λ σ, Ret tt (st_with_warnings (warnings σ ++ [m]) σ).

Definition set_baryon_total_created (snapshot : Z) (v : R) : M unit :=
  λ σ, Ret tt (st_with_baryons (<[snapshot := v]> (baryon_total_created σ)) σ).

(** [snapshot++] and [snapshot--] on an [int] loop counter: signed
    overflow is undefined. *)
Definition increment (snapshot : Z) : M unit :=
  if snapshot =? int_max then undefined else ret tt.

Definition decrement (snapshot : Z) : M unit :=
  if snapshot =? int_min then undefined else ret tt.

(** *** Loops *)

(** A range-[for] whose body may [break]; [acc] holds the local
    variables the body updates. *)
Fixpoint for_each {A S} (l : list A) (body : A → S → M (ctl * S)) (acc : S) : M S :=
  match l with
  | [] => ret acc
  | x :: l' =>
      let* (c, acc') := body x acc in
      match c with
      | Next => for_each l' body acc'
      | Break => ret acc'
      end
  end.

(** A range-[for] without [break] and without local state. *)
Fixpoint for_all {A} (l : list A) (body : A → M unit) : M unit :=
  match l with
  | [] => ret tt
  | x :: l' => body x ;;; for_all l' body
  end.

(** ** Members of [Halo], [Subhalo] and [MergerTree] *)

(** Modelled from the spec: [Halo::all_subhalos] (its definition is not
    in src/), the subhalos a halo lists "as central or satellite": the
    central subhalo, when there is one, followed by the satellites. *)
Definition all_subhalos (h : Halo) : list sptr :=
  match h_central_subhalo h with
  | Some c => c :: h_satellite_subhalos h
  | None => h_satellite_subhalos h
  end.

(** Modelled from the spec: [Halo::remove_subhalo] (its definition is
    not in src/): "satellite/central membership revoked".  Removing a
    subhalo the halo does not list is the invalid-data condition
    "satellite removal from a halo that does not list it". *)
Definition remove_subhalo (halo : hptr) (subhalo : sptr) : M unit :=
  let* h := get_halo halo in
  if decide (h_central_subhalo h = Some subhalo) then
    modify_halo halo (h_with_central_subhalo None)
  else
    match erase_first subhalo (h_satellite_subhalos h) with
    | Some l => modify_halo halo (h_with_satellite_subhalos l)
    | None => throw (invalid_data msg_not_in_satellites)
    end.

(** The bucket of a tree at a snapshot, without creating it. *)
Definition bucket (t : MergerTree) (snapshot : Z) : list hptr :=
  default [] (t_halos t !! snapshot).

(** Modelled from the spec: [MergerTree::add_halo] (its definition is
    not in src/) "appends the halo to the tree's snapshot bucket", the
    bucket of the halo's own snapshot. *)
Definition add_halo (tree : tptr) (halo : hptr) : M unit :=
  let* h := get_halo halo in
  modify_tree tree
    (λ t, t_with_halos (<[h_snapshot h := bucket t (h_snapshot h) ++ [halo]]> (t_halos t)) t).

(** [tree->halos[snapshot]]: [std::map::operator[]] creates an empty
    bucket when the snapshot has none. *)
Definition halos_at (tree : tptr) (snapshot : Z) : M (list hptr) :=
  let* t := get_tree tree in
  match t_halos t !! snapshot with
  | Some l => ret l
  | None =>
      modify_tree tree (t_with_halos (<[snapshot := []]> (t_halos t))) ;;;
      ret []
  end.

Fixpoint find_main (ascendants : list sptr) : M (option sptr) :=
  match ascendants with
  | [] => ret None
  | a :: l =>
      let* s := get_subhalo a in
      if sh_main_progenitor s then ret (Some a) else find_main l
  end.

(** Modelled from the spec: [Subhalo::main] (its definition is not in
    src/), the ascendant that carries the "main progenitor" flag, null
    when none does. *)
Definition main (subhalo : sptr) : M (option sptr) :=
  let* s := get_subhalo subhalo in
  find_main (sh_ascendants s).

(** ** [TreeBuilder::ensure_trees_are_self_contained] *)

(** The keys of [tree->halos] in the order [std::map] iterates them. *)
Definition tree_snapshots (t : MergerTree) : list Z :=
  merge_sort Z.le (elements (dom (t_halos t))).

Definition check_halo_in_tree (tree : tptr) (halo : hptr) : M unit :=
  let* h := get_halo halo in
  if decide (h_merger_tree h = Some tree) then ret tt
  else throw (invalid_data (msg_not_part_of_tree halo tree)).

Definition ensure_trees_are_self_contained (trees : list tptr) : M unit :=
  for_all trees (λ tree,
    let* t := get_tree tree in
    for_all (tree_snapshots t) (λ snapshot,
      for_all (bucket t snapshot) (check_halo_in_tree tree))).

(** ** [TreeBuilder::link] *)

Definition link (parent_shalo desc_subhalo : sptr) (parent_halo desc_halo : hptr) : M unit :=
  modify_subhalo desc_subhalo (λ s, sh_with_ascendants (sh_ascendants s ++ [parent_shalo]) s) ;;;
  let* ps := get_subhalo parent_shalo in
  match sh_descendant ps with
  | Some d => throw (invalid_data (msg_subhalo_has_descendant parent_shalo d desc_subhalo))
  | None =>
      modify_subhalo parent_shalo (sh_with_descendant (Some desc_subhalo)) ;;;
      let* dh := get_halo desc_halo in
      let result := hset_insert parent_halo (h_ascendants dh) in
      modify_halo desc_halo (h_with_ascendants (fst result)) ;;;
      let halos_linked := snd result in
      let* ph := get_halo parent_halo in
      (match h_descendant ph with
       | Some d =>
           let* dd := get_halo d in
           let* dh' := get_halo desc_halo in
           if decide (h_id dd = h_id dh') then ret tt
           else throw (invalid_data (msg_halo_has_descendant parent_halo d desc_halo))
       | None => ret tt
       end) ;;;
      modify_halo parent_halo (h_with_descendant (Some desc_halo)) ;;;
      let* dh'' := get_halo desc_halo in
      match h_merger_tree dh'' with
      | None => throw (invalid_data (msg_no_merger_tree desc_halo))
      | Some tree =>
          modify_halo parent_halo (h_with_merger_tree (Some tree)) ;;;
          if halos_linked then add_halo tree parent_halo else ret tt
      end
  end.

(** ** [TreeBuilder::remove_satellite] *)

Definition remove_satellite (halo : hptr) (subhalo : sptr) : M unit :=
  let* h := get_halo halo in
  match erase_first subhalo (h_satellite_subhalos h) with
  | None => throw (invalid_data (msg_no_satellites halo))
  | Some l => modify_halo halo (h_with_satellite_subhalos l)
  end.

(** ** [TreeBuilder::define_central_subhalo] *)

Definition define_central_subhalo (halo : hptr) (subhalo : sptr) : M sptr :=
  modify_halo halo (h_with_central_subhalo (Some subhalo)) ;;;
  let* s := get_subhalo subhalo in
  modify_halo halo (h_with_position (sh_position s)) ;;;
  modify_halo halo (h_with_velocity (sh_velocity s)) ;;;
  modify_halo halo (h_with_concentration (sh_concentration s)) ;;;
  modify_halo halo (h_with_lambda (sh_lambda s)) ;;;
  let* h := get_halo halo in
  (if s_ltb (h_Vvir h) (sh_Vvir s) then modify_halo halo (h_with_Vvir (sh_Vvir s))
   else ret tt) ;;;
  remove_satellite halo subhalo ;;;
  modify_subhalo subhalo (sh_with_subhalo_type CENTRAL) ;;;
  ret subhalo.

(** ** [TreeBuilder::define_central_subhalos] *)

(** [std::max_element] with the comparison [s1->Mvir < s2->Mvir]. *)
Fixpoint max_element_Mvir (largest : sptr) (l : list sptr) : M sptr :=
  match l with
  | [] => ret largest
  | x :: l' =>
      let* a := get_subhalo largest in
      let* b := get_subhalo x in
      if s_ltb (sh_Mvir a) (sh_Mvir b) then max_element_Mvir x l'
      else max_element_Mvir largest l'
  end.

Definition stamp_last_snapshot_identified (sub : sptr) : M unit :=
  let* s := get_subhalo sub in
  if negb (sh_main_progenitor s) then
    modify_subhalo sub (sh_with_last_snapshot_identified (sh_snapshot s))
  else ret tt.

(** The [while (not ascendants.empty())] loop of lines 245-281; one
    unit of fuel per iteration. *)
Fixpoint walk_main_branch (fuel : nat) (subhalo : sptr) (ascendants : list sptr) : M unit :=
  match ascendants with
  | [] => ret tt
  | first :: rest =>
      match fuel with
      | O => out_of_fuel
      | S fuel' =>
          let* m := main subhalo in
          let* main_prog :=
            match m with
            | Some p => ret p
            | None =>
                let* p := max_element_Mvir first rest in
                modify_subhalo p (sh_with_main_progenitor true) ;;;
                log_warning (msg_no_main_progenitor subhalo p) ;;;
                ret p
            end in
          let* mp := get_subhalo main_prog in
          match sh_host_halo mp with
          | None => undefined
          | Some ascendant_halo =>
              let* ah := get_halo ascendant_halo in
              match h_central_subhalo ah with
              | Some _ => ret tt
              | None =>
                  let* subhalo' := define_central_subhalo ascendant_halo main_prog in
                  for_all ascendants stamp_last_snapshot_identified ;;;
                  let* s' := get_subhalo subhalo' in
                  walk_main_branch fuel' subhalo' (sh_ascendants s')
              end
          end
      end
  end.

(** The body of the loop over [tree->halos[snapshot]], lines 225-282. *)
Definition resolve_halo (fuel : nat) (halo : hptr) : M unit :=
  let* h := get_halo halo in
  match h_central_subhalo h with
  | Some _ => ret tt
  | None =>
      match all_subhalos h with
      | [] => undefined
      | central_subhalo :: _ =>
          let* subhalo := define_central_subhalo halo central_subhalo in
          let* s := get_subhalo subhalo in
          walk_main_branch fuel subhalo (sh_ascendants s)
      end
  end.

(** First loop nest, lines 220-284:
    [for (int snapshot = max_snapshot; snapshot >= min_snapshot; snapshot--)]
    within every tree; each iteration ends with [snapshot--]. *)
Definition resolve_central_subhalos (trees : list tptr) (sim_params : SimulationParameters)
    (fuel : nat) : M unit :=
  for_all trees (λ tree,
    for_all (snapshots_down (max_snapshot sim_params) (min_snapshot sim_params)) (λ snapshot,
      (let* hs := halos_at tree snapshot in
       for_all hs (resolve_halo fuel)) ;;;
      decrement snapshot)).

(** The body of the loop over [tree->halos[snapshot]], lines 295-312. *)
Definition check_one_central (snapshot : Z) (halo : hptr) : M unit :=
  let* h := get_halo halo in
  let* i := for_each (all_subhalos h) (λ subhalo (i : Z),
      let* s := get_subhalo subhalo in
      match sh_subhalo_type s with
      | CENTRAL =>
          if 1 <? i + 1 then throw (invalid_argument (msg_more_than_one_central halo snapshot))
          else ret (Next, i + 1)
      | SATELLITE => ret (Next, i)
      end) 0 in
  if i =? 0 then throw (invalid_argument (msg_no_central halo snapshot)) else ret tt.

(** [for (int snapshot = min_snapshot; snapshot >= max_snapshot; snapshot++)],
    line 293, started at [snapshot]; incrementing [INT_MAX] is undefined. *)
Fixpoint check_snapshots_from (fuel : nat) (tree : tptr) (sim_params : SimulationParameters)
    (snapshot : Z) : M unit :=
  if snapshot >=? max_snapshot sim_params then
    match fuel with
    | O => out_of_fuel
    | S fuel' =>
        let* hs := halos_at tree snapshot in
        for_all hs (check_one_central snapshot) ;;;
        if snapshot =? int_max then undefined
        else check_snapshots_from fuel' tree sim_params (snapshot + 1)
    end
  else ret tt.

(** Second loop nest, lines 290-314. *)
Definition check_central_subhalos (trees : list tptr) (sim_params : SimulationParameters)
    (fuel : nat) : M unit :=
  for_all trees (λ tree, check_snapshots_from fuel tree sim_params (min_snapshot sim_params)).

Definition define_central_subhalos (trees : list tptr) (sim_params : SimulationParameters)
    (fuel : nat) : M unit :=
  resolve_central_subhalos trees sim_params fuel ;;;
  check_central_subhalos trees sim_params fuel.

(** ** [TreeBuilder::ensure_halo_mass_growth]

    In [for (int snapshot = min_snapshot; snapshot < max_snapshot; snapshot++)]
    the counter is below [max_snapshot] whenever it is incremented, so
    the increment cannot overflow. *)

Definition grow_descendant (halo : hptr) : M unit :=
  let* h := get_halo halo in
  match h_descendant h with
  | None => undefined
  | Some d =>
      let* dh := get_halo d in
      if s_ltb (h_Mvir dh) (h_Mvir h) then modify_halo d (h_with_Mvir (h_Mvir h))
      else ret tt
  end.

Definition ensure_halo_mass_growth (trees : list tptr) (sim_params : SimulationParameters)
    : M unit :=
  for_all trees (λ tree,
    for_all (snapshots_up (min_snapshot sim_params) (max_snapshot sim_params)) (λ snapshot,
      let* hs := halos_at tree snapshot in
      for_all hs grow_descendant)).

(** ** [TreeBuilder::define_accretion_rate_from_dm] *)

(** [std::accumulate(ascendants, 0., mass + halo->Mvir)] *)
Fixpoint accumulate_Mvir (ascendants : list hptr) (mass : R) : M R :=
  match ascendants with
  | [] => ret mass
  | a :: l =>
      let* h := get_halo a in
      accumulate_Mvir l (s_add mass (h_Mvir h))
  end.

(** The body of the loop over [tree->halos[snapshot]], lines 384-404. *)
Definition define_accreted_mass (universal_baryon_fraction : R) (halo : hptr) : M unit :=
  let* h := get_halo halo in
  let* Mvir_asc := accumulate_Mvir (elements (h_ascendants h)) s_zero in
  match h_central_subhalo h with
  | None => undefined
  | Some c =>
      modify_subhalo c
        (sh_with_accreted_mass (s_mul (s_sub (h_Mvir h) Mvir_asc) universal_baryon_fraction)) ;;;
      let* cs := get_subhalo c in
      if s_ltb (sh_accreted_mass cs) s_zero then modify_subhalo c (sh_with_accreted_mass s_zero)
      else ret tt
  end.

Definition add_accreted_mass (halo : hptr) (total : R) : M (ctl * R) :=
  let* h := get_halo halo in
  match h_central_subhalo h with
  | None => undefined
  | Some c =>
      let* cs := get_subhalo c in
      ret (Next, s_add total (sh_accreted_mass cs))
  end.

(** [universal_baryon_fraction] stands for
    [cosmology.universal_baryon_fraction()]; [gas_cooling_params] is
    only used in commented-out code.  The first loop nest runs
    [for (int snapshot = max_snapshot; snapshot >= min_snapshot; snapshot--)]
    within every tree, the second
    [for (int snapshot = min_snapshot; snapshot <= max_snapshot; snapshot++)];
    each iteration ends with the step of its counter. *)
Definition define_accretion_rate_from_dm (trees : list tptr) (sim_params : SimulationParameters)
    (universal_baryon_fraction : R) : M unit :=
  for_all trees (λ tree,
    for_all (snapshots_down (max_snapshot sim_params) (min_snapshot sim_params)) (λ snapshot,
      (let* hs := halos_at tree snapshot in
       for_all hs (define_accreted_mass universal_baryon_fraction)) ;;;
      decrement snapshot)) ;;;
  let* _ := for_each
    (seqZ (min_snapshot sim_params) (max_snapshot sim_params - min_snapshot sim_params + 1))
    (λ snapshot total_baryon_accreted,
      let* total := for_each trees (λ tree total,
          let* hs := halos_at tree snapshot in
          let* total' := for_each hs add_accreted_mass total in
          ret (Next, total')) total_baryon_accreted in
      set_baryon_total_created snapshot total ;;;
      increment snapshot ;;;
      ret (Next, total)) s_zero in
  ret tt.

(** ** [HaloBasedTreeBuilder::loop_through_halos] *)

(** [halos_by_snapshot] and [halos_by_id], lines 448-453. *)
Definition index_halos (halos : list hptr) : M (gmap Z (list hptr) * gmap Z hptr) :=
  for_each halos (λ halo '(by_snapshot, by_id),
    let* h := get_halo halo in
    ret (Next, (<[h_snapshot h := default [] (by_snapshot !! h_snapshot h) ++ [halo]]> by_snapshot,
                <[h_id h := halo]> by_id))) (∅, ∅).

(** [halo_snapshots], lines 471-474. *)
Definition halo_snapshots (halos : list hptr) : M (list Z) :=
  for_each halos (λ halo set,
    let* h := get_halo halo in
    ret (Next, set_insert (h_snapshot h) set)) [].

(** [std::vector<int>(++(halo_snapshots.rbegin()), halo_snapshots.rend())];
    incrementing [rbegin()] of an empty set is undefined. *)
Definition sorted_halo_snapshots (halo_snapshots : list Z) : option (list Z) :=
  match reverse halo_snapshots with
  | [] => None
  | _ :: rest => Some rest
  end.

(** The loop over [d_halo->all_subhalos()], lines 517-534; the result is
    [subhalo_descendant_found].  [d_subhalo->snapshot - 1] is computed
    on [int]: at the smallest [int] the subtraction overflows, which is
    undefined. *)
Definition find_descendant (subhalo : sptr) (halo d_halo : hptr) (d_subhalos : list sptr)
    : M bool :=
  for_each d_subhalos (λ d_subhalo found,
    let* ds := get_subhalo d_subhalo in
    let* s := get_subhalo subhalo in
    if sh_id ds =? sh_descendant_id s then
      if sh_snapshot ds =? int_min then undefined
      else if negb (sh_snapshot s =? sh_snapshot ds - 1) then
        throw (invalid_data (msg_not_direct_descendant d_subhalo subhalo))
      else
        link subhalo d_subhalo halo d_halo ;;;
        ret (Break, true)
    else ret (Next, found)) false.

(** Lines 535-559. *)
Definition missing_descendant (exec_params : ExecutionParameters) (halo : hptr)
    (subhalo : sptr) (d_halo : hptr) : M unit :=
  let* os :=
    if skip_missing_descendants exec_params || warn_on_missing_descendants exec_params then
      let* s := get_subhalo subhalo in
      let* dh := get_halo d_halo in
      ret (msg_descendant_not_found (sh_descendant_id s) subhalo d_halo (all_subhalos dh))
    else ret msg_empty in
  if negb (skip_missing_descendants exec_params) then
    let* s := get_subhalo subhalo in
    throw (subhalo_not_found os (sh_descendant_id s))
  else
    (if warn_on_missing_descendants exec_params then log_warning os else ret tt) ;;;
    remove_subhalo halo subhalo.

(** The body of the loop over [halo->all_subhalos()], lines 488-560.
    The local variables are [halos_by_id], [ignored] and [halo_linked]. *)
Definition link_subhalo (exec_params : ExecutionParameters) (halo : hptr) (subhalo : sptr)
    (locals : gmap Z hptr * Z * bool) : M (ctl * (gmap Z hptr * Z * bool)) :=
  let '(halos_by_id, ignored, halo_linked) := locals in
  let* s := get_subhalo subhalo in
  if negb (sh_has_descendant s) then
    remove_subhalo halo subhalo ;;;
    ret (Next, (halos_by_id, ignored, halo_linked))
  else
    match halos_by_id !! sh_descendant_halo_id s with
    | None =>
        let* h := get_halo halo in
        ret (Break, (delete (h_id h) halos_by_id, ignored + 1, halo_linked))
    | Some d_halo =>
        let* dh := get_halo d_halo in
        let* subhalo_descendant_found := find_descendant subhalo halo d_halo (all_subhalos dh) in
        if subhalo_descendant_found then ret (Next, (halos_by_id, ignored, true))
        else
          missing_descendant exec_params halo subhalo d_halo ;;;
          ret (Next, (halos_by_id, ignored, halo_linked))
    end.

(** The body of the loop over [halos_by_snapshot[snapshot]], lines 485-573. *)
Definition link_halo (exec_params : ExecutionParameters) (halo : hptr)
    (locals : gmap Z hptr * Z) : M (ctl * (gmap Z hptr * Z)) :=
  let '(halos_by_id, ignored) := locals in
  let* h := get_halo halo in
  let* (halos_by_id', ignored', halo_linked) :=
    for_each (all_subhalos h) (link_subhalo exec_params halo) (halos_by_id, ignored, false) in
  if negb halo_linked then
    let* h' := get_halo halo in
    ret (Next, (delete (h_id h') halos_by_id', ignored' + 1))
  else ret (Next, (halos_by_id', ignored')).

(** The body of the loop over [sorted_halo_snapshots], lines 480-585. *)
Definition link_snapshot (exec_params : ExecutionParameters)
    (halos_by_snapshot : gmap Z (list hptr)) (snapshot : Z) (halos_by_id : gmap Z hptr)
    : M (ctl * gmap Z hptr) :=
  let* (halos_by_id', _) :=
    for_each (default [] (halos_by_snapshot !! snapshot)) (link_halo exec_params)
      (halos_by_id, 0) in
  ret (Next, halos_by_id').

Definition loop_through_halos (exec_params : ExecutionParameters) (halos : list hptr) : M unit :=
  let* (halos_by_snapshot, halos_by_id) := index_halos halos in
  let* halo_snapshots := halo_snapshots halos in
  match sorted_halo_snapshots halo_snapshots with
  | None => undefined
  | Some sorted =>
      let* _ := for_each sorted (link_snapshot exec_params halos_by_snapshot) halos_by_id in
      ret tt
  end.

(** ** [TreeBuilder::build_trees] *)

(** Lines 83-93: the trees created so far and [tree_counter]. *)
Definition seed_tree (last_snapshot_to_consider : Z) (halo : hptr) (locals : list tptr * Z)
    : M (ctl * (list tptr * Z)) :=
  let '(trees, tree_counter) := locals in
  let* h := get_halo halo in
  if h_snapshot h =? last_snapshot_to_consider then
    let* tree := make_tree tree_counter in
    modify_halo halo (h_with_merger_tree (Some tree)) ;;;
    add_halo tree halo ;;;
    ret (Next, (trees ++ [tree], tree_counter + 1))
  else ret (Next, (trees, tree_counter)).

Definition seed_trees (last_snapshot_to_consider : Z) (halos : list hptr) : M (list tptr) :=
  let* (trees, _) := for_each halos (seed_tree last_snapshot_to_consider) ([], 0) in
  ret trees.

(** [universal_baryon_fraction] stands for the value the cosmology
    collaborator returns; [fuel] bounds the loops of
    [define_central_subhalos]. *)
Definition build_trees (exec_params : ExecutionParameters) (halos : list hptr)
    (sim_params : SimulationParameters) (universal_baryon_fraction : R) (fuel : nat)
    : M (list tptr) :=
  match output_snapshots exec_params with
  | [] => undefined
  | last_snapshot_to_consider :: _ =>
      let* trees := seed_trees last_snapshot_to_consider halos in
      match trees with
      | [] =>
          let* snapshots_found := halo_snapshots halos in
          throw (invalid_data (msg_no_halos_at_snapshot last_snapshot_to_consider
                                 snapshots_found (output_snapshots exec_params)))
      | _ :: _ =>
          loop_through_halos exec_params halos ;;;
          ensure_trees_are_self_contained trees ;;;
          (if ensure_mass_growth exec_params then ensure_halo_mass_growth trees sim_params
           else ret tt) ;;;
          define_central_subhalos trees sim_params fuel ;;;
          define_accretion_rate_from_dm trees sim_params universal_baryon_fraction ;;;
          ret trees
      end
  end.

End Model.

Arguments Ret {R A} a σ.
Arguments Throw {R A} e.
Arguments Undefined {R A}.
Arguments OutOfFuel {R A}.
Arguments mkSubhalo {R}.
Arguments mkHalo {R}.
Arguments mkState {R}.
Arguments Subhalo : clear implicits.
Arguments Halo : clear implicits.
Arguments state : clear implicits.
Arguments outcome : clear implicits.
Arguments M : clear implicits.

Notation "'let*' x ':=' m 'in' k" := (bind m (λ x, k))
  (at level 10, x pattern, m at level 100, k at level 200,
   format "'[v' 'let*'  x  ':='  m  'in' '/' k ']'").
Notation "m ';;;' k" := (bind m (λ _, k))
  (at level 100, k at level 200, right associativity,
   format "'[v' m  ';;;' '/' k ']'").

(** ** Specifications *)

Section Logic.

Context {R : Type} {SR : Scalar R}.

(** Partial correctness: whenever [m] returns normally from a state
    satisfying [P], the result and the final state satisfy [Q]. *)
Definition hoare {A} (P : state R → Prop) (m : M R A) (Q : A → state R → Prop) : Prop :=
  ∀ σ, P σ → match m σ with Ret a σ' => Q a σ' | _ => True end.

(** Total correctness: from a state satisfying [P], [m] returns
    normally (no exception, no undefined behaviour, enough fuel). *)
Definition total {A} (P : state R → Prop) (m : M R A) (Q : A → state R → Prop) : Prop :=
  ∀ σ, P σ → ∃ a σ', m σ = Ret a σ' ∧ Q a σ'.

(** [m] keeps the invariant [I]. *)
Definition preserves {A} (I : state R → Prop) (m : M R A) : Prop :=
  hoare I m (λ _, I).

End Logic.
(** * Predicates of the specification *)

Section Specifications.
Context {R : Type} {SR : Scalar R}.
Implicit Types σ : state R.

(** [l'] is [l] with the record at every handle [x] replaced by [f x]
    of it: the shape of every heap update. *)
Definition pointwise {A} (f : nat → A → A) (l l' : list A) : Prop :=
  ∀ x, l' !! x = f x <$> l !! x.

(** What [link] has done when it returns. *)
Definition link_halo_update (ph dh : hptr) (t : tptr) (x : nat) (r : Halo R) : Halo R :=
  let r1 := if decide (x = dh) then h_with_ascendants ({[ph]} ∪ h_ascendants r) r else r in
  if decide (x = ph) then h_with_merger_tree (Some t) (h_with_descendant (Some dh) r1) else r1.

Definition link_subhalo_update (ps ds : sptr) (x : nat) (r : Subhalo R) : Subhalo R :=
  let r1 := if decide (x = ds) then sh_with_ascendants (sh_ascendants r ++ [ps]) r else r in
  if decide (x = ps) then sh_with_descendant (Some ds) r1 else r1.

Definition link_tree_update (ph : hptr) (snapshot : Z) (new : bool) (t : tptr)
    (x : nat) (r : MergerTree) : MergerTree :=
  if decide (x = t ∧ new = true) then
    t_with_halos (<[snapshot := bucket r snapshot ++ [ph]]> (t_halos r)) r
  else r.

Definition remove_subhalo_update (halo : hptr) (subhalo : sptr) (x : nat) (r : Halo R)
    : Halo R :=
  if decide (x = halo) then
    if decide (h_central_subhalo r = Some subhalo) then h_with_central_subhalo None r
    else match erase_first subhalo (h_satellite_subhalos r) with
         | Some l => h_with_satellite_subhalos l r
         | None => r
         end
  else r.

(** What is known at the call of [link] in [loop_through_halos]
    started in [σ0]: the subhalos are at adjacent snapshots, the parent
    halo is at one of the processed snapshots, the descendant halo is
    the one [halos_by_id] keeps for its id. *)
Definition link_site (σ0 : state R) (processed : list Z) (index : gmap Z hptr)
    (σ : state R) (ps ds : sptr) (ph dh : hptr) : Prop :=
  (∃ psr dsr, subhalos σ !! ps = Some psr ∧ subhalos σ !! ds = Some dsr ∧
              sh_snapshot dsr = sh_snapshot psr + 1) ∧
  (∃ phr0, halos σ0 !! ph = Some phr0 ∧ h_snapshot phr0 ∈ processed) ∧
  (∃ dhr0, halos σ0 !! dh = Some dhr0 ∧ index !! h_id dhr0 = Some dh).

(** Some halo of [input] is at snapshot [s]. *)
Definition snapshot_present (σ : state R) (input : list hptr) (s : Z) : Prop :=
  ∃ h hr, h ∈ input ∧ halos σ !! h = Some hr ∧ h_snapshot hr = s.

(** Ids and snapshots of halos are those of [σ0]. *)
Definition static_keys (σ0 σ : state R) : Prop :=
  ∀ h, h_id <$> halos σ !! h = h_id <$> halos σ0 !! h ∧
       h_snapshot <$> halos σ !! h = h_snapshot <$> halos σ0 !! h.

(** Every halo of a bucket sits at the bucket's snapshot and, unless
    this is the root snapshot [r], has been linked: it has a
    descendant, is among the descendant's ascendants, and the
    descendant is the halo that [index] keeps for its id. *)
Definition bucket_linked (r : Z) (index : gmap Z hptr) (σ : state R) : Prop :=
  ∀ t tr s h, trees σ !! t = Some tr → h ∈ bucket tr s →
    ∃ hr, halos σ !! h = Some hr ∧ h_snapshot hr = s ∧
      (s = r ∨ ∃ D Dr, h_descendant hr = Some D ∧ halos σ !! D = Some Dr ∧
                        h ∈ h_ascendants Dr ∧ index !! h_id Dr = Some D).

(** No bucket lists a halo twice. *)
Definition bucket_nodup (σ : state R) : Prop :=
  ∀ t tr s, trees σ !! t = Some tr → NoDup (bucket tr s).

(** Every subhalo with a descendant is one snapshot before it. *)
Definition adjacent_links (σ : state R) : Prop :=
  ∀ s sr d dr, subhalos σ !! s = Some sr → sh_descendant sr = Some d →
    subhalos σ !! d = Some dr → sh_snapshot dr = sh_snapshot sr + 1.

(** Every bucket only holds halos of the root snapshot [r], at [r]. *)
Definition bucket_roots (r : Z) (σ : state R) : Prop :=
  ∀ t tr s h, trees σ !! t = Some tr → h ∈ bucket tr s →
    ∃ hr, halos σ !! h = Some hr ∧ h_snapshot hr = s ∧ s = r.

(** An update of a halo that keeps its snapshot, its tree and its
    descendant. *)
Definition keeps_links (f : Halo R → Halo R) : Prop :=
  ∀ r, h_snapshot (f r) = h_snapshot r ∧ h_merger_tree (f r) = h_merger_tree r ∧
       h_descendant (f r) = h_descendant r.

(** The halos of the trees [ts] in the order
    [ensure_trees_are_self_contained] visits them, each with its tree. *)
Definition tree_halos (t : tptr) (tr : MergerTree) : list (tptr * hptr) :=
  s ← tree_snapshots tr; (λ h, (t, h)) <$> bucket tr s.

Fixpoint forest_halos (σ : state R) (ts : list tptr) : list (tptr * hptr) :=
  match ts with
  | [] => []
  | t :: ts' =>
      match trees σ !! t with
      | Some tr => tree_halos t tr ++ forest_halos σ ts'
      | None => []
      end
  end.

(** The halo's tree reference is not the tree that lists it. *)
Definition misplaced (σ : state R) (th : tptr * hptr) : bool :=
  bool_decide ((h_merger_tree <$> halos σ !! th.2) ≠ Some (Some th.1)).

(** Every handle the check follows is live. *)
Definition forest_live (σ : state R) (ts : list tptr) : Prop :=
  ∀ t, t ∈ ts → ∃ tr, trees σ !! t = Some tr ∧
    ∀ s h, h ∈ bucket tr s → is_Some (halos σ !! h).

(** Self-containment of the trees [forest]: a halo of a bucket refers
    to the tree of the bucket, sits at the bucket's snapshot, and the
    bucket lists no halo twice. *)
Definition forest_ok (forest : list tptr) (σ : state R) : Prop :=
  ∀ t tr s h, t ∈ forest → trees σ !! t = Some tr → h ∈ bucket tr s →
    (∃ hr, halos σ !! h = Some hr ∧ h_merger_tree hr = Some t ∧ h_snapshot hr = s) ∧
    NoDup (bucket tr s).

(** [processed] is the list [sorted_halo_snapshots] that
    [loop_through_halos] computes for [input]. *)
Definition linker_snapshots (input : list hptr) (σ : state R) (processed : list Z) : Prop :=
  ∃ set, halo_snapshots input σ = Ret set σ ∧ sorted_halo_snapshots set = Some processed.

(** The claim as the specification words it: the processed snapshots
    are the present ones except the root snapshot, the first entry of
    the output snapshots. *)
Definition skips_root_snapshot (exec_params : ExecutionParameters) (input : list hptr)
    (σ : state R) (processed : list Z) : Prop :=
  ∃ r rest, output_snapshots exec_params = r :: rest ∧
    ∀ s, s ∈ processed ↔ snapshot_present σ input s ∧ s ≠ r.


(** [σ'] is [σ] up to buckets that [tree->halos[snapshot]] created. *)
Definition same_heap (σ σ' : state R) : Prop :=
  halos σ' = halos σ ∧ subhalos σ' = subhalos σ ∧ warnings σ' = warnings σ ∧
  baryon_total_created σ' = baryon_total_created σ ∧
  ∃ f, pointwise f (trees σ) (trees σ') ∧ ∀ x r s, bucket (f x r) s = bucket r s.

(** Every halo of the trees [ts] is live and has its central subhalo. *)
Definition all_resolved (ts : list tptr) (σ : state R) : Prop :=
  ∀ t, t ∈ ts → ∃ tr, trees σ !! t = Some tr ∧
    ∀ s h, h ∈ bucket tr s → ∃ hr, halos σ !! h = Some hr ∧ is_Some (h_central_subhalo hr).

(** The shape shared by [ensure_halo_mass_growth] and the first loop of
    [define_accretion_rate_from_dm]. *)
Definition traverse (ts : list tptr) (snaps : list Z) (body : hptr → M R unit) : M R unit :=
  for_all ts (λ tree,
    for_all snaps (λ snapshot,
      let* hs := halos_at tree snapshot in
      for_all hs body)).

(** The halos [traverse] visits, in order. *)
Definition visits (σ : state R) (ts : list tptr) (snaps : list Z) : list hptr :=
  t ← ts; s ← snaps; match trees σ !! t with Some tr => bucket tr s | None => [] end.

(** [σa] and [σb] differ in their trees at most. *)
Definition heap_eq (σa σb : state R) : Prop :=
  halos σa = halos σb ∧ subhalos σa = subhalos σb ∧ warnings σa = warnings σb ∧
  baryon_total_created σa = baryon_total_created σb.

(** A computation that neither reads nor writes the trees. *)
Definition tree_blind {A} (m : M R A) : Prop :=
  ∀ σa σb a σa', heap_eq σa σb → m σa = Ret a σa' →
    ∃ σb', m σb = Ret a σb' ∧ heap_eq σa' σb' ∧ trees σb' = trees σb.

Definition same_buckets (ts0 ts1 : list MergerTree) : Prop :=
  ∃ f, pointwise f ts0 ts1 ∧ ∀ x r s, bucket (f x r) s = bucket r s.









(** The sum [std::accumulate] computes over the ascendants, read off
    the heap [hs]. *)
Fixpoint sum_Mvir (hs : list (Halo R)) (ascendants : list hptr) (mass : R) : R :=
  match ascendants with
  | [] => mass
  | a :: l =>
      match hs !! a with
      | Some h => sum_Mvir hs l (s_add mass (h_Mvir h))
      | None => mass
      end
  end.

(** [max(0, (Mvir - sum of the ascendants' Mvir) * universal_baryon_fraction)] *)
Definition accreted_target (ubf : R) (hs : list (Halo R)) (hr : Halo R) : R :=
  s_max s_zero
    (s_mul (s_sub (h_Mvir hr) (sum_Mvir hs (elements (h_ascendants hr)) s_zero)) ubf).

(** The halos [l] are live with live ascendants and a live central
    subhalo. *)
Definition accretable (l : list hptr) (σ : state R) : Prop :=
  ∀ h, h ∈ l → ∃ hr c cr, halos σ !! h = Some hr ∧
    (∀ a, a ∈ h_ascendants hr → is_Some (halos σ !! a)) ∧
    h_central_subhalo hr = Some c ∧ subhalos σ !! c = Some cr.

(** A subhalo is the central subhalo of one halo at most. *)
Definition central_injective (σ : state R) : Prop :=
  ∀ h1 h2 hr1 hr2 c, halos σ !! h1 = Some hr1 → halos σ !! h2 = Some hr2 →
    h_central_subhalo hr1 = Some c → h_central_subhalo hr2 = Some c → h1 = h2.

(** From [σ] to [σ'] only accreted masses changed, and only those of
    the central subhalos of the halos [l]. *)
Definition accreted (l : list hptr) (σ σ' : state R) : Prop :=
  halos σ' = halos σ ∧ trees σ' = trees σ ∧ warnings σ' = warnings σ ∧
  baryon_total_created σ' = baryon_total_created σ ∧
  ∀ x, match subhalos σ !! x, subhalos σ' !! x with
       | Some r, Some r' =>
           r' = sh_with_accreted_mass (sh_accreted_mass r') r ∧
           ((∀ h hr, h ∈ l → halos σ !! h = Some hr → h_central_subhalo hr ≠ Some x) →
            r' = r)
       | None, None => True
       | _, _ => False
       end.

(** The halos of the trees [ts] at the snapshots from [min_snapshot] to
    [max_snapshot] are live, with live ascendants and a live central
    subhalo that is the central subhalo of no other halo. *)
Definition accretion_ready (ts : list tptr) (sim_params : SimulationParameters)
    (σ : state R) : Prop :=
  (∀ t, t ∈ ts → ∃ tr, trees σ !! t = Some tr ∧
     ∀ s h, min_snapshot sim_params ≤ s ≤ max_snapshot sim_params → h ∈ bucket tr s →
       ∃ hr c cr, halos σ !! h = Some hr ∧
         (∀ a, a ∈ h_ascendants hr → is_Some (halos σ !! a)) ∧
         h_central_subhalo hr = Some c ∧ subhalos σ !! c = Some cr) ∧
  central_injective σ.

End Specifications.

(** * Concrete populations

    Small populations over integer masses, named after the scenarios
    they play out. *)

Definition subhalo_at (id snapshot : Z) (type : subhalo_type_t) (host : hptr)
    (has_descendant : bool) (descendant_halo_id descendant_id : Z) : Subhalo Z :=
  mkSubhalo id snapshot 10 1 1 1 (0, 0, 0) (0, 0, 0) type (Some host) [] None false
    has_descendant descendant_halo_id descendant_id 0 0.

Definition halo_at (id snapshot Mvir : Z) (satellites : list sptr) : Halo Z :=
  mkHalo id snapshot Mvir 1 1 1 (0, 0, 0) (0, 0, 0) ∅ None None satellites None.

Definition rooted (tree : tptr) (h : Halo Z) : Halo Z := h_with_merger_tree (Some tree) h.

(** Two snapshots: halo 0 (id 100) at snapshot 0 hosts subhalo 0, halo 1
    (id 101) at the root snapshot 1 hosts subhalo 1, and subhalo 0
    names (101, 201) as its descendant. *)
Definition two_snapshots : state Z :=
  mkState [halo_at 100 0 50 [0%nat]; halo_at 101 1 40 [1%nat]]
          [subhalo_at 200 0 SATELLITE 0 true 101 201; subhalo_at 201 1 SATELLITE 1 false 0 0]
          [] [] ∅.

Definition two_snapshots_exec : ExecutionParameters := mkExec [1] false false true.
Definition two_snapshots_sim : SimulationParameters := mkSim 0 1.

(** [two_snapshots] once the root halo has its tree. *)
Definition two_snapshots_seeded : state Z :=
  mkState [halo_at 100 0 50 [0%nat]; rooted 0 (halo_at 101 1 40 [1%nat])]
          (subhalos two_snapshots) [mkMergerTree 0 {[1 := [1%nat]]}] [] ∅.

(** As [two_snapshots_seeded], but subhalo 0 names a descendant 999
    that halo 101 does not host. *)
Definition missing_descendant_population : state Z :=
  mkState (halos two_snapshots_seeded)
          [subhalo_at 200 0 SATELLITE 0 true 101 999; subhalo_at 201 1 SATELLITE 1 false 0 0]
          (trees two_snapshots_seeded) [] ∅.

Definition skip_and_warn : ExecutionParameters := mkExec [1] true true false.

(** The index [halos_by_id] of the two halos. *)
Definition two_snapshots_index : gmap Z hptr := {[100 := 0%nat; 101 := 1%nat]}.

(** A linked and resolved tree of two halos: halo 0 is the ascendant
    of halo 1, each has its central subhalo. *)
Definition resolved_chain : state Z :=
  mkState
    [mkHalo 100 0 5 1 1 1 (0, 0, 0) (0, 0, 0) ∅ (Some 1%nat) (Some 0%nat) [] (Some 0%nat);
     mkHalo 101 1 12 1 1 1 (0, 0, 0) (0, 0, 0) {[0%nat]} None (Some 1%nat) [] (Some 0%nat)]
    [subhalo_at 200 0 CENTRAL 0 true 101 201; subhalo_at 201 1 CENTRAL 1 false 0 0]
    [mkMergerTree 0 {[0 := [0%nat]; 1 := [1%nat]]}] [] ∅.

(** Three snapshots in a chain; the middle halo is heavier than its
    descendant. *)
Definition heavy_middle : state Z :=
  mkState
    [mkHalo 100 0 5 1 1 1 (0, 0, 0) (0, 0, 0) ∅ (Some 1%nat) None [] (Some 0%nat);
     mkHalo 101 1 9 1 1 1 (0, 0, 0) (0, 0, 0) {[0%nat]} (Some 2%nat) None [] (Some 0%nat);
     mkHalo 102 2 7 1 1 1 (0, 0, 0) (0, 0, 0) {[1%nat]} None None [] (Some 0%nat)]
    [] [mkMergerTree 0 {[0 := [0%nat]; 1 := [1%nat]; 2 := [2%nat]]}] [] ∅.

Definition heavy_middle_sim : SimulationParameters := mkSim 0 2.

(** A root halo at snapshot 1 whose two subhalos both carry the
    [CENTRAL] tag. *)
Definition two_centrals : state Z :=
  mkState [rooted 0 (halo_at 100 1 50 [0%nat; 1%nat])]
          [subhalo_at 200 1 CENTRAL 0 false 0 0; subhalo_at 201 1 CENTRAL 0 false 0 0]
          [mkMergerTree 0 {[1 := [0%nat]]}] [] ∅.

(** Halos at the snapshots 1 and 2, while the output snapshots start
    at 1. *)
Definition late_halo : state Z :=
  mkState [halo_at 100 1 50 [0%nat]; halo_at 101 2 40 [1%nat]]
          [subhalo_at 200 1 SATELLITE 0 false 0 0; subhalo_at 201 2 SATELLITE 1 false 0 0]
          [] [] ∅.

(** One halo, at the root snapshot 1; the simulation runs to snapshot 2. *)
Definition lone_root : state Z :=
  mkState [halo_at 100 1 50 [0%nat]] [subhalo_at 200 1 SATELLITE 0 false 0 0] [] [] ∅.

Definition lone_root_sim : SimulationParameters := mkSim 0 2.

(** [lone_root] once the root halo has its tree. *)
Definition lone_root_seeded : state Z :=
  mkState [rooted 0 (halo_at 100 1 50 [0%nat])] (subhalos lone_root)
          [mkMergerTree 0 {[1 := [0%nat]]}] [] ∅.


(** Output snapshots starting at 1, no mass growth enforced. *)
Definition root_at_1 : ExecutionParameters := mkExec [1] false false false.

(** [late_halo] once the root halo has its tree, and once the linker
    has run over it. *)
Definition late_halo_seeded : state Z :=
  mkState [rooted 0 (halo_at 100 1 50 [0%nat]); halo_at 101 2 40 [1%nat]]
          (subhalos late_halo) [mkMergerTree 0 {[1 := [0%nat]]}] [] ∅.

Definition late_halo_linked : state Z :=
  mkState [rooted 0 (halo_at 100 1 50 []); halo_at 101 2 40 [1%nat]]
          (subhalos late_halo) [mkMergerTree 0 {[1 := [0%nat]]}] [] ∅.

(** A root halo at snapshot 1 whose subhalo 0 (at snapshot 0) names
    its sibling subhalo 1 (at snapshot 1) as descendant, and a halo at
    the later snapshot 2. *)
Definition self_linked_root : state Z :=
  mkState [halo_at 100 1 50 [0%nat; 1%nat]; halo_at 101 2 40 [2%nat]]
          [subhalo_at 200 0 SATELLITE 0 true 100 201; subhalo_at 201 1 SATELLITE 0 false 0 0;
           subhalo_at 202 2 SATELLITE 1 false 0 0]
          [] [] ∅.

(** Output snapshots starting at 2, with mass growth enforced. *)
Definition root_at_2 : ExecutionParameters := mkExec [2] false false true.




(** A halo at snapshot 0 whose subhalo is at snapshot 1, and a root
    halo at snapshot 2 hosting the descendant subhalo. *)
Definition distant_halos : state Z :=
  mkState [halo_at 100 0 50 [0%nat]; halo_at 101 2 40 [1%nat]]
          [subhalo_at 200 1 SATELLITE 0 true 101 201; subhalo_at 201 2 SATELLITE 1 false 0 0]
          [] [] ∅.

(** As [two_snapshots_seeded], with the parent subhalo at the largest
    and the descendant subhalo at the smallest [int]. *)
Definition wrapped_snapshots : state Z :=
  mkState (halos two_snapshots_seeded)
          [subhalo_at 200 int_max SATELLITE 0 true 101 201;
           subhalo_at 201 int_min SATELLITE 1 false 0 0]
          (trees two_snapshots_seeded) [] ∅.
(** * Further predicates *)

Section MoreSpecifications.
Context {R : Type} {SR : Scalar R}.
Implicit Types σ : state R.

(** The subhalo is live and carries the [CENTRAL] tag. *)
Definition is_central (σ : state R) (s : sptr) : bool :=
  match subhalos σ !! s with
  | Some r => match sh_subhalo_type r with CENTRAL => true | SATELLITE => false end
  | None => false
  end.

(** How many of the subhalos [l] carry the [CENTRAL] tag. *)
Fixpoint central_count (σ : state R) (l : list sptr) : nat :=
  match l with
  | [] => 0
  | s :: l' => (if is_central σ s then 1 else 0) + central_count σ l'
  end.

(** The halo record [define_central_subhalo] leaves behind: the
    subhalo is the central one, its position, velocity, concentration
    and spin parameter are the halo's, the virial velocity is the larger
    of the two, and the satellites are [satellites]. *)
Definition centred (hr : Halo R) (subhalo : sptr) (sr : Subhalo R) (satellites : list sptr)
    : Halo R :=
  mkHalo (h_id hr) (h_snapshot hr) (h_Mvir hr) (s_max (h_Vvir hr) (sh_Vvir sr))
    (sh_concentration sr) (sh_lambda sr) (sh_position sr) (sh_velocity sr)
    (h_ascendants hr) (h_descendant hr) (Some subhalo) satellites (h_merger_tree hr).

End MoreSpecifications.

Section SeedingSpecifications.
Context {R : Type} {SR : Scalar R}.
Implicit Types σ : state R.

(** The halos of [input] at snapshot [r], in input order, read off the
    heap [hs]. *)
Fixpoint root_halos (hs : list (Halo R)) (r : Z) (input : list hptr) : list hptr :=
  match input with
  | [] => []
  | h :: l =>
      match hs !! h with
      | Some hr => if h_snapshot hr =? r then h :: root_halos hs r l else root_halos hs r l
      | None => root_halos hs r l
      end
  end.

(** The trees [build_trees] creates for the root halos [roots], the
    first of them numbered [n]: each lists its root in the bucket of
    the root snapshot [r] and nothing else. *)
Fixpoint root_trees (r : Z) (n : nat) (roots : list hptr) : list MergerTree :=
  match roots with
  | [] => []
  | h :: l => mkMergerTree (Z.of_nat n) {[r := [h]]} :: root_trees r (S n) l
  end.

End SeedingSpecifications.

Section PassSpecifications.
Context {R : Type} {SR : Scalar R}.
Implicit Types σ : state R.

(** From [σ0] to [σ] no halo changed its snapshot, its descendant or
    its tree, and every bucket lists the halos it listed. *)
Definition links_kept (σ0 σ : state R) : Prop :=
  (∀ h, h_snapshot <$> halos σ !! h = h_snapshot <$> halos σ0 !! h ∧
        h_descendant <$> halos σ !! h = h_descendant <$> halos σ0 !! h ∧
        h_merger_tree <$> halos σ !! h = h_merger_tree <$> halos σ0 !! h) ∧
  same_buckets (trees σ0) (trees σ).

(** Every halo that [ensure_halo_mass_growth] visits has a live
    descendant that is at least as massive. *)
Definition mass_grows (ts : list tptr) (sim_params : SimulationParameters) (σ : state R)
    : Prop :=
  ∀ t, t ∈ ts → ∃ tr, trees σ !! t = Some tr ∧
    ∀ s h, min_snapshot sim_params ≤ s < max_snapshot sim_params → h ∈ bucket tr s →
      ∃ hr d dr, halos σ !! h = Some hr ∧ h_descendant hr = Some d ∧
                 halos σ !! d = Some dr ∧ s_le (h_Mvir hr) (h_Mvir dr).

End PassSpecifications.

Section LinkerSpecifications.
Context {R : Type} {SR : Scalar R}.
Implicit Types σ : state R.

(** A subhalo record without its links. *)
Definition sh_unlinked (r : Subhalo R) : Subhalo R :=
  sh_with_ascendants [] (sh_with_descendant None r).

(** A halo record without its links, its tree and its subhalos. *)
Definition h_unlinked (r : Halo R) : Halo R :=
  h_with_ascendants ∅ (h_with_descendant None (h_with_merger_tree None
    (h_with_central_subhalo None (h_with_satellite_subhalos [] r)))).

(** From [σ0] to [σ] subhalos changed in their links only, halos in
    their links, tree and subhalos only; a halo lists a part of the
    subhalos it listed, in the same order, and has the ascendants it
    had; the log only grew. *)
Definition linked_and_pruned (σ0 σ : state R) : Prop :=
  (∀ s, sh_unlinked <$> subhalos σ !! s = sh_unlinked <$> subhalos σ0 !! s) ∧
  (∀ h, h_unlinked <$> halos σ !! h = h_unlinked <$> halos σ0 !! h) ∧
  (∀ h hr hr', halos σ0 !! h = Some hr → halos σ !! h = Some hr' →
     all_subhalos hr' `sublist_of` all_subhalos hr ∧ h_ascendants hr ⊆ h_ascendants hr') ∧
  warnings σ0 `prefix_of` warnings σ ∧
  baryon_total_created σ = baryon_total_created σ0.

End LinkerSpecifications.

Section CentralSpecifications.
Context {R : Type} {SR : Scalar R}.
Implicit Types σ : state R.

(** The halo is live and has a central subhalo. *)
Definition central_set (σ : state R) (h : hptr) : Prop :=
  ∃ hr, halos σ !! h = Some hr ∧ is_Some (h_central_subhalo hr).

(** An update of a halo that does not take its central subhalo away. *)
Definition keeps_central (f : Halo R → Halo R) : Prop :=
  ∀ r, is_Some (h_central_subhalo r) → is_Some (h_central_subhalo (f r)).

(** The buckets are those of [σ0] and the halos [S] have their central
    subhalo. *)
Definition centrals_set (σ0 : state R) (S : hptr → Prop) (σ : state R) : Prop :=
  same_buckets (trees σ0) (trees σ) ∧ ∀ h, S h → central_set σ h.

End CentralSpecifications.

Section DereferenceSpecifications.
Context {R : Type} {SR : Scalar R}.
Implicit Types σ : state R.

(** The buckets are those of [σ0] and the halos [S] are live and have
    a descendant. *)
Definition descendants_set (σ0 : state R) (S : hptr → Prop) (σ : state R) : Prop :=
  same_buckets (trees σ0) (trees σ) ∧
  ∀ h, S h → ∃ hr d, halos σ !! h = Some hr ∧ h_descendant hr = Some d ∧
                     is_Some (halos σ !! d).

End DereferenceSpecifications.

Section BaryonSpecifications.
Context {R : Type} {SR : Scalar R}.
Implicit Types σ : state R.

(** The accreted mass of the central subhalo of a halo. *)
Definition accreted_of (σ : state R) (h : hptr) : option R :=
  hr ← halos σ !! h; c ← h_central_subhalo hr; sh_accreted_mass <$> subhalos σ !! c.

(** [total] plus the accreted masses of the halos [l], added one by
    one in the order of [l]. *)
Fixpoint add_accreted (σ : state R) (l : list hptr) (total : R) : R :=
  match l with
  | [] => total
  | h :: l' =>
      add_accreted σ l' (match accreted_of σ h with Some m => s_add total m | None => total end)
  end.

(** The halos the trees [ts] list at snapshot [s], tree by tree. *)
Definition snapshot_halos (σ : state R) (ts : list tptr) (s : Z) : list hptr :=
  t ← ts; match trees σ !! t with Some tr => bucket tr s | None => [] end.

(** The accreted mass summed over the snapshots [snaps] in turn,
    starting from [total]. *)
Definition baryons_created (σ : state R) (ts : list tptr) (snaps : list Z) (total : R) : R :=
  foldl (λ total s, add_accreted σ (snapshot_halos σ ts s) total) total snaps.

End BaryonSpecifications.

Section AccretionSpecifications.
Context {R : Type} {SR : Scalar R}.
Implicit Types σ : state R.

(** What [define_accretion_rate_from_dm] dereferences at a halo: the
    halo, its ascendants and its central subhalo. *)
Definition accretion_safe (σ : state R) (h : hptr) : Prop :=
  ∃ hr c, halos σ !! h = Some hr ∧ h_central_subhalo hr = Some c ∧
          is_Some (subhalos σ !! c) ∧
          ∀ a, a ∈ h_ascendants hr → is_Some (halos σ !! a).

(** The buckets and the halos are those of [σ0], the same subhalos are
    live, and the pass was safe at the halos [S]. *)
Definition accretion_done (σ0 : state R) (S : hptr → Prop) (σ : state R) : Prop :=
  same_buckets (trees σ0) (trees σ) ∧ halos σ = halos σ0 ∧
  length (subhalos σ) = length (subhalos σ0) ∧
  ∀ h, S h → accretion_safe σ0 h.

End AccretionSpecifications.

Section RootSpecifications.
Context {R : Type} {SR : Scalar R}.
Implicit Types σ : state R.

(** Seeding from [σi] has reached [σ]: no halo changed its descendant
    and every tree lists an input halo at the root snapshot [r]. *)
Definition seeded (r : Z) (input : list hptr) (σi σ : state R) : Prop :=
  (∀ x, h_descendant <$> halos σ !! x = h_descendant <$> halos σi !! x) ∧
  (∀ t tr, trees σ !! t = Some tr → ∃ h, h ∈ bucket tr r ∧ h ∈ input).

(** From [σ0] to [σ] ids and snapshots are kept, a bucket lists the
    halos it listed, and the halos at the root snapshot [r] kept their
    descendant. *)
Definition roots_kept (r : Z) (σ0 σ : state R) : Prop :=
  static_keys σ0 σ ∧
  (∀ t tr s h, trees σ0 !! t = Some tr → h ∈ bucket tr s →
     ∃ tr', trees σ !! t = Some tr' ∧ h ∈ bucket tr' s) ∧
  (∀ x xr0 xr, halos σ0 !! x = Some xr0 → h_snapshot xr0 = r → halos σ !! x = Some xr →
     h_descendant xr = h_descendant xr0).

End RootSpecifications.


Section AdjacencySpecifications.
Context {R : Type} {SR : Scalar R}.
Implicit Types σ : state R.

(** Every halo with a descendant is one snapshot before it. *)
Definition adjacent_halo_links (σ : state R) : Prop :=
  ∀ h hr d dr, halos σ !! h = Some hr → h_descendant hr = Some d →
    halos σ !! d = Some dr → h_snapshot dr = h_snapshot hr + 1.

(** Every subhalo that a halo lists carries the halo's snapshot. *)
Definition subhalos_at_host_snapshot (σ : state R) : Prop :=
  ∀ h hr s sr, halos σ !! h = Some hr → s ∈ all_subhalos hr →
    subhalos σ !! s = Some sr → sh_snapshot sr = h_snapshot hr.

(** The halo [h] listed the subhalo [s] in [σ0]. *)
Definition hosted_in (σ0 : state R) (h : hptr) (s : sptr) : Prop :=
  ∃ hr0, halos σ0 !! h = Some hr0 ∧ s ∈ all_subhalos hr0.

End AdjacencySpecifications.

Section LayoutSpecifications.
Context {R : Type} {SR : Scalar R}.
Implicit Types σ : state R.





End LayoutSpecifications.
Section Basics.
Context {R : Type} {SR : Scalar R}.
Implicit Types σ : state R.

(** ** Running computations *)

Lemma bind_Ret_inv {A B} (m : M R A) (k : A → M R B) σ b σ'' :
  bind m k σ = Ret b σ'' → ∃ a σ', m σ = Ret a σ' ∧ k a σ' = Ret b σ''.
Proof. unfold bind. destruct (m σ); naive_solver. Qed.

Lemma run_bind {A B} (m : M R A) (k : A → M R B) σ a σ' :
  m σ = Ret a σ' → bind m k σ = k a σ'.
Proof. unfold bind. by intros ->. Qed.

Lemma run_bind_Throw {A B} (m : M R A) (k : A → M R B) σ e :
  m σ = Throw e → bind m k σ = Throw e.
Proof. unfold bind. by intros ->. Qed.

Lemma run_get_halo σ h x : halos σ !! h = Some x → get_halo h σ = Ret x σ.
Proof. unfold get_halo. by intros ->. Qed.

Lemma run_get_subhalo σ s x : subhalos σ !! s = Some x → get_subhalo s σ = Ret x σ.
Proof. unfold get_subhalo. by intros ->. Qed.

Lemma run_get_tree σ t x : trees σ !! t = Some x → get_tree t σ = Ret x σ.
Proof. unfold get_tree. by intros ->. Qed.

Lemma run_modify_halo σ h f x :
  halos σ !! h = Some x →
  modify_halo h f σ = Ret tt (st_with_halos (<[h := f x]> (halos σ)) σ).
Proof. unfold modify_halo. by intros ->. Qed.

Lemma run_modify_subhalo σ s f x :
  subhalos σ !! s = Some x →
  modify_subhalo s f σ = Ret tt (st_with_subhalos (<[s := f x]> (subhalos σ)) σ).
Proof. unfold modify_subhalo. by intros ->. Qed.

Lemma run_modify_tree σ t f x :
  trees σ !! t = Some x →
  modify_tree t f σ = Ret tt (st_with_trees (<[t := f x]> (trees σ)) σ).
Proof. unfold modify_tree. by intros ->. Qed.

Lemma get_halo_Ret_inv σ h x σ' :
  get_halo h σ = Ret x σ' → σ' = σ ∧ halos σ !! h = Some x.
Proof. unfold get_halo. destruct (halos σ !! h); naive_solver. Qed.

Lemma get_subhalo_Ret_inv σ s x σ' :
  get_subhalo s σ = Ret x σ' → σ' = σ ∧ subhalos σ !! s = Some x.
Proof. unfold get_subhalo. destruct (subhalos σ !! s); naive_solver. Qed.

Lemma get_tree_Ret_inv σ t x σ' :
  get_tree t σ = Ret x σ' → σ' = σ ∧ trees σ !! t = Some x.
Proof. unfold get_tree. destruct (trees σ !! t); naive_solver. Qed.

Lemma modify_halo_Ret_inv σ h f u σ' :
  modify_halo h f σ = Ret u σ' →
  ∃ x, halos σ !! h = Some x ∧ σ' = st_with_halos (<[h := f x]> (halos σ)) σ.
Proof. unfold modify_halo. destruct (halos σ !! h); naive_solver. Qed.

Lemma modify_subhalo_Ret_inv σ s f u σ' :
  modify_subhalo s f σ = Ret u σ' →
  ∃ x, subhalos σ !! s = Some x ∧ σ' = st_with_subhalos (<[s := f x]> (subhalos σ)) σ.
Proof. unfold modify_subhalo. destruct (subhalos σ !! s); naive_solver. Qed.

Lemma modify_tree_Ret_inv σ t f u σ' :
  modify_tree t f σ = Ret u σ' →
  ∃ x, trees σ !! t = Some x ∧ σ' = st_with_trees (<[t := f x]> (trees σ)) σ.
Proof. unfold modify_tree. destruct (trees σ !! t); naive_solver. Qed.

Lemma ret_Ret_inv {A} (a b : A) σ σ' : ret a σ = Ret b σ' → b = a ∧ σ' = σ.
Proof. unfold ret. naive_solver. Qed.

Lemma run_increment σ snapshot : snapshot ≠ int_max → increment snapshot σ = Ret tt σ.
Proof. unfold increment. by intros ->%Z.eqb_neq. Qed.

Lemma run_decrement σ snapshot : snapshot ≠ int_min → decrement snapshot σ = Ret tt σ.
Proof. unfold decrement. by intros ->%Z.eqb_neq. Qed.

Lemma increment_Ret_inv snapshot σ u σ' :
  increment snapshot σ = Ret u σ' → σ' = σ ∧ snapshot ≠ int_max.
Proof.
  unfold increment. destruct (Z.eqb_spec snapshot int_max); [done|].
  by intros [_ ->]%ret_Ret_inv.
Qed.

Lemma decrement_Ret_inv snapshot σ u σ' :
  decrement snapshot σ = Ret u σ' → σ' = σ ∧ snapshot ≠ int_min.
Proof.
  unfold decrement. destruct (Z.eqb_spec snapshot int_min); [done|].
  by intros [_ ->]%ret_Ret_inv.
Qed.

Lemma log_warning_Ret_inv m σ u σ' :
  log_warning m σ = Ret u σ' → σ' = st_with_warnings (warnings σ ++ [m]) σ.
Proof. unfold log_warning. naive_solver. Qed.

Lemma lookup_modify {A} (l : list A) i j (v : A) x :
  l !! j = Some x → <[i := v]> l !! j = Some (if decide (i = j) then v else x).
Proof.
  intros Hj. rewrite list_lookup_insert. case_decide as Hd.
  - destruct Hd as [-> _]. by rewrite decide_True.
  - rewrite Hj. case_decide; [|done]. subst. exfalso. apply Hd. split; [done|].
    by apply lookup_lt_Some in Hj.
Qed.

(** A field that the update leaves alone reads the same afterwards. *)
Lemma lookup_modify_field {A B} (g : A → B) (l : list A) i (f : A → A) x j :
  l !! i = Some x → g (f x) = g x → g <$> (<[i := f x]> l !! j) = g <$> (l !! j).
Proof.
  intros Hi Hg. destruct (decide (i = j)) as [->|].
  - rewrite list_lookup_insert_eq by (by eapply lookup_lt_Some). rewrite Hi. cbn. by rewrite Hg.
  - by rewrite list_lookup_insert_ne.
Qed.

(** ** Rules of the logic *)

Lemma hoare_ret {A} (P : state R → Prop) (a : A) (Q : A → state R → Prop) :
  (∀ σ, P σ → Q a σ) → hoare P (ret a) Q.
Proof. intros H σ Hσ. cbn. auto. Qed.

Lemma hoare_bind {A B} (P : state R → Prop) (m : M R A) (k : A → M R B)
    (Q' : A → state R → Prop) (Q : B → state R → Prop) :
  hoare P m Q' → (∀ a, hoare (Q' a) (k a) Q) → hoare P (bind m k) Q.
Proof.
  intros Hm Hk σ Hσ. unfold bind. specialize (Hm σ Hσ).
  destruct (m σ) as [a σ'| | |]; [|done..]. by apply Hk.
Qed.

Lemma hoare_conseq {A} (P P' : state R → Prop) (m : M R A) (Q Q' : A → state R → Prop) :
  hoare P' m Q' → (∀ σ, P σ → P' σ) → (∀ a σ, Q' a σ → Q a σ) → hoare P m Q.
Proof.
  intros Hm HP HQ σ Hσ. specialize (Hm σ (HP σ Hσ)). destruct (m σ); auto.
Qed.

Lemma hoare_throw {A} (P : state R → Prop) e (Q : A → state R → Prop) : hoare P (throw e) Q.
Proof. by intros σ _. Qed.

Lemma hoare_undefined {A} (P : state R → Prop) (Q : A → state R → Prop) : hoare P undefined Q.
Proof. by intros σ _. Qed.

Lemma hoare_out_of_fuel {A} (P : state R → Prop) (Q : A → state R → Prop) :
  hoare P out_of_fuel Q.
Proof. by intros σ _. Qed.

Lemma hoare_Ret {A} (P : state R → Prop) (m : M R A) (Q : A → state R → Prop) :
  (∀ σ a σ', P σ → m σ = Ret a σ' → Q a σ') → hoare P m Q.
Proof. intros H σ Hσ. destruct (m σ) eqn:E; eauto. Qed.

Lemma hoare_elim {A} (P : state R → Prop) (m : M R A) (Q : A → state R → Prop) σ a σ' :
  hoare P m Q → P σ → m σ = Ret a σ' → Q a σ'.
Proof. intros H Hσ E. specialize (H σ Hσ). by rewrite E in H. Qed.

Lemma hoare_for_each {A S} (I : S → state R → Prop) (l : list A)
    (body : A → S → M R (ctl * S)) (acc : S) :
  (∀ x acc, x ∈ l → hoare (I acc) (body x acc) (λ r σ, I r.2 σ)) →
  hoare (I acc) (for_each l body acc) I.
Proof.
  revert acc. induction l as [|x l IH]; intros acc Hbody; cbn.
  - by apply hoare_ret.
  - eapply hoare_bind; [apply Hbody; left|].
    intros [[] acc']; cbn.
    + apply IH. intros. apply Hbody. by right.
    + by apply hoare_ret.
Qed.

Lemma hoare_for_all {A} (I : state R → Prop) (l : list A) (body : A → M R unit) :
  (∀ x, x ∈ l → preserves I (body x)) → preserves I (for_all l body).
Proof.
  induction l as [|x l IH]; intros Hbody; cbn.
  - by apply hoare_ret.
  - eapply hoare_bind; [apply Hbody; left|]. intros ?. apply IH. intros. apply Hbody. by right.
Qed.

End Basics.

(** Decomposes a hypothesis stating that a computation returned. *)
Ltac inv_run :=
  repeat match goal with
  | H : bind _ _ _ = Ret _ _ |- _ =>
      let a := fresh "a" in let σ := fresh "σ" in let H1 := fresh "Hrun" in
      apply bind_Ret_inv in H as (a & σ & H1 & H)
  | H : ret _ _ = Ret _ _ |- _ => apply ret_Ret_inv in H as [? ?]; simplify_eq
  | H : get_halo _ _ = Ret _ _ |- _ =>
      let E := fresh "Hget" in apply get_halo_Ret_inv in H as [? E]; subst
  | H : get_subhalo _ _ = Ret _ _ |- _ =>
      let E := fresh "Hget" in apply get_subhalo_Ret_inv in H as [? E]; subst
  | H : get_tree _ _ = Ret _ _ |- _ =>
      let E := fresh "Hget" in apply get_tree_Ret_inv in H as [? E]; subst
  | H : throw _ _ = Ret _ _ |- _ => discriminate H
  | H : undefined _ = Ret _ _ |- _ => discriminate H
  | H : out_of_fuel _ = Ret _ _ |- _ => discriminate H
  end.

Section Effects.
Context {R : Type} {SR : Scalar R}.
Implicit Types σ : state R.

Lemma pointwise_id {A} (l : list A) : pointwise (λ _ r, r) l l.
Proof. intros x. by destruct (l !! x). Qed.

Lemma pointwise_insert {A} (l : list A) i (f : A → A) r :
  l !! i = Some r →
  pointwise (λ x r, if decide (x = i) then f r else r) l (<[i := f r]> l).
Proof.
  intros Hi x. destruct (decide (x = i)) as [->|].
  - rewrite list_lookup_insert_eq by (by eapply lookup_lt_Some). by rewrite Hi.
  - rewrite list_lookup_insert_ne by done. by destruct (l !! x).
Qed.

Lemma pointwise_trans {A} (f g : nat → A → A) (l l' l'' : list A) :
  pointwise f l l' → pointwise g l' l'' → pointwise (λ x r, g x (f x r)) l l''.
Proof. intros H1 H2 x. rewrite H2, H1. by destruct (l !! x). Qed.

Lemma pointwise_ext {A} (f g : nat → A → A) (l l' : list A) :
  pointwise f l l' → (∀ x r, l !! x = Some r → f x r = g x r) → pointwise g l l'.
Proof. intros H Hfg x. rewrite H. destruct (l !! x) eqn:E; cbn; [|done]. by rewrite Hfg. Qed.

Lemma modify_halo_Ret_inv' σ h f u σ' :
  modify_halo h f σ = Ret u σ' →
  ∃ hs, σ' = st_with_halos hs σ ∧ is_Some (halos σ !! h) ∧
        pointwise (λ x r, if decide (x = h) then f r else r) (halos σ) hs.
Proof.
  intros (x & Hx & ->)%modify_halo_Ret_inv. eexists. split; [done|]. split; [done|].
  by apply pointwise_insert.
Qed.

Lemma modify_subhalo_Ret_inv' σ s f u σ' :
  modify_subhalo s f σ = Ret u σ' →
  ∃ ss, σ' = st_with_subhalos ss σ ∧ is_Some (subhalos σ !! s) ∧
        pointwise (λ x r, if decide (x = s) then f r else r) (subhalos σ) ss.
Proof.
  intros (x & Hx & ->)%modify_subhalo_Ret_inv. eexists. split; [done|]. split; [done|].
  by apply pointwise_insert.
Qed.

Lemma modify_tree_Ret_inv' σ t f u σ' :
  modify_tree t f σ = Ret u σ' →
  ∃ ts, σ' = st_with_trees ts σ ∧ is_Some (trees σ !! t) ∧
        pointwise (λ x r, if decide (x = t) then f r else r) (trees σ) ts.
Proof.
  intros (x & Hx & ->)%modify_tree_Ret_inv. eexists. split; [done|]. split; [done|].
  by apply pointwise_insert.
Qed.

Lemma link_Ret_inv σ σ' ps ds ph dh u :
  link ps ds ph dh σ = Ret u σ' →
  ∃ psr phr dhr t,
    subhalos σ !! ps = Some psr ∧ halos σ !! ph = Some phr ∧ halos σ !! dh = Some dhr ∧
    is_Some (subhalos σ !! ds) ∧
    sh_descendant psr = None ∧
    (∀ d, h_descendant phr = Some d → ∃ dr, halos σ !! d = Some dr ∧ h_id dr = h_id dhr) ∧
    h_merger_tree dhr = Some t ∧
    pointwise (link_subhalo_update ps ds) (subhalos σ) (subhalos σ') ∧
    pointwise (link_halo_update ph dh t) (halos σ) (halos σ') ∧
    pointwise (link_tree_update ph (h_snapshot phr) (bool_decide (ph ∉ h_ascendants dhr)) t)
      (trees σ) (trees σ') ∧
    warnings σ' = warnings σ ∧ baryon_total_created σ' = baryon_total_created σ.
Proof.
  unfold link. intros Hrun.
  apply bind_Ret_inv in Hrun as (? & σ1 & (ss1 & -> & [dsr Hds] & Hss1)%modify_subhalo_Ret_inv' & Hrun).
  apply bind_Ret_inv in Hrun as (psr1 & ? & [-> Hps1]%get_subhalo_Ret_inv & Hrun).
  destruct (sh_descendant psr1) eqn:Hdesc1; [done|].
  apply bind_Ret_inv in Hrun as (? & σ2 & (ss2 & -> & _ & Hss2)%modify_subhalo_Ret_inv' & Hrun).
  apply bind_Ret_inv in Hrun as (dhr & ? & [-> Hdh]%get_halo_Ret_inv & Hrun).
  apply bind_Ret_inv in Hrun as (? & σ3 & (hs3 & -> & _ & Hhs3)%modify_halo_Ret_inv' & Hrun).
  apply bind_Ret_inv in Hrun as (phr3 & ? & [-> Hph3]%get_halo_Ret_inv & Hrun).
  apply bind_Ret_inv in Hrun as (? & σ4 & Hcheck & Hrun).
  apply bind_Ret_inv in Hrun as (? & σ5 & (hs5 & -> & _ & Hhs5)%modify_halo_Ret_inv' & Hrun).
  apply bind_Ret_inv in Hrun as (dhr5 & ? & [-> Hdh5]%get_halo_Ret_inv & Hrun).
  destruct (h_merger_tree dhr5) as [t|] eqn:Htree5; [|done].
  apply bind_Ret_inv in Hrun as (? & σ6 & (hs6 & -> & _ & Hhs6)%modify_halo_Ret_inv' & Hrun).
  cbn in *.
  (* reading back through the updates *)
  rewrite Hss1 in Hps1. destruct (subhalos σ !! ps) as [psr|] eqn:Hps; [|done].
  cbn in Hps1. injection Hps1 as <-.
  rewrite Hhs3 in Hph3. destruct (halos σ !! ph) as [phr|] eqn:Hph; [|done].
  cbn in Hph3. injection Hph3 as <-.
  assert (σ4 = st_with_halos hs3 (st_with_subhalos ss2 (st_with_subhalos ss1 σ)) ∧
          ∀ d, h_descendant phr = Some d → ∃ dr, halos σ !! d = Some dr ∧ h_id dr = h_id dhr)
    as [-> Hsame].
  { destruct (h_descendant (if decide (ph = dh) then _ else phr)) as [d|] eqn:Hd.
    - apply bind_Ret_inv in Hcheck as (dd & ? & [-> Hdd]%get_halo_Ret_inv & Hcheck).
      apply bind_Ret_inv in Hcheck as (dh' & ? & [-> Hdh']%get_halo_Ret_inv & Hcheck).
      case_decide as Hid; [|done]. apply ret_Ret_inv in Hcheck as [_ ->].
      split; [done|]. intros d' Hd'.
      assert (d' = d) as ->. { case_decide; simplify_eq; cbn in *; congruence. }
      cbn in Hdd, Hdh'. rewrite Hhs3 in Hdd, Hdh'. rewrite Hdh in Hdh'. cbn in Hdh'.
      rewrite decide_True in Hdh' by done. injection Hdh' as <-.
      destruct (halos σ !! d) as [dr|] eqn:Hdr; [|done]. cbn in Hdd. injection Hdd as <-.
      eexists. split; [done|]. cbn in Hid. rewrite <- Hid. by case_decide.
    - apply ret_Ret_inv in Hcheck as [_ ->]. split; [done|]. intros d' Hd'.
      case_decide; simplify_eq; cbn in *; congruence. }
  cbn in *.
  rewrite Hhs5, Hhs3, Hdh in Hdh5. cbn in Hdh5. injection Hdh5 as <-.
  assert (Htree : h_merger_tree dhr = Some t).
  { rewrite (decide_True (P := dh = dh)) in Htree5 by done. by case_decide. }
  exists psr, phr, dhr, t. split; [done|]. split; [done|]. split; [done|]. split; [done|].
  split; [by destruct (decide (ps = ds))|]. split; [done|]. split; [done|].
  assert (Hsub : pointwise (link_subhalo_update ps ds) (subhalos σ) ss2).
  { eapply pointwise_ext; [eapply pointwise_trans; [exact Hss1|exact Hss2]|].
    intros y r Hy. unfold link_subhalo_update. cbn.
    destruct (decide (y = ps)) as [->|]; [|done]. rewrite Hps in Hy. injection Hy as ->.
    done. }
  assert (Hhal : pointwise (link_halo_update ph dh t) (halos σ) hs6).
  { eapply pointwise_ext;
      [eapply pointwise_trans; [eapply pointwise_trans; [exact Hhs3|exact Hhs5]|exact Hhs6]|].
    intros y r Hy. unfold link_halo_update, hset_insert. cbn.
    destruct (decide (y = dh)) as [Hd|]; destruct (decide (y = ph)) as [Hp|];
      simplify_eq; try done. }
  destruct (bool_decide (ph ∉ h_ascendants dhr)) eqn:Hnew.
  - unfold add_halo in Hrun.
    apply bind_Ret_inv in Hrun as (phr6 & ? & [-> Hph6]%get_halo_Ret_inv & Hrun).
    apply modify_tree_Ret_inv' in Hrun as (ts & -> & _ & Hts). cbn in *.
    rewrite Hhal, Hph in Hph6. cbn in Hph6. injection Hph6 as <-.
    split; [done|]. split; [done|]. split; [|done].
    eapply pointwise_ext; [exact Hts|]. intros y r Hy. unfold link_tree_update.
    unfold link_halo_update. cbn. rewrite (decide_True (P := ph = ph)) by done.
    cbn. assert (Hsn : h_snapshot (if decide (ph = dh)
        then h_with_ascendants ({[ph]} ∪ h_ascendants phr) phr else phr) = h_snapshot phr)
      by (by destruct (decide (ph = dh))).
    rewrite Hsn. destruct (decide (y = t)) as [->|Hne].
    + rewrite decide_True by done. done.
    + rewrite decide_False by naive_solver. done.
  - apply ret_Ret_inv in Hrun as [_ ->]. cbn.
    split; [done|]. split; [done|]. split; [|done].
    eapply pointwise_ext; [apply pointwise_id|]. intros y r Hy. unfold link_tree_update.
    rewrite decide_False by naive_solver. done.
Qed.

End Effects.
Section Effects2.
Context {R : Type} {SR : Scalar R}.
Implicit Types σ : state R.

Lemma remove_subhalo_Ret_inv σ σ' halo subhalo u :
  remove_subhalo halo subhalo σ = Ret u σ' →
  ∃ hs, σ' = st_with_halos hs σ ∧
        pointwise (remove_subhalo_update halo subhalo) (halos σ) hs.
Proof.
  unfold remove_subhalo. intros Hrun.
  apply bind_Ret_inv in Hrun as (hr & ? & [-> Hh]%get_halo_Ret_inv & Hrun).
  destruct (decide (h_central_subhalo hr = Some subhalo)) as [Hc|Hc].
  - apply modify_halo_Ret_inv' in Hrun as (hs & -> & _ & Hhs). exists hs. split; [done|].
    eapply pointwise_ext; [exact Hhs|]. intros y r Hy. unfold remove_subhalo_update.
    destruct (decide (y = halo)) as [->|]; [|done]. simplify_eq. by rewrite decide_True.
  - destruct (erase_first subhalo (h_satellite_subhalos hr)) as [l|] eqn:El; [|done].
    apply modify_halo_Ret_inv' in Hrun as (hs & -> & _ & Hhs). exists hs. split; [done|].
    eapply pointwise_ext; [exact Hhs|]. intros y r Hy. unfold remove_subhalo_update.
    destruct (decide (y = halo)) as [->|]; [|done]. simplify_eq.
    rewrite decide_False by done. by rewrite El.
Qed.

Lemma add_halo_Ret_inv σ σ' t h u :
  add_halo t h σ = Ret u σ' →
  ∃ hr ts, halos σ !! h = Some hr ∧ is_Some (trees σ !! t) ∧ σ' = st_with_trees ts σ ∧
    pointwise (link_tree_update h (h_snapshot hr) true t) (trees σ) ts.
Proof.
  unfold add_halo. intros Hrun.
  apply bind_Ret_inv in Hrun as (hr & ? & [-> Hh]%get_halo_Ret_inv & Hrun).
  apply modify_tree_Ret_inv' in Hrun as (ts & -> & Ht & Hts).
  exists hr, ts. split; [done|]. split; [done|]. split; [done|].
  eapply pointwise_ext; [exact Hts|]. intros y r Hy. unfold link_tree_update.
  destruct (decide (y = t)) as [->|].
  - by rewrite decide_True.
  - rewrite decide_False by naive_solver. done.
Qed.

Lemma pointwise_length {A} (f : nat → A → A) (l l' : list A) :
  pointwise f l l' → length l' = length l.
Proof.
  intros H. apply Nat.le_antisymm.
  - destruct (decide (length l' ≤ length l)%nat) as [|Hn]; [done|].
    assert (is_Some (l' !! length l)) as [x Hx] by (apply lookup_lt_is_Some; lia).
    rewrite H, lookup_ge_None_2 in Hx by lia. done.
  - destruct (decide (length l ≤ length l')%nat) as [|Hn]; [done|].
    assert (is_Some (l !! length l')) as [x Hx] by (apply lookup_lt_is_Some; lia).
    specialize (H (length l')). rewrite Hx, lookup_ge_None_2 in H by lia. done.
Qed.

Lemma halos_at_Ret_inv σ σ' t s l :
  halos_at t s σ = Ret l σ' →
  ∃ tr ts f, trees σ !! t = Some tr ∧ l = bucket tr s ∧ σ' = st_with_trees ts σ ∧
    pointwise f (trees σ) ts ∧ ∀ x r s', bucket (f x r) s' = bucket r s'.
Proof.
  unfold halos_at. intros Hrun.
  apply bind_Ret_inv in Hrun as (tr & ? & [-> Ht]%get_tree_Ret_inv & Hrun).
  destruct (t_halos tr !! s) as [l'|] eqn:El.
  - apply ret_Ret_inv in Hrun as [-> ->]. exists tr, (trees σ), (λ _ r, r).
    split; [done|]. split; [by unfold bucket; rewrite El|]. split; [by destruct σ|].
    split; [apply pointwise_id|done].
  - apply bind_Ret_inv in Hrun as (? & ? & (ts & -> & _ & Hts)%modify_tree_Ret_inv' & Hrun).
    apply ret_Ret_inv in Hrun as [-> ->].
    exists tr, ts, (λ x r, if decide (x = t ∧ t_halos r !! s = None)
                           then t_with_halos (<[s := []]> (t_halos r)) r else r).
    split; [done|]. split; [by unfold bucket; rewrite El|]. split; [done|]. split.
    + eapply pointwise_ext; [exact Hts|]. intros y r Hy. cbn.
      destruct (decide (y = t)) as [->|].
      * simplify_eq. by rewrite decide_True.
      * rewrite decide_False by naive_solver. done.
    + intros y r s'. destruct (decide _) as [[_ Hn]|]; [|done]. unfold bucket. cbn.
      destruct (decide (s = s')) as [<-|].
      * by rewrite lookup_insert_eq, Hn.
      * by rewrite lookup_insert_ne.
Qed.

Lemma make_tree_Ret_inv σ σ' id t :
  make_tree id σ = Ret t σ' →
  t = length (trees σ) ∧ σ' = st_with_trees (trees σ ++ [mkMergerTree id ∅]) σ.
Proof. unfold make_tree. naive_solver. Qed.

End Effects2.
Section LinkerGeneric.
Context {R : Type} {SR : Scalar R}.
Implicit Types σ : state R.

Lemma hoare_pure {A} (φ : Prop) (P : state R → Prop) (m : M R A) (Q : A → state R → Prop) :
  (φ → hoare P m Q) → hoare (λ σ, P σ ∧ φ) m Q.
Proof. intros H σ [HP Hφ]. by apply H. Qed.

(** An invariant [I] of the loops, together with a fact [K] about a
    halo and a subhalo it lists that [I] provides; [K] is known of
    both pairs at every call of [link]. *)
Section Loops.
Variables (exec_params : ExecutionParameters) (σ0 : state R) (processed : list Z)
  (by_snapshot : gmap Z (list hptr)) (index : gmap Z hptr) (I : state R → Prop)
  (K : hptr → sptr → Prop).
Hypothesis Hby_snapshot : ∀ s h, h ∈ default [] (by_snapshot !! s) →
  ∃ hr, halos σ0 !! h = Some hr ∧ h_snapshot hr = s.
Hypothesis Hindex : ∀ k h, index !! k = Some h → ∃ hr, halos σ0 !! h = Some hr ∧ h_id hr = k.
Hypothesis Hremove : ∀ halo sub, preserves I (remove_subhalo halo sub).
Hypothesis Hwarn : ∀ m, preserves I (log_warning m).
Hypothesis Hhosted : ∀ σ h hr s,
  I σ → halos σ !! h = Some hr → s ∈ all_subhalos hr → K h s.
Hypothesis Hlink : ∀ ps ds ph dh,
  hoare (λ σ, I σ ∧ link_site σ0 processed index σ ps ds ph dh ∧ K ph ps ∧ K dh ds)
    (link ps ds ph dh) (λ _, I).

Lemma find_descendant_preserves subhalo halo d_halo d_subhalos :
  (∃ phr0, halos σ0 !! halo = Some phr0 ∧ h_snapshot phr0 ∈ processed) →
  (∃ dhr0, halos σ0 !! d_halo = Some dhr0 ∧ index !! h_id dhr0 = Some d_halo) →
  K halo subhalo → (∀ x, x ∈ d_subhalos → K d_halo x) →
  preserves I (find_descendant subhalo halo d_halo d_subhalos).
Proof using Hlink.
  intros Hh Hd HK HKd. unfold find_descendant.
  apply (hoare_for_each (λ _, I)). intros d_subhalo found Hin.
  apply hoare_Ret. intros σ [c found'] σ' HI Hrun.
  apply bind_Ret_inv in Hrun as (dsr & ? & [-> Hds]%get_subhalo_Ret_inv & Hrun).
  apply bind_Ret_inv in Hrun as (sr & ? & [-> Hs]%get_subhalo_Ret_inv & Hrun).
  destruct (sh_id dsr =? sh_descendant_id sr).
  - destruct (sh_snapshot dsr =? int_min); [done|].
    destruct (sh_snapshot sr =? sh_snapshot dsr - 1) eqn:Hsnap; [|done]. cbn in Hrun.
    apply bind_Ret_inv in Hrun as (? & σ1 & Hrun1 & Hrun).
    apply ret_Ret_inv in Hrun as [_ ->]. cbn.
    refine (hoare_elim _ _ _ _ _ _ (Hlink _ _ _ _) _ Hrun1).
    split; [done|]. split; [|split; [done|by apply HKd]].
    split; [|done]. exists sr, dsr. split; [done|]. split; [done|]. lia.
  - by apply ret_Ret_inv in Hrun as [_ ->].
Qed.

Lemma missing_descendant_preserves halo subhalo d_halo :
  preserves I (missing_descendant exec_params halo subhalo d_halo).
Proof using Hremove Hwarn.
  unfold missing_descendant. eapply hoare_bind with (Q' := λ _, I).
  { destruct (_ || _); [|by apply hoare_ret].
    eapply hoare_bind with (Q' := λ _, I).
    - apply hoare_Ret. by intros σ a σ' HI [-> _]%get_subhalo_Ret_inv.
    - intros s. eapply hoare_bind with (Q' := λ _, I); [|intros; by apply hoare_ret].
      apply hoare_Ret. by intros σ a σ' HI [-> _]%get_halo_Ret_inv. }
  intros os. destruct (skip_missing_descendants exec_params); cbn.
  - eapply hoare_bind with (Q' := λ _, I); [|intros; apply Hremove].
    destruct (warn_on_missing_descendants exec_params); [apply Hwarn|by apply hoare_ret].
  - eapply hoare_bind with (Q' := λ _, I); [|intros; apply hoare_throw].
    apply hoare_Ret. by intros σ a σ' HI [-> _]%get_subhalo_Ret_inv.
Qed.

Lemma link_subhalo_preserves halo subhalo locals :
  (∃ phr0, halos σ0 !! halo = Some phr0 ∧ h_snapshot phr0 ∈ processed) →
  K halo subhalo →
  locals.1.1 ⊆ index →
  hoare I (link_subhalo exec_params halo subhalo locals) (λ r σ, I σ ∧ r.2.1.1 ⊆ index).
Proof using Hremove Hwarn Hlink Hindex Hhosted.
  intros Hh HK Hsub. destruct locals as [[by_id ignored] halo_linked]. cbn in Hsub.
  unfold link_subhalo.
  apply hoare_Ret. intros σ [c [[by_id' ignored'] linked']] σ' HI Hrun. cbn.
  apply bind_Ret_inv in Hrun as (sr & ? & [-> Hs]%get_subhalo_Ret_inv & Hrun).
  destruct (sh_has_descendant sr); cbn in Hrun.
  - destruct (by_id !! sh_descendant_halo_id sr) as [d_halo|] eqn:Hd.
    + apply bind_Ret_inv in Hrun as (dhr & ? & [-> Hdh]%get_halo_Ret_inv & Hrun).
      apply bind_Ret_inv in Hrun as (found & σ1 & Hfind & Hrun).
      assert (I σ1) as HI1.
      { refine (hoare_elim _ _ _ _ _ _ (find_descendant_preserves _ _ _ _ Hh _ HK _) HI Hfind).
        - pose proof (lookup_weaken _ _ _ _ Hd Hsub) as Hd'.
          destruct (Hindex _ _ Hd') as (hr & Hhr & Hid). exists hr. by rewrite Hid.
        - intros x Hx. by eapply Hhosted. }
      destruct found.
      * apply ret_Ret_inv in Hrun as [? ->]. by simplify_eq.
      * apply bind_Ret_inv in Hrun as (? & σ2 & Hmiss & Hrun).
        apply ret_Ret_inv in Hrun as [? ->]. simplify_eq. split; [|done].
        exact (hoare_elim _ _ _ _ _ _ (missing_descendant_preserves _ _ _) HI1 Hmiss).
    + apply bind_Ret_inv in Hrun as (hr & ? & [-> Hh']%get_halo_Ret_inv & Hrun).
      apply ret_Ret_inv in Hrun as [? ->]. simplify_eq. split; [done|].
      etrans; [apply delete_subseteq|done].
  - apply bind_Ret_inv in Hrun as (? & σ1 & Hrem & Hrun).
    apply ret_Ret_inv in Hrun as [? ->]. simplify_eq. split; [|done].
    exact (hoare_elim _ _ _ _ _ _ (Hremove _ _) HI Hrem).
Qed.

Lemma link_halo_preserves halo locals :
  (∃ phr0, halos σ0 !! halo = Some phr0 ∧ h_snapshot phr0 ∈ processed) →
  locals.1 ⊆ index →
  hoare I (link_halo exec_params halo locals) (λ r σ, I σ ∧ r.2.1 ⊆ index).
Proof using Hremove Hwarn Hlink Hindex Hhosted.
  intros Hh Hsub. destruct locals as [by_id ignored]. cbn in Hsub. unfold link_halo.
  eapply hoare_bind with (Q' := λ hr σ, I σ ∧ ∀ s, s ∈ all_subhalos hr → K halo s).
  { apply hoare_Ret. intros σ a σ' HI [-> Ha]%get_halo_Ret_inv. split; [done|].
    intros s Hs. by eapply Hhosted. }
  intros hr. apply hoare_pure. intros HK. eapply hoare_bind.
  { eapply hoare_conseq;
      [apply (hoare_for_each (λ acc σ, I σ ∧ acc.1.1 ⊆ index))| |intros a σ H; exact H].
    - intros subhalo acc Hin. apply hoare_pure. intros Hacc.
      apply link_subhalo_preserves; [done|by apply HK|done].
    - done. }
  intros [[by_id' ignored'] halo_linked]. cbn. apply hoare_pure. intros Hsub'.
  destruct halo_linked; cbn.
  - by apply hoare_ret.
  - eapply hoare_bind with (Q' := λ _, I).
    { apply hoare_Ret. by intros σ a σ' HI [-> _]%get_halo_Ret_inv. }
    intros hr'. apply hoare_ret. intros σ HI. split; [done|]. cbn.
    etrans; [apply delete_subseteq|done].
Qed.

Lemma link_snapshot_preserves snapshot by_id :
  snapshot ∈ processed → by_id ⊆ index →
  hoare I (link_snapshot exec_params by_snapshot snapshot by_id) (λ r σ, I σ ∧ r.2 ⊆ index).
Proof using Hremove Hwarn Hlink Hindex Hby_snapshot Hhosted.
  intros Hs Hsub. unfold link_snapshot. eapply hoare_bind.
  { eapply hoare_conseq;
      [apply (hoare_for_each (λ acc σ, I σ ∧ acc.1 ⊆ index))| |intros a σ H; exact H].
    - intros halo acc Hin. apply hoare_pure. intros Hacc.
      apply link_halo_preserves; [|done].
      destruct (Hby_snapshot _ _ Hin) as (hr & Hhr & <-). by exists hr.
    - done. }
  intros [by_id' ignored]. cbn. by apply hoare_ret.
Qed.

End Loops.

Lemma index_halos_Ret_inv input σ by_snapshot index σ' :
  index_halos input σ = Ret (by_snapshot, index) σ' →
  σ' = σ ∧
  (∀ s h, h ∈ default [] (by_snapshot !! s) →
     ∃ hr, halos σ !! h = Some hr ∧ h_snapshot hr = s) ∧
  (∀ k h, index !! k = Some h → ∃ hr, halos σ !! h = Some hr ∧ h_id hr = k).
Proof.
  intros Hrun. unfold index_halos in Hrun.
  refine (hoare_elim _ _ _ _ _ _
    (hoare_for_each (λ acc σ', σ' = σ ∧
       (∀ s h, h ∈ default [] (acc.1 !! s) →
          ∃ hr, halos σ !! h = Some hr ∧ h_snapshot hr = s) ∧
       (∀ k h, acc.2 !! k = Some h → ∃ hr, halos σ !! h = Some hr ∧ h_id hr = k))
      _ _ _ _) _ Hrun).
  - intros halo [bs bi] _. apply hoare_Ret. intros σ1 [c [bs' bi']] σ2 (-> & Hbs & Hbi) Hb.
    apply bind_Ret_inv in Hb as (hr & ? & [-> Hh]%get_halo_Ret_inv & Hb).
    apply ret_Ret_inv in Hb as [? ->]. simplify_eq. cbn in *. split; [done|]. split.
    + intros s h. destruct (decide (h_snapshot hr = s)) as [<-|].
      * rewrite lookup_insert_eq. cbn. intros [Hin| ->%list_elem_of_singleton]%elem_of_app.
        -- by apply Hbs.
        -- by exists hr.
      * rewrite lookup_insert_ne by done. apply Hbs.
    + intros k h. destruct (decide (h_id hr = k)) as [<-|].
      * rewrite lookup_insert_eq. intros [= <-]. by exists hr.
      * rewrite lookup_insert_ne by done. apply Hbi.
  - cbn. split; [done|]. split; [intros s h; rewrite lookup_empty; cbn; by intros ?%elem_of_nil|].
    intros k h. by rewrite lookup_empty.
Qed.

End LinkerGeneric.
Section Snapshots.
Context {R : Type} {SR : Scalar R}.
Implicit Types σ : state R.

Lemma elem_of_set_insert x y l : y ∈ set_insert x l ↔ y = x ∨ y ∈ l.
Proof.
  induction l as [|z l IH]; cbn.
  - rewrite list_elem_of_singleton. set_solver.
  - destruct (Z.ltb_spec x z); [set_solver|].
    destruct (Z.eqb_spec x z); [set_solver|]. rewrite elem_of_cons, IH. set_solver.
Qed.

Lemma set_insert_sorted x l :
  StronglySorted Z.lt l → StronglySorted Z.lt (set_insert x l).
Proof.
  induction l as [|z l IH]; cbn; intros Hs.
  - repeat constructor.
  - apply StronglySorted_cons in Hs as [Hz Hl].
    destruct (Z.ltb_spec x z).
    + constructor; [by constructor|]. constructor; [done|].
      eapply Forall_impl; [exact Hz|]. cbn. lia.
    + destruct (Z.eqb_spec x z); [by constructor|].
      constructor; [by apply IH|]. apply Forall_forall. intros y [->|Hy]%elem_of_set_insert.
      * lia.
      * rewrite Forall_forall in Hz. by apply Hz.
Qed.

Lemma reverse_sorted (l : list Z) :
  StronglySorted Z.lt l → StronglySorted (λ a b, b < a) (reverse l).
Proof.
  induction l as [|x l IH]; intros Hs; [constructor|].
  apply StronglySorted_cons in Hs as [Hx Hl]. rewrite reverse_cons.
  apply StronglySorted_app_2.
  - intros a b Ha ->%list_elem_of_singleton. rewrite elem_of_reverse in Ha.
    rewrite Forall_forall in Hx. cbn. by apply Hx.
  - by apply IH.
  - repeat constructor.
Qed.

Lemma halo_snapshots_loop (l : list hptr) (acc : list Z) σ set σ' :
  for_each l (λ halo set, let* h := get_halo halo in
                          ret (Next, set_insert (h_snapshot h) set)) acc σ = Ret set σ' →
  σ' = σ ∧ (StronglySorted Z.lt acc → StronglySorted Z.lt set) ∧
  ∀ s, s ∈ set ↔ s ∈ acc ∨ snapshot_present σ l s.
Proof.
  revert acc. induction l as [|x l IH]; intros acc Hrun; cbn in Hrun.
  - apply ret_Ret_inv in Hrun as [-> ->]. split; [done|]. split; [done|].
    intros s. split; [by left|]. intros [?|(h & ? & ?%elem_of_nil & _)]; done.
  - apply bind_Ret_inv in Hrun as ([c acc'] & σ1 & Hb & Hrun).
    apply bind_Ret_inv in Hb as (hr & ? & [-> Hh]%get_halo_Ret_inv & Hb).
    apply ret_Ret_inv in Hb as [? ->]. simplify_eq.
    apply IH in Hrun as (-> & Hsorted & Hel). split; [done|]. split.
    + intros Hacc. by apply Hsorted, set_insert_sorted.
    + intros s. rewrite Hel, elem_of_set_insert. split.
      * intros [[->|?]|(h & hr' & Hin & Hl & Hs)]; [right|by left|right].
        -- exists x, hr. split; [left|done].
        -- exists h, hr'. split; [by right|done].
      * intros [?|(h & hr' & [->|Hin]%elem_of_cons & Hl & Hs)]; [left; by right| |].
        -- left; left. by simplify_eq.
        -- right. by exists h, hr'.
Qed.

Lemma halo_snapshots_Ret_inv input σ set σ' :
  halo_snapshots input σ = Ret set σ' →
  σ' = σ ∧ StronglySorted Z.lt set ∧ ∀ s, s ∈ set ↔ snapshot_present σ input s.
Proof.
  intros (-> & Hs & Hel)%halo_snapshots_loop. split; [done|]. split; [apply Hs; constructor|].
  intros s. rewrite Hel. split; [intros [?%elem_of_nil|?]|]; by auto.
Qed.

Lemma halo_snapshots_total input σ :
  (∀ h, h ∈ input → is_Some (halos σ !! h)) → ∃ set, halo_snapshots input σ = Ret set σ.
Proof.
  unfold halo_snapshots. generalize (@nil Z).
  induction input as [|x l IH]; intros acc Hv; cbn.
  - by eexists.
  - destruct (Hv x) as [hr Hh]; [left|].
    rewrite (run_bind _ _ σ (Next, set_insert (h_snapshot hr) acc) σ)
      by (by erewrite run_bind by by apply run_get_halo).
    apply IH. intros. apply Hv. by right.
Qed.

Lemma sorted_halo_snapshots_spec (set processed : list Z) :
  StronglySorted Z.lt set → sorted_halo_snapshots set = Some processed →
  ∃ top, top ∈ set ∧ (∀ s, s ∈ set → s ≤ top) ∧
         StronglySorted (λ a b, b < a) processed ∧
         ∀ s, s ∈ processed ↔ s ∈ set ∧ s ≠ top.
Proof.
  intros Hs Hp. unfold sorted_halo_snapshots in Hp.
  destruct (reverse set) as [|top rest] eqn:Hrev; [done|]. injection Hp as <-.
  apply reverse_sorted in Hs. rewrite Hrev in Hs.
  apply StronglySorted_cons in Hs as [Htop Hrest].
  assert (Hel : ∀ s, s ∈ set ↔ s = top ∨ s ∈ rest).
  { intros s. by rewrite <- elem_of_reverse, Hrev, elem_of_cons. }
  exists top. split; [apply Hel; by left|]. split.
  { rewrite Forall_forall in Htop. intros s [->|Hin]%Hel; [lia|]. apply Htop in Hin. lia. }
  split; [done|]. intros s. rewrite Hel. split.
  - intros Hin. split; [by right|]. rewrite Forall_forall in Htop. apply Htop in Hin. lia.
  - intros [[->|?] ?]; done.
Qed.

End Snapshots.
Section LoopInv.
Context {R : Type} {SR : Scalar R}.
Implicit Types σ : state R.

(** Every invariant that [remove_subhalo], [log_warning] and the calls
    of [link] keep is kept by the whole of [loop_through_halos]; at a
    call of [link] the fact [K], which the invariant provides of a halo
    and a subhalo it lists, is known of the parent pair and of the
    descendant pair. *)
Lemma loop_through_halos_Ret_inv_hosted exec_params input σ0 u σ' :
  loop_through_halos exec_params input σ0 = Ret u σ' →
  ∃ by_snapshot index set processed,
    index_halos input σ0 = Ret (by_snapshot, index) σ0 ∧
    halo_snapshots input σ0 = Ret set σ0 ∧
    sorted_halo_snapshots set = Some processed ∧
    ∀ (I : state R → Prop) (K : hptr → sptr → Prop),
      (∀ halo sub, preserves I (remove_subhalo halo sub)) →
      (∀ m, preserves I (log_warning m)) →
      (∀ σ h hr s, I σ → halos σ !! h = Some hr → s ∈ all_subhalos hr → K h s) →
      (∀ ps ds ph dh,
         hoare (λ σ, I σ ∧ link_site σ0 processed index σ ps ds ph dh ∧ K ph ps ∧ K dh ds)
           (link ps ds ph dh) (λ _, I)) →
      I σ0 → I σ'.
Proof.
  unfold loop_through_halos. intros Hrun.
  apply bind_Ret_inv in Hrun as ([by_snapshot index] & σ1 & Hidx & Hrun).
  pose proof (index_halos_Ret_inv _ _ _ _ _ Hidx) as (-> & Hbs & Hindex).
  apply bind_Ret_inv in Hrun as (set & σ2 & Hset & Hrun).
  pose proof (halo_snapshots_Ret_inv _ _ _ _ Hset) as (-> & _ & _).
  destruct (sorted_halo_snapshots set) as [processed|] eqn:Hp; [|done].
  apply bind_Ret_inv in Hrun as (by_id & σ3 & Hloop & Hrun).
  apply ret_Ret_inv in Hrun as [_ ->].
  exists by_snapshot, index, set, processed. split; [done|]. split; [done|]. split; [done|].
  intros I K Hremove Hwarn Hhosted Hlink HI.
  refine (proj1 (hoare_elim _ _ _ _ _ _
    (hoare_for_each (λ acc σ, I σ ∧ acc ⊆ index) _ _ _ _) _ Hloop)).
  - intros snapshot acc Hin. apply hoare_pure. intros Hacc.
    by eapply link_snapshot_preserves.
  - done.
Qed.

(** Every invariant that [remove_subhalo], [log_warning] and the calls
    of [link] keep is kept by the whole of [loop_through_halos]. *)
Lemma loop_through_halos_Ret_inv exec_params input σ0 u σ' :
  loop_through_halos exec_params input σ0 = Ret u σ' →
  ∃ by_snapshot index set processed,
    index_halos input σ0 = Ret (by_snapshot, index) σ0 ∧
    halo_snapshots input σ0 = Ret set σ0 ∧
    sorted_halo_snapshots set = Some processed ∧
    ∀ I : state R → Prop,
      (∀ halo sub, preserves I (remove_subhalo halo sub)) →
      (∀ m, preserves I (log_warning m)) →
      (∀ ps ds ph dh,
         hoare (λ σ, I σ ∧ link_site σ0 processed index σ ps ds ph dh)
           (link ps ds ph dh) (λ _, I)) →
      I σ0 → I σ'.
Proof.
  intros (by_snapshot & index & set & processed & ? & ? & ? & Hinv)%
    loop_through_halos_Ret_inv_hosted.
  exists by_snapshot, index, set, processed. split; [done|]. split; [done|]. split; [done|].
  intros I Hremove Hwarn Hlink. apply (Hinv I (λ _ _, True)); [done..|].
  intros ps ds ph dh. eapply hoare_conseq; [apply Hlink| |done].
  by intros σ (? & ? & _).
Qed.

End LoopInv.
Section TreeInvariants.
Context {R : Type} {SR : Scalar R}.
Implicit Types σ : state R.

(** ** Invariants of the forest under construction *)

Lemma pointwise_lookup {A} (f : nat → A → A) (l l' : list A) x r' :
  pointwise f l l' → l' !! x = Some r' → ∃ r, l !! x = Some r ∧ r' = f x r.
Proof. intros H. rewrite H. destruct (l !! x); naive_solver. Qed.

Lemma pointwise_lookup_Some {A} (f : nat → A → A) (l l' : list A) x r :
  pointwise f l l' → l !! x = Some r → l' !! x = Some (f x r).
Proof. intros H Hx. by rewrite H, Hx. Qed.

Lemma pointwise_field {A B} (g : A → B) (f : nat → A → A) (l l' : list A) :
  pointwise f l l' → (∀ x r, g (f x r) = g r) → ∀ x, g <$> l' !! x = g <$> l !! x.
Proof. intros H Hg x. rewrite H. destruct (l !! x); cbn; [|done]. by rewrite Hg. Qed.

Lemma link_halo_update_id ph dh t x (r : Halo R) :
  h_id (link_halo_update ph dh t x r) = h_id r.
Proof. unfold link_halo_update. by repeat destruct (decide _). Qed.

Lemma link_halo_update_snapshot ph dh t x (r : Halo R) :
  h_snapshot (link_halo_update ph dh t x r) = h_snapshot r.
Proof. unfold link_halo_update. by repeat destruct (decide _). Qed.

Lemma link_halo_update_descendant ph dh t x (r : Halo R) :
  h_descendant (link_halo_update ph dh t x r) =
  if decide (x = ph) then Some dh else h_descendant r.
Proof. unfold link_halo_update. by repeat destruct (decide _). Qed.

Lemma link_halo_update_ascendants ph dh t x (r : Halo R) :
  h_ascendants (link_halo_update ph dh t x r) =
  if decide (x = dh) then {[ph]} ∪ h_ascendants r else h_ascendants r.
Proof. unfold link_halo_update. by repeat destruct (decide _). Qed.


Lemma bucket_link_tree_update ph s new t x (tr : MergerTree) s' :
  bucket (link_tree_update ph s new t x tr) s' =
  if decide (x = t ∧ new = true ∧ s' = s) then bucket tr s ++ [ph] else bucket tr s'.
Proof.
  unfold link_tree_update. destruct (decide (x = t ∧ new = true)) as [[-> ->]|Hn].
  - unfold bucket at 1. cbn. destruct (decide (s' = s)) as [->|].
    + rewrite lookup_insert_eq, decide_True by done. done.
    + rewrite lookup_insert_ne, decide_False by naive_solver. done.
  - rewrite decide_False by naive_solver. done.
Qed.

Lemma remove_subhalo_update_keeps halo subhalo x (r : Halo R) :
  h_id (remove_subhalo_update halo subhalo x r) = h_id r ∧
  h_snapshot (remove_subhalo_update halo subhalo x r) = h_snapshot r ∧
  h_descendant (remove_subhalo_update halo subhalo x r) = h_descendant r ∧
  h_ascendants (remove_subhalo_update halo subhalo x r) = h_ascendants r ∧
  h_merger_tree (remove_subhalo_update halo subhalo x r) = h_merger_tree r ∧
  h_Mvir (remove_subhalo_update halo subhalo x r) = h_Mvir r.
Proof.
  unfold remove_subhalo_update. repeat destruct (decide _); try done.
  by destruct (erase_first _ _).
Qed.

Section Fixed.
Variables (r : Z) (index : gmap Z hptr) (σ0 : state R) (processed : list Z).

Lemma link_keeps_static_keys ps ds ph dh σ u σ' :
  static_keys σ0 σ → link ps ds ph dh σ = Ret u σ' → static_keys σ0 σ'.
Proof.
  intros Hst (psr & phr & dhr & t & _ & _ & _ & _ & _ & _ & _ & _ & Hh & _)%link_Ret_inv h.
  destruct (Hst h) as [<- <-]. split.
  - eapply pointwise_field; [exact Hh|]. apply link_halo_update_id.
  - eapply pointwise_field; [exact Hh|]. apply link_halo_update_snapshot.
Qed.

(** The descendant a linked halo already has is the one it is linked to
    again. *)
Lemma relink_same_descendant σ dh (phr dhr : Halo R) D Dr :
  static_keys σ0 σ →
  (∃ dhr0, halos σ0 !! dh = Some dhr0 ∧ index !! h_id dhr0 = Some dh) →
  halos σ !! dh = Some dhr →
  (∀ d, h_descendant phr = Some d → ∃ dr, halos σ !! d = Some dr ∧ h_id dr = h_id dhr) →
  h_descendant phr = Some D → halos σ !! D = Some Dr → index !! h_id Dr = Some D →
  D = dh.
Proof.
  intros Hst (dhr0 & Hdh0 & Hidx) Hdh Hsame HD HDr HiD.
  destruct (Hsame D HD) as (dr & Hdr & Hid). simplify_eq.
  destruct (Hst dh) as [Hid0 _]. rewrite Hdh, Hdh0 in Hid0. cbn in Hid0.
  injection Hid0 as Hid0. congruence.
Qed.

Lemma link_keeps_bucket_linked ps ds ph dh σ u σ' :
  static_keys σ0 σ → bucket_linked r index σ →
  link_site σ0 processed index σ ps ds ph dh →
  link ps ds ph dh σ = Ret u σ' → bucket_linked r index σ'.
Proof.
  intros Hst Hbl (_ & _ & Hsite) Hrun.
  pose proof Hrun as (psr & phr & dhr & t & _ & Hph & Hdh & _ & _ & Hsame & Htree & _ & Hh & Ht
                      & _)%link_Ret_inv.
  assert (Hidx_dh : index !! h_id dhr = Some dh).
  { destruct Hsite as (dhr0 & Hdh0 & Hidx). destruct (Hst dh) as [Hid0 _].
    rewrite Hdh, Hdh0 in Hid0. cbn in Hid0. injection Hid0 as Hid0. by rewrite Hid0. }
  assert (Hnew_dh : ∃ Dr, halos σ' !! dh = Some Dr ∧ ph ∈ h_ascendants Dr ∧
                          index !! h_id Dr = Some dh).
  { eexists. split; [by eapply pointwise_lookup_Some|].
    rewrite link_halo_update_ascendants, link_halo_update_id, decide_True by done.
    split; [set_solver|done]. }
  intros t' tr' s' h Ht' Hin.
  eapply pointwise_lookup in Ht' as (tr & Htr & Heq); [|exact Ht]. subst tr'.
  rewrite bucket_link_tree_update in Hin.
  destruct (decide (t' = t ∧ _ ∧ s' = h_snapshot phr)) as [(-> & Hnew & ->)|_].
  - apply elem_of_app in Hin as [Hin|Hin%list_elem_of_singleton].
    + destruct (Hbl _ _ _ _ Htr Hin) as (hr & Hhr & Hs & Hcase).
      eexists. split; [by eapply pointwise_lookup_Some|].
      rewrite link_halo_update_snapshot. split; [done|].
      destruct Hcase as [?|(D & Dr & HD & HDr & HinD & HiD)]; [by left|right].
      rewrite link_halo_update_descendant. destruct (decide (h = ph)) as [->|Hne].
      * destruct Hnew_dh as (Dr' & ? & ? & ?). by exists dh, Dr'.
      * exists D. eexists. split; [done|]. split; [by eapply pointwise_lookup_Some|].
        rewrite link_halo_update_ascendants, link_halo_update_id. split; [|done].
        destruct (decide (D = dh)); set_solver.
    + subst h. eexists. split; [by eapply pointwise_lookup_Some|].
      rewrite link_halo_update_snapshot. split; [done|]. right.
      rewrite link_halo_update_descendant, decide_True by done.
      destruct Hnew_dh as (Dr' & ? & ? & ?). by exists dh, Dr'.
  - destruct (Hbl _ _ _ _ Htr Hin) as (hr & Hhr & Hs & Hcase).
    eexists. split; [by eapply pointwise_lookup_Some|].
    rewrite link_halo_update_snapshot. split; [done|].
    destruct Hcase as [?|(D & Dr & HD & HDr & HinD & HiD)]; [by left|right].
    rewrite link_halo_update_descendant. destruct (decide (h = ph)) as [->|Hne].
    * destruct Hnew_dh as (Dr' & ? & ? & ?). by exists dh, Dr'.
    * exists D. eexists. split; [done|]. split; [by eapply pointwise_lookup_Some|].
      rewrite link_halo_update_ascendants, link_halo_update_id. split; [|done].
      destruct (decide (D = dh)); set_solver.
Qed.

Lemma link_keeps_bucket_nodup ps ds ph dh σ u σ' :
  r ∉ processed →
  static_keys σ0 σ → bucket_linked r index σ → bucket_nodup σ →
  link_site σ0 processed index σ ps ds ph dh →
  link ps ds ph dh σ = Ret u σ' → bucket_nodup σ'.
Proof.
  intros Hr Hst Hbl Hnd (_ & (phr0 & Hph0 & Hproc) & Hsite) Hrun.
  pose proof Hrun as (psr & phr & dhr & t & _ & Hph & Hdh & _ & _ & Hsame & Htree & _ & Hh & Ht
                      & _)%link_Ret_inv.
  intros t' tr' s' Ht'.
  eapply pointwise_lookup in Ht' as (tr & Htr & Heq); [|exact Ht]. subst tr'.
  rewrite bucket_link_tree_update.
  destruct (decide (t' = t ∧ _ ∧ s' = h_snapshot phr)) as [(-> & Hnew & ->)|_];
    [|by eapply Hnd].
  apply NoDup_app. split; [by eapply Hnd|]. split; [|apply NoDup_singleton].
  intros h Hin ->%list_elem_of_singleton.
  destruct (Hbl _ _ _ _ Htr Hin) as (hr & Hhr & Hs & Hcase). simplify_eq.
  destruct Hcase as [Hroot|(D & Dr & HD & HDr & HinD & HiD)].
  - destruct (Hst ph) as [_ Hsn]. rewrite Hph, Hph0 in Hsn. cbn in Hsn.
    injection Hsn as Hsn. congruence.
  - assert (D = dh) as -> by (by eapply relink_same_descendant). simplify_eq.
    apply bool_decide_eq_true in Hnew. done.
Qed.

Lemma remove_subhalo_keeps_static_keys halo sub :
  preserves (R:=R) (static_keys σ0) (remove_subhalo halo sub).
Proof.
  apply hoare_Ret. intros σ u σ' Hst (hs & -> & Hh)%remove_subhalo_Ret_inv h. cbn.
  destruct (Hst h) as [<- <-]. split.
  - eapply pointwise_field; [exact Hh|]. intros. apply remove_subhalo_update_keeps.
  - eapply pointwise_field; [exact Hh|]. intros. apply remove_subhalo_update_keeps.
Qed.

Lemma remove_subhalo_keeps_bucket_linked halo sub :
  preserves (R:=R) (bucket_linked r index) (remove_subhalo halo sub).
Proof.
  apply hoare_Ret. intros σ u σ' Hbl (hs & -> & Hh)%remove_subhalo_Ret_inv t tr s h Ht Hin.
  cbn in *. destruct (Hbl _ _ _ _ Ht Hin) as (hr & Hhr & Hs & Hcase).
  pose proof (remove_subhalo_update_keeps halo sub h hr) as (_ & Hk2 & Hk3 & _).
  eexists. split; [by eapply pointwise_lookup_Some|]. split; [congruence|].
  destruct Hcase as [?|(D & Dr & HD & HDr & HinD & HiD)]; [by left|right].
  pose proof (remove_subhalo_update_keeps halo sub D Dr) as (Hd1 & _ & _ & Hd4 & _).
  exists D. eexists. split; [congruence|]. split; [by eapply pointwise_lookup_Some|].
  split; congruence.
Qed.

Lemma remove_subhalo_keeps_bucket_nodup halo sub :
  preserves (R:=R) bucket_nodup (remove_subhalo halo sub).
Proof.
  apply hoare_Ret. by intros σ u σ' Hnd (hs & -> & Hh)%remove_subhalo_Ret_inv.
Qed.

End Fixed.
End TreeInvariants.
Section Seeding.
Context {R : Type} {SR : Scalar R}.
Implicit Types σ : state R.

Lemma bucket_roots_linked r index σ : bucket_roots r σ → bucket_linked r index σ.
Proof.
  intros H t tr s h Ht Hin. destruct (H _ _ _ _ Ht Hin) as (hr & ? & ? & ?).
  exists hr. auto.
Qed.

Lemma log_warning_keeps_static_keys σ0 m : preserves (R:=R) (static_keys σ0) (log_warning m).
Proof. apply hoare_Ret. by intros σ u σ' H ->%log_warning_Ret_inv. Qed.

Lemma log_warning_keeps_bucket_linked r index m :
  preserves (R:=R) (bucket_linked r index) (log_warning m).
Proof. apply hoare_Ret. by intros σ u σ' H ->%log_warning_Ret_inv. Qed.

Lemma log_warning_keeps_bucket_nodup m : preserves (R:=R) bucket_nodup (log_warning m).
Proof. apply hoare_Ret. by intros σ u σ' H ->%log_warning_Ret_inv. Qed.

Lemma log_warning_keeps_adjacent_links m :
  preserves (R:=R) adjacent_links (log_warning m).
Proof. apply hoare_Ret. by intros σ u σ' H ->%log_warning_Ret_inv. Qed.

Lemma remove_subhalo_keeps_adjacent_links halo sub :
  preserves (R:=R) adjacent_links (remove_subhalo halo sub).
Proof.
  apply hoare_Ret. by intros σ u σ' H (hs & -> & _)%remove_subhalo_Ret_inv.
Qed.

Lemma link_subhalo_update_snapshot ps ds x (r : Subhalo R) :
  sh_snapshot (link_subhalo_update ps ds x r) = sh_snapshot r.
Proof. unfold link_subhalo_update. by repeat destruct (decide _). Qed.

Lemma link_subhalo_update_descendant ps ds x (r : Subhalo R) :
  sh_descendant (link_subhalo_update ps ds x r) =
  if decide (x = ps) then Some ds else sh_descendant r.
Proof. unfold link_subhalo_update. by repeat destruct (decide _). Qed.

Lemma link_keeps_adjacent_links σ0 processed index ps ds ph dh σ u σ' :
  adjacent_links σ → link_site σ0 processed index σ ps ds ph dh →
  link ps ds ph dh σ = Ret u σ' → adjacent_links σ'.
Proof.
  intros Hadj ((psr & dsr & Hps & Hds & Hsnap) & _) Hrun.
  pose proof Hrun as (? & ? & ? & ? & _ & _ & _ & _ & _ & _ & _ & Hs & _)%link_Ret_inv.
  intros s sr' d dr' Hsr' Hd Hdr'.
  eapply pointwise_lookup in Hsr' as (sr & Hsr & Heq); [|exact Hs]. subst sr'.
  eapply pointwise_lookup in Hdr' as (dr & Hdr & Heq); [|exact Hs]. subst dr'.
  rewrite !link_subhalo_update_snapshot. rewrite link_subhalo_update_descendant in Hd.
  destruct (decide (s = ps)) as [->|]; [|by eapply Hadj].
  by simplify_eq.
Qed.

(** *** Seeding the trees *)

Lemma seed_trees_Ret_inv r input σi forest σ0 :
  trees σi = [] →
  seed_trees r input σi = Ret forest σ0 →
  static_keys σi σ0 ∧ bucket_roots r σ0 ∧ bucket_nodup σ0 ∧
  subhalos σ0 = subhalos σi ∧ forest = seq 0 (length (trees σ0)).
Proof.
  intros Hnil Hrun. unfold seed_trees in Hrun.
  apply bind_Ret_inv in Hrun as ([trs counter] & σ1 & Hloop & Hrun).
  apply ret_Ret_inv in Hrun as [-> ->].
  refine (hoare_elim _ _ _ _ _ _
    (hoare_for_each (λ acc σ, static_keys σi σ ∧ bucket_roots r σ ∧ bucket_nodup σ ∧
        subhalos σ = subhalos σi ∧ acc.1 = seq 0 (length (trees σ))) _ _ _ _) _ Hloop).
  - intros halo [trs' counter'] _. apply hoare_Ret.
    intros σ [c [trs'' counter'']] σ' (Hst & Hroots & Hnd & Hsub & Hacc) Hb. cbn in *.
    apply bind_Ret_inv in Hb as (hr & ? & [-> Hh]%get_halo_Ret_inv & Hb).
    destruct (h_snapshot hr =? r) eqn:Hr.
    2:{ apply ret_Ret_inv in Hb as [? ->]. by simplify_eq. }
    apply bind_Ret_inv in Hb as (t & ? & [-> ->]%make_tree_Ret_inv & Hb).
    apply bind_Ret_inv in Hb as (? & ? & (hs & -> & _ & Hhs)%modify_halo_Ret_inv' & Hb).
    apply bind_Ret_inv in Hb as (? & ? & (hr' & ts & Hh' & _ & -> & Hts)%add_halo_Ret_inv & Hb).
    apply ret_Ret_inv in Hb as [Hres ->]. injection Hres as -> -> ->. apply Z.eqb_eq in Hr. cbn in Hh', Hts |- *.
    assert (Hsn : ∀ z, h_snapshot <$> hs !! z = h_snapshot <$> halos σ !! z).
    { intros z. eapply pointwise_field; [exact Hhs|]. intros y q. cbn. by destruct (decide (y = halo)). }
    assert (Hid : ∀ z, h_id <$> hs !! z = h_id <$> halos σ !! z).
    { intros z. eapply pointwise_field; [exact Hhs|]. intros y q. cbn. by destruct (decide (y = halo)). }
    assert (Hsnr : h_snapshot hr' = h_snapshot hr).
    { specialize (Hsn halo). rewrite Hh', Hh in Hsn. by injection Hsn. }
    assert (Hlk : ∀ t' tr', ts !! t' = Some tr' →
       (trees σ !! t' = Some tr' ∧ t' ≠ length (trees σ)) ∨
       (t' = length (trees σ) ∧ ∀ s, bucket tr' s = if decide (s = r) then [halo] else [])).
    { intros t' tr' Ht'. eapply pointwise_lookup in Ht' as (tr & Htr & Heq); [|exact Hts].
      subst tr'.
      destruct (decide (t' = length (trees σ))) as [->|Hne].
      - right. split; [done|]. intros s. rewrite bucket_link_tree_update.
        rewrite lookup_app_r, Nat.sub_diag in Htr by done. cbn in Htr. injection Htr as <-.
        rewrite Hsnr, Hr. unfold bucket. cbn. rewrite lookup_empty. cbn.
        destruct (decide (s = r)) as [->|].
        + by rewrite decide_True.
        + rewrite decide_False by naive_solver. done.
      - left. split; [|done]. unfold link_tree_update. rewrite decide_False by naive_solver.
        apply lookup_app_Some in Htr as [?|[Hle Htr]]; [done|].
        destruct (t' - length (trees σ))%nat eqn:E; [lia|done]. }
    split; [|split; [|split; [|split]]].
    + intros z. destruct (Hst z) as [<- <-]. by rewrite Hsn, Hid.
    + intros t' tr' s h Ht' Hin. destruct (Hlk _ _ Ht') as [[Htr _]|[-> Hb']].
      * destruct (Hroots _ _ _ _ Htr Hin) as (q & Hq & ? & ?).
        specialize (Hsn h). rewrite Hq in Hsn. destruct (hs !! h) as [q'|] eqn:Hq'; [|done].
        exists q'. cbn in Hsn. split; [done|]. split; [congruence|done].
      * rewrite Hb' in Hin. destruct (decide (s = r)) as [->|]; [|by apply elem_of_nil in Hin].
        apply list_elem_of_singleton in Hin as ->. exists hr'. split; [done|]. split; congruence.
    + intros t' tr' s Ht'. destruct (Hlk _ _ Ht') as [[Htr _]|[-> Hb']].
      * by eapply Hnd.
      * rewrite Hb'. destruct (decide _); [apply NoDup_singleton|apply NoDup_nil_2].
    + done.
    + rewrite Hacc. erewrite (pointwise_length _ _ ts) by exact Hts.
      rewrite length_app. cbn. rewrite Nat.add_1_r, seq_S. done.
  - cbn. rewrite Hnil. split; [done|].
    split; [intros t tr s h Ht; by rewrite Hnil in Ht|].
    split; [intros t tr s Ht; by rewrite Hnil in Ht|]. done.
Qed.

End Seeding.
Section Frame.
Context {R : Type} {SR : Scalar R}.
Implicit Types σ : state R.

(** ** Passes that leave the shape of the forest alone *)

Lemma preserves_ret {A} (I : state R → Prop) (a : A) : preserves I (ret a).
Proof. by apply hoare_ret. Qed.

Lemma preserves_bind {A B} (I : state R → Prop) (m : M R A) (k : A → M R B) :
  preserves I m → (∀ a, preserves I (k a)) → preserves I (bind m k).
Proof. intros Hm Hk. by eapply hoare_bind. Qed.

Lemma preserves_get_halo (I : state R → Prop) h : preserves I (get_halo h).
Proof. apply hoare_Ret. by intros σ a σ' HI [-> _]%get_halo_Ret_inv. Qed.

Lemma preserves_get_subhalo (I : state R → Prop) s : preserves I (get_subhalo s).
Proof. apply hoare_Ret. by intros σ a σ' HI [-> _]%get_subhalo_Ret_inv. Qed.

Lemma preserves_get_tree (I : state R → Prop) t : preserves I (get_tree t).
Proof. apply hoare_Ret. by intros σ a σ' HI [-> _]%get_tree_Ret_inv. Qed.

Lemma preserves_for_each {A S} (I : state R → Prop) (l : list A)
    (body : A → S → M R (ctl * S)) (acc : S) :
  (∀ x acc, preserves I (body x acc)) → preserves I (for_each l body acc).
Proof. intros H. apply (hoare_for_each (λ _, I)). intros. apply H. Qed.

Lemma preserves_for_all {A} (I : state R → Prop) (l : list A) (body : A → M R unit) :
  (∀ x, preserves I (body x)) → preserves I (for_all l body).
Proof. intros H. apply hoare_for_all. intros. apply H. Qed.

Section Passes.
Variable I : state R → Prop.
Hypothesis I_halo : ∀ h f, keeps_links f → preserves I (modify_halo h f).
Hypothesis I_subhalo : ∀ s f, preserves I (modify_subhalo s f).
Hypothesis I_bucket : ∀ t s, preserves I (halos_at t s).
Hypothesis I_warning : ∀ m, preserves I (log_warning m).
Hypothesis I_baryon : ∀ s v, preserves I (set_baryon_total_created s v).

Ltac pres_step :=
  first
  [ apply preserves_ret
  | apply hoare_throw
  | apply hoare_undefined
  | apply hoare_out_of_fuel
  | apply preserves_get_halo
  | apply preserves_get_subhalo
  | apply preserves_get_tree
  | apply I_subhalo
  | apply I_bucket
  | apply I_warning
  | apply I_baryon
  | apply I_halo; by intros ?
  | assumption
  | solve [auto 2]
  | apply preserves_bind; [|intros ?]
  | apply preserves_for_all; intros ?
  | apply preserves_for_each; intros ? ?
  | match goal with
    | |- preserves _ (match ?x with _ => _ end) => destruct x
    | |- preserves _ (if ?b then _ else _) => destruct b
    end ].

Ltac pres := repeat pres_step.

Lemma remove_satellite_frame halo subhalo : preserves I (remove_satellite halo subhalo).
Proof using I_halo. unfold remove_satellite. pres. Qed.

Lemma define_central_subhalo_frame halo subhalo :
  preserves I (define_central_subhalo halo subhalo).
Proof using I_halo I_subhalo.
  pose proof remove_satellite_frame. unfold define_central_subhalo. pres.
Qed.

Lemma find_main_frame l : preserves I (find_main l).
Proof. induction l; cbn; pres. Qed.

Lemma max_element_Mvir_frame largest l : preserves I (max_element_Mvir largest l).
Proof. revert largest. induction l; intros; cbn; pres. Qed.

Lemma walk_main_branch_frame fuel subhalo ascendants :
  preserves I (walk_main_branch fuel subhalo ascendants).
Proof using I_halo I_subhalo I_warning.
  pose proof define_central_subhalo_frame. pose proof find_main_frame.
  pose proof max_element_Mvir_frame.
  revert subhalo ascendants. induction fuel as [|fuel IH]; intros; cbn.
  - destruct ascendants; pres.
  - unfold main, stamp_last_snapshot_identified. destruct ascendants; pres.
Qed.

Lemma resolve_central_subhalos_frame trees sim_params fuel :
  preserves I (resolve_central_subhalos trees sim_params fuel).
Proof using I_halo I_subhalo I_warning I_bucket.
  pose proof define_central_subhalo_frame. pose proof walk_main_branch_frame.
  unfold resolve_central_subhalos, resolve_halo, decrement. pres.
Qed.

Lemma check_snapshots_from_frame fuel tree sim_params snapshot :
  preserves I (check_snapshots_from fuel tree sim_params snapshot).
Proof using I_bucket.
  revert snapshot. induction fuel as [|fuel IH]; intros; cbn; unfold check_one_central; pres.
Qed.

Lemma define_central_subhalos_frame trees sim_params fuel :
  preserves I (define_central_subhalos trees sim_params fuel).
Proof using I_halo I_subhalo I_warning I_bucket.
  pose proof resolve_central_subhalos_frame. pose proof check_snapshots_from_frame.
  unfold define_central_subhalos, check_central_subhalos. pres.
Qed.

Lemma ensure_halo_mass_growth_frame trees sim_params :
  preserves I (ensure_halo_mass_growth trees sim_params).
Proof using I_halo I_bucket.
  unfold ensure_halo_mass_growth, grow_descendant. pres.
Qed.

Lemma accumulate_Mvir_frame l mass : preserves I (accumulate_Mvir l mass).
Proof. revert mass. induction l; intros; cbn; pres. Qed.

Lemma define_accretion_rate_from_dm_frame trees sim_params ubf :
  preserves I (define_accretion_rate_from_dm trees sim_params ubf).
Proof using I_subhalo I_bucket I_baryon.
  pose proof accumulate_Mvir_frame.
  unfold define_accretion_rate_from_dm, define_accreted_mass, add_accreted_mass,
    increment, decrement. pres.
Qed.

End Passes.
End Frame.
Section SelfContained.
Context {R : Type} {SR : Scalar R}.
Implicit Types σ : state R.

Lemma for_all_app {A} (l1 l2 : list A) (body : A → M R unit) σ :
  for_all (l1 ++ l2) body σ = (for_all l1 body ;;; for_all l2 body) σ.
Proof.
  revert σ. induction l1 as [|x l1 IH]; intros σ; cbn; [done|].
  unfold bind. destruct (body x σ) as [u σ1| | |]; [|done..]. rewrite IH. done.
Qed.

Lemma find_app {A} (f : A → bool) (l1 l2 : list A) :
  find f (l1 ++ l2) = match find f l1 with Some x => Some x | None => find f l2 end.
Proof. induction l1 as [|x l1 IH]; cbn; [done|]. by destruct (f x). Qed.

Lemma check_bucket_run σ t (l : list hptr) :
  (∀ h, h ∈ l → is_Some (halos σ !! h)) →
  for_all l (check_halo_in_tree t) σ =
  match find (misplaced σ) ((λ h, (t, h)) <$> l) with
  | Some th => Throw (invalid_data (msg_not_part_of_tree th.2 th.1))
  | None => Ret tt σ
  end.
Proof.
  induction l as [|h l IH]; intros Hv; cbn; [done|].
  destruct (Hv h) as [hr Hh]; [left|]. unfold check_halo_in_tree at 1.
  unfold misplaced at 1. cbn. rewrite Hh. cbn.
  unfold bind at 1. erewrite run_bind by by apply run_get_halo.
  destruct (decide (h_merger_tree hr = Some t)) as [E|E].
  - rewrite bool_decide_eq_false_2 by (rewrite E; naive_solver). cbn.
    apply IH. intros. apply Hv. by right.
  - rewrite bool_decide_eq_true_2 by congruence. done.
Qed.

Lemma check_tree_run σ t tr (ss : list Z) :
  (∀ s h, s ∈ ss → h ∈ bucket tr s → is_Some (halos σ !! h)) →
  for_all ss (λ snapshot, for_all (bucket tr snapshot) (check_halo_in_tree t)) σ =
  match find (misplaced σ) (s ← ss; (λ h, (t, h)) <$> bucket tr s) with
  | Some th => Throw (invalid_data (msg_not_part_of_tree th.2 th.1))
  | None => Ret tt σ
  end.
Proof.
  induction ss as [|s ss IH]; intros Hv; cbn; [done|].
  unfold bind. rewrite check_bucket_run by (intros; eapply Hv; [left|done]).
  rewrite find_app.
  destruct (find (misplaced σ) ((λ h, (t, h)) <$> bucket tr s)); [done|].
  apply IH. intros. eapply Hv; [by right|done].
Qed.

Lemma ensure_trees_are_self_contained_run σ ts :
  forest_live σ ts →
  ensure_trees_are_self_contained ts σ =
  match find (misplaced σ) (forest_halos σ ts) with
  | Some th => Throw (invalid_data (msg_not_part_of_tree th.2 th.1))
  | None => Ret tt σ
  end.
Proof.
  unfold ensure_trees_are_self_contained.
  induction ts as [|t ts IH]; intros Hv; cbn; [done|].
  destruct (Hv t) as (tr & Ht & Hb); [left|]. rewrite Ht.
  unfold bind at 1. erewrite run_bind by by apply run_get_tree.
  rewrite check_tree_run by (intros; by eapply Hb). rewrite find_app. fold (tree_halos t tr).
  destruct (find (misplaced σ) (tree_halos t tr)); [done|].
  apply IH. intros t' Ht'. apply Hv. by right.
Qed.

Lemma elem_of_tree_snapshots (tr : MergerTree) s :
  s ∈ tree_snapshots tr ↔ is_Some (t_halos tr !! s).
Proof.
  unfold tree_snapshots. rewrite merge_sort_Permutation, elem_of_elements.
  apply elem_of_dom.
Qed.

Lemma elem_of_tree_halos t tr t' h :
  (t', h) ∈ tree_halos t tr ↔ t' = t ∧ ∃ s, h ∈ bucket tr s.
Proof.
  unfold tree_halos. rewrite list_elem_of_bind. split.
  - intros (s & Hin & _). apply list_elem_of_fmap in Hin as (h' & [= -> ->] & Hin). eauto.
  - intros [-> [s Hin]]. exists s. split; [apply list_elem_of_fmap; eauto|].
    apply elem_of_tree_snapshots. unfold bucket in Hin.
    destruct (t_halos tr !! s); [done|]. by apply elem_of_nil in Hin.
Qed.

Lemma ensure_trees_are_self_contained_Ret_inv σ ts u σ' :
  ensure_trees_are_self_contained ts σ = Ret u σ' →
  σ' = σ ∧
  ∀ t tr s h, t ∈ ts → trees σ !! t = Some tr → h ∈ bucket tr s →
    ∃ hr, halos σ !! h = Some hr ∧ h_merger_tree hr = Some t.
Proof.
  unfold ensure_trees_are_self_contained.
  induction ts as [|t ts IH]; cbn; intros Hrun.
  { apply ret_Ret_inv in Hrun as [_ ->]. split; [done|]. by intros ???? ?%elem_of_nil. }
  apply bind_Ret_inv in Hrun as (? & σ1 & Ht & Hrun).
  apply bind_Ret_inv in Ht as (tr & ? & [-> Htr]%get_tree_Ret_inv & Hsn).
  assert (σ1 = σ ∧ ∀ s h, s ∈ tree_snapshots tr → h ∈ bucket tr s →
            ∃ hr, halos σ !! h = Some hr ∧ h_merger_tree hr = Some t) as [-> Hok].
  { clear Hrun IH. revert Hsn. generalize (tree_snapshots tr) as ss.
    induction ss as [|s ss IHs]; cbn; intros Hsn.
    { apply ret_Ret_inv in Hsn as [_ ->]. split; [done|]. by intros ?? ?%elem_of_nil. }
    apply bind_Ret_inv in Hsn as (? & σ2 & Hb & Hsn).
    assert (σ2 = σ ∧ ∀ h, h ∈ bucket tr s →
              ∃ hr, halos σ !! h = Some hr ∧ h_merger_tree hr = Some t) as [-> Hokb].
    { clear Hsn IHs. revert Hb. generalize (bucket tr s) as l.
      induction l as [|h l IHl]; cbn; intros Hb.
      { apply ret_Ret_inv in Hb as [_ ->]. split; [done|]. by intros ? ?%elem_of_nil. }
      apply bind_Ret_inv in Hb as (? & σ3 & Hh & Hb).
      unfold check_halo_in_tree in Hh.
      apply bind_Ret_inv in Hh as (hr & ? & [-> Hhr]%get_halo_Ret_inv & Hh).
      destruct (decide (h_merger_tree hr = Some t)); [|done].
      apply ret_Ret_inv in Hh as [_ ->]. apply IHl in Hb as [-> Hl]. split; [done|].
      intros h' [->|Hin]%elem_of_cons; eauto. }
    apply IHs in Hsn as [-> Hss]. split; [done|].
    intros s' h [->|Hin]%elem_of_cons; eauto. }
  apply IH in Hrun as [-> Hts]. split; [done|].
  intros t' tr' s h [->|Hin]%elem_of_cons Htr' Hb; [|by eauto].
  simplify_eq. apply (Hok s); [|done]. apply elem_of_tree_snapshots. unfold bucket in Hb.
  destruct (t_halos _ !! s); [done|]. by apply elem_of_nil in Hb.
Qed.

End SelfContained.
Section ForestOk.
Context {R : Type} {SR : Scalar R}.
Implicit Types σ : state R.

Lemma forest_ok_modify_halo forest h f :
  keeps_links f → preserves (R:=R) (forest_ok forest) (modify_halo h f).
Proof.
  intros Hf. apply hoare_Ret.
  intros σ u σ' Hok (hs & -> & _ & Hhs)%modify_halo_Ret_inv' t tr s x Ht Htr Hin. cbn in *.
  destruct (Hok _ _ _ _ Ht Htr Hin) as [(hr & Hhr & Htree & Hsn) Hnd]. split; [|done].
  eexists. split; [by eapply pointwise_lookup_Some|]. cbn.
  destruct (decide (x = h)); [|done]. destruct (Hf hr) as (-> & -> & _). done.
Qed.

Lemma forest_ok_modify_subhalo forest s f :
  preserves (R:=R) (forest_ok forest) (modify_subhalo s f).
Proof.
  apply hoare_Ret. by intros σ u σ' Hok (ss & -> & _)%modify_subhalo_Ret_inv'.
Qed.

Lemma forest_ok_halos_at forest t s : preserves (R:=R) (forest_ok forest) (halos_at t s).
Proof.
  apply hoare_Ret.
  intros σ l σ' Hok (tr0 & ts & f & _ & _ & -> & Hts & Hf)%halos_at_Ret_inv t' tr' s' h Ht' Htr' Hin.
  cbn in *. eapply pointwise_lookup in Htr' as (tr & Htr & Heq); [|exact Hts]. subst tr'.
  rewrite Hf in Hin |- *. by eapply Hok.
Qed.

Lemma forest_ok_log_warning forest m : preserves (R:=R) (forest_ok forest) (log_warning m).
Proof. apply hoare_Ret. by intros σ u σ' H ->%log_warning_Ret_inv. Qed.

Lemma forest_ok_set_baryon forest s (v : R) :
  preserves (R:=R) (forest_ok forest) (set_baryon_total_created s v).
Proof. apply hoare_Ret. intros σ u σ' H [= _ <-]. done. Qed.

(** ** The linker keeps the forest well formed *)

Lemma linker_keeps_forest exec_params input r σ0 u σ1 :
  bucket_roots r σ0 →
  loop_through_halos exec_params input σ0 = Ret u σ1 →
  ∃ set processed index,
    halo_snapshots input σ0 = Ret set σ0 ∧ sorted_halo_snapshots set = Some processed ∧
    static_keys σ0 σ1 ∧ bucket_linked r index σ1 ∧
    (r ∉ processed → bucket_nodup σ0 → bucket_nodup σ1).
Proof.
  intros Hroots (bs & index & set & processed & _ & Hset & Hp & Hinv)%loop_through_halos_Ret_inv.
  exists set, processed, index. split; [done|]. split; [done|].
  assert (static_keys σ0 σ1 ∧ bucket_linked r index σ1) as [Hst Hbl].
  { apply (Hinv (λ σ, static_keys σ0 σ ∧ bucket_linked r index σ)).
    - intros halo sub. apply hoare_Ret. intros σ a σ' [Hst Hbl] Hrun. split.
      + exact (hoare_elim _ _ _ _ _ _ (remove_subhalo_keeps_static_keys _ _ _) Hst Hrun).
      + exact (hoare_elim _ _ _ _ _ _ (remove_subhalo_keeps_bucket_linked _ _ _ _) Hbl Hrun).
    - intros m. apply hoare_Ret. by intros σ a σ' H ->%log_warning_Ret_inv.
    - intros ps ds ph dh. apply hoare_Ret. intros σ a σ' [[Hst Hbl] Hsite] Hrun. split.
      + by eapply link_keeps_static_keys.
      + by eapply link_keeps_bucket_linked.
    - split; [done|]. by apply bucket_roots_linked. }
  split; [done|]. split; [done|]. intros Hr Hnd.
  apply (Hinv (λ σ, static_keys σ0 σ ∧ bucket_linked r index σ ∧ bucket_nodup σ)).
  - intros halo sub. apply hoare_Ret. intros σ a σ' (Hst' & Hbl' & Hnd') Hrun. split; [|split].
    + exact (hoare_elim _ _ _ _ _ _ (remove_subhalo_keeps_static_keys _ _ _) Hst' Hrun).
    + exact (hoare_elim _ _ _ _ _ _ (remove_subhalo_keeps_bucket_linked _ _ _ _) Hbl' Hrun).
    + exact (hoare_elim _ _ _ _ _ _ (remove_subhalo_keeps_bucket_nodup _ _) Hnd' Hrun).
  - intros m. apply hoare_Ret. by intros σ a σ' H ->%log_warning_Ret_inv.
  - intros ps ds ph dh. apply hoare_Ret. intros σ a σ' [(Hst' & Hbl' & Hnd') Hsite] Hrun.
    split; [|split].
    + by eapply link_keeps_static_keys.
    + by eapply link_keeps_bucket_linked.
    + by eapply link_keeps_bucket_nodup.
  - split; [done|]. split; [by apply bucket_roots_linked|done].
Qed.

End ForestOk.
Section BuildTrees.
Context {R : Type} {SR : Scalar R}.
Implicit Types σ : state R.

Lemma root_not_processed input σi σ0 r set processed :
  static_keys σi σ0 →
  (∀ h hr, h ∈ input → halos σi !! h = Some hr → h_snapshot hr ≤ r) →
  halo_snapshots input σ0 = Ret set σ0 → sorted_halo_snapshots set = Some processed →
  r ∉ processed.
Proof.
  intros Hst Hle (_ & Hsorted & Hel)%halo_snapshots_Ret_inv Hp Hr.
  destruct (sorted_halo_snapshots_spec _ _ Hsorted Hp) as (top & Htop & Hmax & _ & Hproc).
  destruct (proj1 (Hproc r) Hr) as [Hr' Hne]. pose proof (Hmax _ Hr') as Hrt.
  destruct (proj1 (Hel top) Htop) as (h & hr & Hin & Hh & Hs).
  destruct (Hst h) as [_ Hsn]. rewrite Hh in Hsn. cbn in Hsn.
  destruct (halos σi !! h) as [hr'|] eqn:Hh'; [|done]. injection Hsn as Hsn.
  specialize (Hle _ _ Hin Hh'). lia.
Qed.

Lemma build_trees_Ret_inv exec_params input sim_params ubf fuel σi forest σf :
  build_trees exec_params input sim_params ubf fuel σi = Ret forest σf →
  ∃ r rest σ0 σ1 σ2 σ3,
    output_snapshots exec_params = r :: rest ∧
    seed_trees r input σi = Ret forest σ0 ∧
    loop_through_halos exec_params input σ0 = Ret tt σ1 ∧
    ensure_trees_are_self_contained forest σ1 = Ret tt σ1 ∧
    (if ensure_mass_growth exec_params then ensure_halo_mass_growth forest sim_params
     else ret tt) σ1 = Ret tt σ2 ∧
    define_central_subhalos forest sim_params fuel σ2 = Ret tt σ3 ∧
    define_accretion_rate_from_dm forest sim_params ubf σ3 = Ret tt σf.
Proof.
  unfold build_trees. intros Hrun.
  destruct (output_snapshots exec_params) as [|r rest]; [done|].
  apply bind_Ret_inv in Hrun as (forest' & σ0 & Hseed & Hrun).
  destruct forest' as [|t0 forest']; [by apply bind_Ret_inv in Hrun as (? & ? & _ & ?)|].
  apply bind_Ret_inv in Hrun as ([] & σ1 & Hloop & Hrun).
  apply bind_Ret_inv in Hrun as ([] & σ1' & Hcheck & Hrun).
  pose proof (ensure_trees_are_self_contained_Ret_inv _ _ _ _ Hcheck) as [-> _].
  apply bind_Ret_inv in Hrun as ([] & σ2 & Hgrow & Hrun).
  apply bind_Ret_inv in Hrun as ([] & σ3 & Hcentral & Hrun).
  apply bind_Ret_inv in Hrun as ([] & σ4 & Haccr & Hrun).
  apply ret_Ret_inv in Hrun as [-> ->].
  by exists r, rest, σ0, σ1, σ2, σ3.
Qed.

Lemma build_trees_forest_ok exec_params input sim_params ubf fuel σi forest σf r rest :
  trees σi = [] → output_snapshots exec_params = r :: rest →
  (∀ h hr, h ∈ input → halos σi !! h = Some hr → h_snapshot hr ≤ r) →
  build_trees exec_params input sim_params ubf fuel σi = Ret forest σf →
  forest_ok forest σf.
Proof.
  intros Hnil Hout Hle
    (r' & rest' & σ0 & σ1 & σ2 & σ3 & Hout' & Hseed & Hloop & Hcheck & Hgrow & Hcentral & Haccr)
      %build_trees_Ret_inv.
  rewrite Hout in Hout'. symmetry in Hout'. injection Hout' as -> ->.
  destruct (seed_trees_Ret_inv _ _ _ _ _ Hnil Hseed) as (Hst0 & Hroots & Hnd0 & _ & _).
  destruct (linker_keeps_forest _ _ _ _ _ _ Hroots Hloop)
    as (set & processed & index & Hset & Hp & Hst1 & Hbl & Hnd).
  assert (Hnd1 : bucket_nodup σ1).
  { apply Hnd; [|done]. exact (root_not_processed _ _ _ _ _ _ Hst0 Hle Hset Hp). }
  apply ensure_trees_are_self_contained_Ret_inv in Hcheck as [_ Htree].
  assert (Hok1 : forest_ok forest σ1).
  { intros t tr s h Ht Htr Hin. split; [|by eapply Hnd1].
    destruct (Htree _ _ _ _ Ht Htr Hin) as (hr & Hhr & Hmt).
    destruct (Hbl _ _ _ _ Htr Hin) as (hr' & Hhr' & Hs & _). simplify_eq. by exists hr. }
  assert (Hok2 : forest_ok forest σ2).
  { destruct (ensure_mass_growth exec_params).
    - refine (hoare_elim _ _ _ _ _ _
        (ensure_halo_mass_growth_frame _ (forest_ok_modify_halo _) (forest_ok_halos_at _) _ _)
        Hok1 Hgrow).
    - by apply ret_Ret_inv in Hgrow as [_ ->]. }
  assert (Hok3 : forest_ok forest σ3).
  { refine (hoare_elim _ _ _ _ _ _
      (define_central_subhalos_frame _ (forest_ok_modify_halo _) (forest_ok_modify_subhalo _)
         (forest_ok_halos_at _) (forest_ok_log_warning _) _ _ _) Hok2 Hcentral). }
  refine (hoare_elim _ _ _ _ _ _
    (define_accretion_rate_from_dm_frame _ (forest_ok_modify_subhalo _)
       (forest_ok_halos_at _) (forest_ok_set_baryon _) _ _ _) Hok3 Haccr).
Qed.

End BuildTrees.
Section LinkSubhalo.
Context {R : Type} {SR : Scalar R}.
Implicit Types σ : state R.

Lemma erase_first_elem x (l : list sptr) : x ∈ l → is_Some (erase_first x l).
Proof.
  induction l as [|y l IH]; [by intros ?%elem_of_nil|]. cbn.
  destruct (Nat.eqb_spec x y); [by eexists|].
  intros [?|Hin]%elem_of_cons; [done|]. destruct (IH Hin) as [r ->]. by eexists.
Qed.

Lemma run_remove_subhalo σ halo subhalo hr :
  halos σ !! halo = Some hr → subhalo ∈ all_subhalos hr →
  ∃ hr', erase_first subhalo (all_subhalos hr) = Some (all_subhalos hr') ∧
         remove_subhalo halo subhalo σ = Ret tt (st_with_halos (<[halo := hr']> (halos σ)) σ).
Proof.
  intros Hh Hin. unfold remove_subhalo. erewrite run_bind by by apply run_get_halo.
  unfold all_subhalos in *.
  destruct (decide (h_central_subhalo hr = Some subhalo)) as [Hc|Hc].
  - exists (h_with_central_subhalo None hr). rewrite Hc. cbn. rewrite Nat.eqb_refl.
    split; [done|]. by erewrite run_modify_halo.
  - assert (subhalo ∈ h_satellite_subhalos hr) as Hsat.
    { destruct (h_central_subhalo hr); [|done].
      apply elem_of_cons in Hin as [->|?]; done. }
    destruct (erase_first_elem _ _ Hsat) as [l Hl]. rewrite Hl.
    exists (h_with_satellite_subhalos l hr). cbn. split; [|by erewrite run_modify_halo].
    destruct (h_central_subhalo hr) as [c|]; [|done]. cbn.
    destruct (Nat.eqb_spec subhalo c); [congruence|]. by rewrite Hl.
Qed.

(** Subhalos of the descendant halo whose id is not the claimed one are
    passed over. *)
Lemma find_descendant_skip σ subhalo halo d_halo sr before rest found :
  subhalos σ !! subhalo = Some sr →
  (∀ x, x ∈ before → ∃ xr, subhalos σ !! x = Some xr ∧ sh_id xr ≠ sh_descendant_id sr) →
  for_each (before ++ rest) (λ d_subhalo found,
    let* ds := get_subhalo d_subhalo in
    let* s := get_subhalo subhalo in
    if sh_id ds =? sh_descendant_id s then
      if sh_snapshot ds =? int_min then undefined
      else if negb (sh_snapshot s =? sh_snapshot ds - 1) then
        throw (invalid_data (msg_not_direct_descendant d_subhalo subhalo))
      else
        link subhalo d_subhalo halo d_halo ;;;
        ret (Break, true)
    else ret (Next, found)) found σ =
  for_each rest (λ d_subhalo found,
    let* ds := get_subhalo d_subhalo in
    let* s := get_subhalo subhalo in
    if sh_id ds =? sh_descendant_id s then
      if sh_snapshot ds =? int_min then undefined
      else if negb (sh_snapshot s =? sh_snapshot ds - 1) then
        throw (invalid_data (msg_not_direct_descendant d_subhalo subhalo))
      else
        link subhalo d_subhalo halo d_halo ;;;
        ret (Break, true)
    else ret (Next, found)) found σ.
Proof.
  intros Hs. induction before as [|x before IH]; intros Hb; [done|]. cbn.
  destruct (Hb x) as (xr & Hx & Hne); [left|].
  rewrite (run_bind _ _ σ (Next, found) σ).
  - apply IH. intros. apply Hb. by right.
  - erewrite run_bind by by apply run_get_subhalo.
    erewrite run_bind by by apply run_get_subhalo.
    by destruct (Z.eqb_spec (sh_id xr) (sh_descendant_id sr)).
Qed.

Lemma find_descendant_found σ subhalo halo d_halo sr before d_subhalo after dsr :
  subhalos σ !! subhalo = Some sr →
  (∀ x, x ∈ before → ∃ xr, subhalos σ !! x = Some xr ∧ sh_id xr ≠ sh_descendant_id sr) →
  subhalos σ !! d_subhalo = Some dsr → sh_id dsr = sh_descendant_id sr →
  find_descendant subhalo halo d_halo (before ++ d_subhalo :: after) σ =
  if decide (sh_snapshot dsr = int_min) then Undefined
  else if decide (sh_snapshot dsr = sh_snapshot sr + 1) then
    (link subhalo d_subhalo halo d_halo ;;; ret true) σ
  else Throw (invalid_data (msg_not_direct_descendant d_subhalo subhalo)).
Proof.
  intros Hs Hb Hd Hid. unfold find_descendant.
  erewrite find_descendant_skip by done. cbn.
  unfold bind at 1. erewrite run_bind by by apply run_get_subhalo.
  erewrite run_bind by by apply run_get_subhalo.
  rewrite Hid, Z.eqb_refl.
  destruct (decide (sh_snapshot dsr = int_min)) as [Emin|Emin].
  { by rewrite Emin. }
  replace (sh_snapshot dsr =? int_min) with false by (symmetry; by apply Z.eqb_neq).
  destruct (decide (sh_snapshot dsr = sh_snapshot sr + 1)) as [E|E].
  - replace (sh_snapshot sr =? sh_snapshot dsr - 1) with true by (symmetry; lia). cbn.
    unfold bind. by destruct (link subhalo d_subhalo halo d_halo σ).
  - replace (sh_snapshot sr =? sh_snapshot dsr - 1) with false by (symmetry; lia). done.
Qed.

Lemma find_descendant_missing σ subhalo halo d_halo sr d_subhalos :
  subhalos σ !! subhalo = Some sr →
  (∀ x, x ∈ d_subhalos → ∃ xr, subhalos σ !! x = Some xr ∧ sh_id xr ≠ sh_descendant_id sr) →
  find_descendant subhalo halo d_halo d_subhalos σ = Ret false σ.
Proof.
  intros Hs Hb. unfold find_descendant.
  rewrite <- (app_nil_r d_subhalos). by erewrite find_descendant_skip.
Qed.

End LinkSubhalo.
Section LinkSubhaloClaims.
Context {R : Type} {SR : Scalar R}.
Implicit Types σ : state R.

Lemma run_missing_descendant exec_params σ halo subhalo d_halo sr dhr :
  subhalos σ !! subhalo = Some sr → halos σ !! d_halo = Some dhr →
  let os := msg_descendant_not_found (sh_descendant_id sr) subhalo d_halo (all_subhalos dhr) in
  missing_descendant exec_params halo subhalo d_halo σ =
  if skip_missing_descendants exec_params then
    remove_subhalo halo subhalo
      (if warn_on_missing_descendants exec_params
       then st_with_warnings (warnings σ ++ [os]) σ else σ)
  else
    Throw (subhalo_not_found
             (if warn_on_missing_descendants exec_params then os else msg_empty)
             (sh_descendant_id sr)).
Proof.
  intros Hs Hdh. cbn zeta. unfold missing_descendant.
  destruct (skip_missing_descendants exec_params), (warn_on_missing_descendants exec_params);
    unfold bind, get_subhalo, get_halo, log_warning, ret, throw; cbn;
    rewrite ?Hs, ?Hdh; cbn; rewrite ?Hs; done.
Qed.

(** C7. When the descendant halo that [halos_by_id] resolves hosts no
    subhalo with the claimed descendant id, the two policy flags decide
    the outcome of the subhalo's step of the linker: without
    [skip_missing_descendants] it throws [subhalo_not_found] with the
    missing id (and with the text of the warning when
    [warn_on_missing_descendants] is set); with both flags the warning
    is logged and the subhalo is removed from its host halo; with
    [skip_missing_descendants] alone the subhalo is removed and nothing
    is logged. In both skipping cases the loop goes on with its locals
    unchanged. *)
Theorem missing_descendant_policy exec_params σ halo subhalo halos_by_id ignored halo_linked
    sr hr d_halo dhr :
  subhalos σ !! subhalo = Some sr → sh_has_descendant sr = true →
  halos_by_id !! sh_descendant_halo_id sr = Some d_halo → halos σ !! d_halo = Some dhr →
  (∀ x, x ∈ all_subhalos dhr →
     ∃ xr, subhalos σ !! x = Some xr ∧ sh_id xr ≠ sh_descendant_id sr) →
  halos σ !! halo = Some hr → subhalo ∈ all_subhalos hr →
  let run := link_subhalo exec_params halo subhalo (halos_by_id, ignored, halo_linked) σ in
  let os := msg_descendant_not_found (sh_descendant_id sr) subhalo d_halo (all_subhalos dhr) in
  let removed (w : list message) := λ o : outcome R (ctl * (gmap Z hptr * Z * bool)),
    ∃ hr', erase_first subhalo (all_subhalos hr) = Some (all_subhalos hr') ∧
      o = Ret (Next, (halos_by_id, ignored, halo_linked))
            (mkState (<[halo := hr']> (halos σ)) (subhalos σ) (trees σ) w
               (baryon_total_created σ)) in
  match skip_missing_descendants exec_params, warn_on_missing_descendants exec_params with
  | false, true => run = Throw (subhalo_not_found os (sh_descendant_id sr))
  | false, false => run = Throw (subhalo_not_found msg_empty (sh_descendant_id sr))
  | true, true => removed (warnings σ ++ [os]) run
  | true, false => removed (warnings σ) run
  end.
Proof.
  intros Hs Hhas Hidx Hdh Hmiss Hh Hin. cbn zeta. unfold link_subhalo.
  erewrite run_bind by by apply run_get_subhalo. rewrite Hhas, Hidx. cbn.
  erewrite run_bind by by apply run_get_halo.
  erewrite run_bind by by eapply find_descendant_missing.
  unfold bind. erewrite run_missing_descendant by done.
  destruct (skip_missing_descendants exec_params), (warn_on_missing_descendants exec_params);
    try done.
  - destruct (run_remove_subhalo (st_with_warnings (warnings σ ++ [
      msg_descendant_not_found (sh_descendant_id sr) subhalo d_halo (all_subhalos dhr)]) σ)
      halo subhalo hr Hh Hin) as (hr' & He & ->). by exists hr'.
  - destruct (run_remove_subhalo σ halo subhalo hr Hh Hin) as (hr' & He & ->).
    exists hr'. split; [done|]. by destruct σ.
Qed.

End LinkSubhaloClaims.
Section SnapshotOrder.
Context {R : Type} {SR : Scalar R}.
Implicit Types σ : state R.

(** The snapshots that [loop_through_halos] visits. It computes them
    from the halo population alone: they are strictly descending and
    are exactly the snapshots present in the population except the
    largest one. The skipped snapshot is the root snapshot, the first
    output snapshot, only when that snapshot is present and no halo is
    later. *)
Lemma linker_snapshot_order exec_params input (σ : state R) :
  (∀ h, h ∈ input → is_Some (halos σ !! h)) → input ≠ [] →
  ∃ processed,
    linker_snapshots input σ processed ∧
    loop_through_halos exec_params input σ =
      (let* idx := index_halos input in
       let* _ := for_each processed (link_snapshot exec_params idx.1) idx.2 in
       ret tt) σ ∧
    StronglySorted (λ a b, b < a) processed ∧
    (∃ top, snapshot_present σ input top ∧
            (∀ s, snapshot_present σ input s → s ≤ top) ∧
            ∀ s, s ∈ processed ↔ snapshot_present σ input s ∧ s ≠ top) ∧
    (∀ r rest, output_snapshots exec_params = r :: rest →
       snapshot_present σ input r → (∀ s, snapshot_present σ input s → s ≤ r) →
       skips_root_snapshot exec_params input σ processed).
Proof.
  intros Hv Hne. destruct (halo_snapshots_total _ _ Hv) as [set Hset].
  pose proof (halo_snapshots_Ret_inv _ _ _ _ Hset) as (_ & Hsorted & Hel).
  assert (is_Some (sorted_halo_snapshots set)) as [processed Hp].
  { unfold sorted_halo_snapshots. destruct (reverse set) eqn:E; [|by eexists].
    apply (f_equal reverse) in E. rewrite reverse_involutive in E. cbn in E. subst set.
    destruct input as [|h input]; [done|]. destruct (Hv h) as [hr Hh]; [left|].
    assert (h_snapshot hr ∈ @nil Z) as ?%elem_of_nil; [|done].
    apply Hel. exists h, hr. split; [left|done]. }
  destruct (sorted_halo_snapshots_spec _ _ Hsorted Hp) as (top & Htop & Hmax & Hdesc & Hproc).
  exists processed. split; [by exists set|]. split.
  { unfold loop_through_halos, bind at 1 4.
    destruct (index_halos input σ) as [[bs bi] σ'| | |] eqn:Hidx; [|done..].
    apply index_halos_Ret_inv in Hidx as (-> & _). unfold bind at 1. by rewrite Hset, Hp. }
  split; [done|]. split.
  { exists top. split; [by apply Hel|]. split; [intros s ?%Hel; by apply Hmax|].
    intros s. by rewrite Hproc, Hel. }
  intros r rest Hout Hr Hle. exists r, rest. split; [done|]. intros s.
  assert (r = top) as ->.
  { apply Z.le_antisymm; [by apply Hmax, Hel|]. by apply Hle, Hel. }
  by rewrite Hproc, Hel.
Qed.

End SnapshotOrder.

Section RootDescendants.
Context {R : Type} {SR : Scalar R}.
Implicit Types σ : state R.


End RootDescendants.
Section Central.
Context {R : Type} {SR : Scalar R}.
Implicit Types σ : state R.

(** ** Total correctness rules *)

Lemma total_ret {A} (P : state R → Prop) (a : A) (Q : A → state R → Prop) :
  (∀ σ, P σ → Q a σ) → total P (ret a) Q.
Proof. intros H σ Hσ. exists a, σ. auto. Qed.

Lemma total_bind {A B} (P : state R → Prop) (m : M R A) (k : A → M R B)
    (Q' : A → state R → Prop) (Q : B → state R → Prop) :
  total P m Q' → (∀ a, total (Q' a) (k a) Q) → total P (bind m k) Q.
Proof.
  intros Hm Hk σ Hσ. destruct (Hm σ Hσ) as (a & σ' & Hrun & HQ').
  destruct (Hk a σ' HQ') as (b & σ'' & Hrun' & HQ). exists b, σ''.
  split; [|done]. by erewrite run_bind.
Qed.

Lemma total_conseq {A} (P P' : state R → Prop) (m : M R A) (Q Q' : A → state R → Prop) :
  total P' m Q' → (∀ σ, P σ → P' σ) → (∀ a σ, Q' a σ → Q a σ) → total P m Q.
Proof.
  intros Hm HP HQ σ Hσ. destruct (Hm σ (HP σ Hσ)) as (a & σ' & ? & ?). exists a, σ'. auto.
Qed.

Lemma total_for_all {A} (I : state R → Prop) (l : list A) (body : A → M R unit) :
  (∀ x, x ∈ l → total I (body x) (λ _, I)) → total I (for_all l body) (λ _, I).
Proof.
  induction l as [|x l IH]; intros Hbody; cbn.
  - by apply total_ret.
  - eapply total_bind; [apply Hbody; left|]. intros ?. apply IH. intros. apply Hbody. by right.
Qed.

Lemma same_heap_refl σ : same_heap σ σ.
Proof.
  repeat split. exists (λ _ r, r). split; [apply pointwise_id|done].
Qed.

Lemma same_heap_trans σ1 σ2 σ3 : same_heap σ1 σ2 → same_heap σ2 σ3 → same_heap σ1 σ3.
Proof.
  intros (? & ? & ? & ? & f & Hf & Hfb) (? & ? & ? & ? & g & Hg & Hgb).
  repeat split; try congruence. exists (λ x r, g x (f x r)).
  split; [by eapply pointwise_trans|]. intros. by rewrite Hgb, Hfb.
Qed.

Lemma same_heap_bucket σ σ' t tr s :
  same_heap σ σ' → trees σ !! t = Some tr →
  ∃ tr', trees σ' !! t = Some tr' ∧ bucket tr' s = bucket tr s.
Proof.
  intros (_ & _ & _ & _ & f & Hf & Hfb) Ht. exists (f t tr).
  split; [by eapply pointwise_lookup_Some|]. apply Hfb.
Qed.

Lemma halos_at_total σ t tr s :
  trees σ !! t = Some tr →
  ∃ σ', halos_at t s σ = Ret (bucket tr s) σ' ∧ same_heap σ σ'.
Proof.
  intros Ht.
  assert (∃ σ', halos_at t s σ = Ret (bucket tr s) σ') as [σ' Hrun].
  { unfold halos_at. erewrite run_bind by by apply run_get_tree.
    unfold bucket. destruct (t_halos tr !! s) as [l|] eqn:El; cbn; [by eexists|].
    erewrite run_bind by by apply run_modify_tree. by eexists. }
  exists σ'. split; [done|].
  apply halos_at_Ret_inv in Hrun as (tr0 & ts & f & _ & _ & -> & Hf & Hfb).
  repeat split. by exists f.
Qed.

Lemma all_resolved_same_heap ts σ σ' :
  same_heap σ σ' → all_resolved ts σ → all_resolved ts σ'.
Proof.
  intros Hsame Hres t Ht. destruct (Hres t Ht) as (tr & Htr & Hb).
  pose proof Hsame as (Hh & _).
  destruct (same_heap_bucket _ _ _ _ 0 Hsame Htr) as (tr' & Htr' & _). exists tr'.
  split; [done|]. intros s h Hin.
  destruct (same_heap_bucket _ _ _ _ s Hsame Htr) as (tr'' & Htr'' & Hbk). simplify_eq.
  rewrite Hbk in Hin. rewrite Hh. by apply (Hb s).
Qed.

Lemma elem_of_snapshots_down hi lo s : s ∈ snapshots_down hi lo ↔ lo ≤ s ≤ hi.
Proof. unfold snapshots_down. rewrite elem_of_reverse, elem_of_seqZ. lia. Qed.

Lemma resolve_central_subhalos_resolved ts sim_params fuel σ :
  all_resolved ts σ → int_min < min_snapshot sim_params →
  ∃ σ', resolve_central_subhalos ts sim_params fuel σ = Ret tt σ' ∧ same_heap σ σ'.
Proof.
  intros Hres Hmin. unfold resolve_central_subhalos.
  assert (Htot : total (λ σ', same_heap σ σ' ∧ all_resolved ts σ')
    (for_all ts (λ tree,
       for_all (snapshots_down (max_snapshot sim_params) (min_snapshot sim_params))
         (λ snapshot,
            (let* hs := halos_at tree snapshot in for_all hs (resolve_halo fuel)) ;;;
            decrement snapshot)))
    (λ _ σ', same_heap σ σ' ∧ all_resolved ts σ')).
  { apply total_for_all. intros t Ht. apply total_for_all. intros s Hs%elem_of_snapshots_down.
    intros σ1 [Hs1 Hr1]. destruct (Hr1 t Ht) as (tr & Htr & Hb).
    destruct (halos_at_total σ1 t tr s Htr) as (σ2 & Hrun & Hs2).
    assert (Hr2 : all_resolved ts σ2) by (by eapply all_resolved_same_heap).
    assert (Hbody : total (λ σ', σ' = σ2) (for_all (bucket tr s) (resolve_halo fuel))
                      (λ _ σ', σ' = σ2)).
    { apply total_for_all. intros h Hin σ3 ->. destruct (Hb s h Hin) as (hr & Hhr & [c Hc]).
      exists tt, σ2. split; [|done]. unfold resolve_halo.
      destruct Hs2 as (Hh2 & _). rewrite <- Hh2 in Hhr.
      erewrite run_bind by by apply run_get_halo. by rewrite Hc. }
    destruct (Hbody σ2 eq_refl) as ([] & ? & Hrun' & ->).
    exists tt, σ2. split; [|split; [by eapply same_heap_trans|done]].
    erewrite run_bind; [apply run_decrement; lia|]. by erewrite run_bind. }
  destruct (Htot σ) as ([] & σ' & Hrun & Hs & _); [split; [apply same_heap_refl|done]|].
  by exists σ'.
Qed.

Lemma check_central_subhalos_skipped ts sim_params fuel σ :
  min_snapshot sim_params < max_snapshot sim_params →
  check_central_subhalos ts sim_params fuel σ = Ret tt σ.
Proof.
  intros Hlt. unfold check_central_subhalos. induction ts as [|t ts IH]; cbn; [done|].
  erewrite run_bind; [exact IH|]. destruct fuel; cbn.
  - by destruct (Z.geb_spec (min_snapshot sim_params) (max_snapshot sim_params)); [lia|].
  - by destruct (Z.geb_spec (min_snapshot sim_params) (max_snapshot sim_params)); [lia|].
Qed.

(** C9. On trees whose halos all have their central subhalo, with
    [min_snapshot] above the smallest [int] (so that the loop counter
    can step below it), the resolution loops of
    [define_central_subhalos] return and change no halo, no subhalo, no
    warning and no bucket (at most an empty bucket is created by
    [tree->halos[snapshot]]); so does the whole of
    [define_central_subhalos] when [min_snapshot < max_snapshot]. *)
Theorem define_central_subhalos_idempotent ts sim_params fuel σ :
  all_resolved ts σ → int_min < min_snapshot sim_params →
  (∃ σ', resolve_central_subhalos ts sim_params fuel σ = Ret tt σ' ∧ same_heap σ σ') ∧
  (min_snapshot sim_params < max_snapshot sim_params →
   ∃ σ', define_central_subhalos ts sim_params fuel σ = Ret tt σ' ∧ same_heap σ σ').
Proof.
  intros Hres Hmin.
  destruct (resolve_central_subhalos_resolved ts sim_params fuel σ Hres Hmin)
    as (σ' & Hrun & Hs).
  split; [by exists σ'|]. intros Hlt. exists σ'. split; [|done].
  unfold define_central_subhalos. erewrite run_bind by done.
  by apply check_central_subhalos_skipped.
Qed.

End Central.
Section Traversal.
Context {R : Type} {SR : Scalar R}.
Implicit Types σ : state R.

(** ** Passes over every halo of the forest *)

Lemma tree_blind_ret {A} (a : A) : tree_blind (R:=R) (ret a).
Proof. intros σa σb a' σa' Heq [-> ->]%ret_Ret_inv. by exists σb. Qed.

Lemma tree_blind_bind {A B} (m : M R A) (k : A → M R B) :
  tree_blind m → (∀ a, tree_blind (k a)) → tree_blind (bind m k).
Proof.
  intros Hm Hk σa σb b σa' Heq (a & σ1 & Hrun1 & Hrun2)%bind_Ret_inv.
  destruct (Hm _ _ _ _ Heq Hrun1) as (σb1 & Hb1 & Heq1 & Ht1).
  destruct (Hk a _ _ _ _ Heq1 Hrun2) as (σb' & Hb' & Heq' & Ht').
  exists σb'. split; [by erewrite run_bind|]. split; [done|congruence].
Qed.

Lemma tree_blind_throw {A} e : tree_blind (R:=R) (throw (A:=A) e).
Proof. by intros σa σb a σa' Heq Hrun. Qed.

Lemma tree_blind_undefined {A} : tree_blind (R:=R) (undefined (A:=A)).
Proof. by intros σa σb a σa' Heq Hrun. Qed.

Lemma tree_blind_get_halo h : tree_blind (R:=R) (get_halo h).
Proof.
  intros σa σb a σa' Heq [-> Hh]%get_halo_Ret_inv. exists σb.
  split; [|done]. apply run_get_halo. by destruct Heq as [<- _].
Qed.

Lemma tree_blind_get_subhalo s : tree_blind (R:=R) (get_subhalo s).
Proof.
  intros σa σb a σa' Heq [-> Hs]%get_subhalo_Ret_inv. exists σb.
  split; [|done]. apply run_get_subhalo. by destruct Heq as (_ & <- & _).
Qed.

Lemma tree_blind_modify_halo h f : tree_blind (R:=R) (modify_halo h f).
Proof.
  intros σa σb a σa' Heq (x & Hx & ->)%modify_halo_Ret_inv. destruct a.
  pose proof Heq as (Hh & Hs & Hw & Hb). eexists.
  split; [apply run_modify_halo; by rewrite <- Hh|]. rewrite <- Hh. by repeat split.
Qed.

Lemma tree_blind_modify_subhalo s f : tree_blind (R:=R) (modify_subhalo s f).
Proof.
  intros σa σb a σa' Heq (x & Hx & ->)%modify_subhalo_Ret_inv. destruct a.
  pose proof Heq as (Hh & Hs & Hw & Hb). eexists.
  split; [apply run_modify_subhalo; by rewrite <- Hs|]. rewrite <- Hs. by repeat split.
Qed.

Lemma same_buckets_refl ts0 : same_buckets ts0 ts0.
Proof. exists (λ _ r, r). split; [apply pointwise_id|done]. Qed.

Lemma same_buckets_trans ts0 ts1 ts2 :
  same_buckets ts0 ts1 → same_buckets ts1 ts2 → same_buckets ts0 ts2.
Proof.
  intros (f & Hf & Hfb) (g & Hg & Hgb). exists (λ x r, g x (f x r)).
  split; [by eapply pointwise_trans|]. intros. by rewrite Hgb, Hfb.
Qed.

Lemma same_buckets_lookup ts0 ts1 t tr :
  same_buckets ts0 ts1 → ts0 !! t = Some tr →
  ∃ tr', ts1 !! t = Some tr' ∧ ∀ s, bucket tr' s = bucket tr s.
Proof.
  intros (f & Hf & Hfb) Ht. exists (f t tr). split; [by eapply pointwise_lookup_Some|].
  intros. apply Hfb.
Qed.

Lemma for_all_app_Ret_inv {A} (l1 l2 : list A) (body : A → M R unit) σ u σ' :
  for_all (l1 ++ l2) body σ = Ret u σ' →
  ∃ σ1, for_all l1 body σ = Ret tt σ1 ∧ for_all l2 body σ1 = Ret u σ'.
Proof.
  rewrite for_all_app. intros ([] & σ1 & ? & ?)%bind_Ret_inv. by exists σ1.
Qed.

Lemma for_all_tree_blind (l : list hptr) (body : hptr → M R unit) :
  (∀ h, tree_blind (body h)) → tree_blind (for_all l body).
Proof.
  intros Hb. induction l as [|h l IH]; cbn.
  - apply tree_blind_ret.
  - apply tree_blind_bind; [apply Hb|]. intros _. apply IH.
Qed.

Lemma traverse_flatten (σ0 : state R) ts snaps body :
  (∀ h, tree_blind (body h)) →
  (∀ t, t ∈ ts → is_Some (trees σ0 !! t)) →
  ∀ σa σ σa',
    heap_eq σa σ → same_buckets (trees σ0) (trees σ) →
    for_all (visits σ0 ts snaps) body σa = Ret tt σa' →
    ∃ σ', traverse ts snaps body σ = Ret tt σ' ∧ heap_eq σa' σ' ∧
          same_buckets (trees σ0) (trees σ').
Proof.
  intros Hblind. unfold traverse, visits.
  induction ts as [|t ts IH]; intros Hv σa σ σa' Heq Hsb Hrun; cbn in *.
  { apply ret_Ret_inv in Hrun as [_ ->]. by exists σ. }
  destruct (Hv t) as [tr Htr]; [left|]. rewrite Htr in Hrun.
  apply for_all_app_Ret_inv in Hrun as (σa1 & Hrun1 & Hrun2).
  assert (∃ σ1, for_all snaps (λ snapshot,
              let* hs := halos_at t snapshot in for_all hs body) σ = Ret tt σ1 ∧
            heap_eq σa1 σ1 ∧ same_buckets (trees σ0) (trees σ1)) as (σ1 & Hn1 & Heq1 & Hsb1).
  { clear Hrun2 IH. revert σa σ Heq Hsb Hrun1.
    induction snaps as [|s snaps IHs]; intros σa σ Heq Hsb Hrun1; cbn in *.
    { apply ret_Ret_inv in Hrun1 as [_ ->]. by exists σ. }
    apply for_all_app_Ret_inv in Hrun1 as (σa2 & Hb & Hrest).
    destruct (same_buckets_lookup _ _ _ _ Hsb Htr) as (tr' & Htr' & Hbk).
    destruct (halos_at_total σ t tr' s Htr') as (σ2 & Hat & Hs2).
    rewrite Hbk in Hat.
    assert (heap_eq σa σ2) as Heq2.
    { destruct Heq as (? & ? & ? & ?), Hs2 as (? & ? & ? & ? & _).
      repeat split; congruence. }
    destruct (for_all_tree_blind _ _ Hblind _ _ _ _ Heq2 Hb) as (σ3 & Hb3 & Heq3 & Ht3).
    assert (same_buckets (trees σ0) (trees σ3)) as Hsb3.
    { rewrite Ht3. eapply same_buckets_trans; [exact Hsb|]. by destruct Hs2 as (_ & _ & _ & _ & ?). }
    destruct (IHs _ _ Heq3 Hsb3 Hrest) as (σ4 & Hn4 & Heq4 & Hsb4).
    exists σ4. split; [|done]. erewrite run_bind; [exact Hn4|]. by erewrite run_bind. }
  destruct (IH (λ t' Ht', Hv t' (list_elem_of_further _ _ _ Ht')) _ _ _ Heq1 Hsb1 Hrun2)
    as (σ' & Hn & Heq' & Hsb').
  exists σ'. split; [|done]. by erewrite run_bind.
Qed.

Lemma for_all_ext {A} (l : list A) (f g : A → M R unit) σ :
  (∀ x σ', x ∈ l → f x σ' = g x σ') → for_all l f σ = for_all l g σ.
Proof.
  revert σ. induction l as [|x l IH]; intros σ Hfg; cbn; [done|].
  unfold bind. rewrite Hfg by left. destruct (g x σ) as [u σ1| | |]; [|done..].
  apply IH. intros y σ' Hy. apply Hfg. by right.
Qed.

(** Where the counter never reaches the smallest [int], the loops
    [for (snapshot = hi; snapshot >= lo; snapshot--)] within every tree
    are a traversal. *)
Lemma traverse_decrement ts snaps body σ :
  (∀ s, s ∈ snaps → s ≠ int_min) →
  for_all ts (λ tree,
    for_all snaps (λ snapshot,
      (let* hs := halos_at tree snapshot in for_all hs body) ;;;
      decrement snapshot)) σ =
  traverse ts snaps body σ.
Proof.
  intros Hs. unfold traverse. apply for_all_ext. intros t σ1 _.
  apply for_all_ext. intros s σ2 Hin. unfold bind at 1.
  destruct ((let* hs := halos_at t s in for_all hs body) σ2) as [[] σ3| | |]; [|done..].
  apply run_decrement. by apply Hs.
Qed.

(** Such loops return only if the traversal does, and then in the
    same state. *)
Lemma traverse_decrement_Ret_inv ts snaps body σ u σ' :
  for_all ts (λ tree,
    for_all snaps (λ snapshot,
      (let* hs := halos_at tree snapshot in for_all hs body) ;;;
      decrement snapshot)) σ = Ret u σ' →
  traverse ts snaps body σ = Ret u σ'.
Proof.
  unfold traverse. revert σ. induction ts as [|t ts IH]; intros σ; cbn; [done|].
  intros ([] & σ1 & Hrun1 & Hrun2)%bind_Ret_inv.
  erewrite run_bind; [by apply IH|]. clear Hrun2 IH. revert σ Hrun1.
  induction snaps as [|s snaps IHs]; intros σ; cbn; [done|].
  intros ([] & σ2 & Hrun2 & Hrun3)%bind_Ret_inv.
  apply bind_Ret_inv in Hrun2 as ([] & σ3 & Hrun2 & [-> _]%decrement_Ret_inv).
  erewrite run_bind by exact Hrun2. by apply IHs.
Qed.

Lemma elem_of_visits σ ts snaps h :
  h ∈ visits σ ts snaps ↔
  ∃ t tr s, t ∈ ts ∧ s ∈ snaps ∧ trees σ !! t = Some tr ∧ h ∈ bucket tr s.
Proof.
  unfold visits. rewrite list_elem_of_bind. split.
  - intros (t & (s & Hin & Hs)%list_elem_of_bind & Ht).
    destruct (trees σ !! t) as [tr|] eqn:E; [|by apply elem_of_nil in Hin].
    by exists t, tr, s.
  - intros (t & tr & s & Ht & Hs & Htr & Hin). exists t. split; [|done].
    apply list_elem_of_bind. exists s. by rewrite Htr.
Qed.



End Traversal.
Section MassGrowth.
Context {R : Type} {SR : Scalar R} {SO : ScalarOrder R}.
Implicit Types σ : state R.













End MassGrowth.
Section Accretion.
Context {R : Type} {SR : Scalar R} {SO : ScalarOrder R}.
Implicit Types σ : state R.

Lemma accumulate_Mvir_run σ l mass :
  (∀ a, a ∈ l → is_Some (halos σ !! a)) →
  accumulate_Mvir l mass σ = Ret (sum_Mvir (halos σ) l mass) σ.
Proof.
  revert mass. induction l as [|a l IH]; intros mass Hv; cbn; [done|].
  destruct (Hv a) as [hr Hh]; [left|]. rewrite Hh.
  erewrite run_bind by by apply run_get_halo. apply IH. intros. apply Hv. by right.
Qed.

Lemma clamp_max (x : R) : (if s_ltb x s_zero then s_zero else x) = s_max s_zero x.
Proof.
  unfold s_max. destruct (s_ltb x s_zero) eqn:E1, (s_ltb s_zero x) eqn:E2; try done.
  - pose proof (s_ltb_trans _ _ _ E1 E2) as Hc. by rewrite s_ltb_irrefl in Hc.
  - by apply s_ltb_total.
Qed.

Lemma s_max_zero_not_negative (x : R) : s_ltb (s_max s_zero x) s_zero = false.
Proof.
  rewrite <- clamp_max. destruct (s_ltb x s_zero) eqn:E; [apply s_ltb_irrefl|done].
Qed.

Lemma sh_with_accreted_mass_id (r : Subhalo R) :
  sh_with_accreted_mass (sh_accreted_mass r) r = r.
Proof. by destruct r. Qed.

Lemma accreted_refl σ : accreted [] σ σ.
Proof.
  repeat split. intros x. destruct (subhalos σ !! x) as [r|]; [|done].
  by rewrite sh_with_accreted_mass_id.
Qed.

Lemma accreted_lookup l σ σ' x r :
  accreted l σ σ' → subhalos σ !! x = Some r →
  ∃ r', subhalos σ' !! x = Some r' ∧
        ((∀ h hr, h ∈ l → halos σ !! h = Some hr → h_central_subhalo hr ≠ Some x) → r' = r).
Proof.
  intros (_ & _ & _ & _ & H) Hx. specialize (H x). rewrite Hx in H.
  destruct (subhalos σ' !! x) as [r'|]; [|done]. exists r'. naive_solver.
Qed.

Lemma define_accreted_mass_run ubf σ h hr c cr :
  halos σ !! h = Some hr → (∀ a, a ∈ h_ascendants hr → is_Some (halos σ !! a)) →
  h_central_subhalo hr = Some c → subhalos σ !! c = Some cr →
  ∃ σ', define_accreted_mass ubf h σ = Ret tt σ' ∧ accreted [h] σ σ' ∧
    ∃ cr', subhalos σ' !! c = Some cr' ∧
           sh_accreted_mass cr' = accreted_target ubf (halos σ) hr.
Proof.
  intros Hh Hasc Hc Hcr. unfold define_accreted_mass.
  erewrite run_bind by by apply run_get_halo.
  erewrite run_bind by (apply accumulate_Mvir_run; intros a Ha%elem_of_elements; by apply Hasc).
  rewrite Hc. erewrite run_bind by by apply run_modify_subhalo.
  set (x := s_mul (s_sub (h_Mvir hr) (sum_Mvir (halos σ) (elements (h_ascendants hr)) s_zero))
              ubf).
  set (σ1 := st_with_subhalos (<[c := sh_with_accreted_mass x cr]> (subhalos σ)) σ).
  assert (Hc1 : subhalos σ1 !! c = Some (sh_with_accreted_mass x cr)).
  { apply list_lookup_insert_eq. by eapply lookup_lt_Some. }
  erewrite run_bind by by apply run_get_subhalo. cbn [sh_accreted_mass sh_with_accreted_mass].
  assert (Hfinal : ∀ v, accreted [h] σ
     (st_with_subhalos (<[c := sh_with_accreted_mass v cr]> (subhalos σ)) σ)).
  { intros v. repeat split. intros y. cbn. destruct (decide (y = c)) as [->|Hne].
    - rewrite Hcr, list_lookup_insert_eq by (by eapply lookup_lt_Some).
      split; [done|]. intros Hno. exfalso. eapply Hno; [left|done..].
    - rewrite list_lookup_insert_ne by done. destruct (subhalos σ !! y); [|done].
      by rewrite sh_with_accreted_mass_id. }
  unfold accreted_target. fold x. rewrite <- clamp_max.
  destruct (s_ltb x s_zero) eqn:E.
  - erewrite run_modify_subhalo by done. eexists. split; [done|]. cbn.
    rewrite list_insert_insert_eq. split; [apply Hfinal|].
    eexists. split; [apply list_lookup_insert_eq; by eapply lookup_lt_Some|done].
  - exists σ1. split; [done|]. split; [apply Hfinal|]. by eexists.
Qed.

Lemma accrete_list ubf (l : list hptr) σ :
  accretable l σ → central_injective σ →
  ∃ σ', for_all l (define_accreted_mass ubf) σ = Ret tt σ' ∧ accreted l σ σ' ∧
    ∀ h hr c, h ∈ l → halos σ !! h = Some hr → h_central_subhalo hr = Some c →
      ∃ cr', subhalos σ' !! c = Some cr' ∧
             sh_accreted_mass cr' = accreted_target ubf (halos σ) hr.
Proof.
  revert σ. induction l as [|a l IH]; intros σ Hacc Hinj.
  { exists σ. split; [done|]. split; [apply accreted_refl|]. by intros h hr c ?%elem_of_nil. }
  destruct (Hacc a) as (ar & c & cr & Ha & Hasc & Hc & Hcr); [left|].
  destruct (define_accreted_mass_run ubf σ a ar c cr Ha Hasc Hc Hcr)
    as (σ1 & Hrun1 & Hr1 & cr1 & Hcr1 & Hval1).
  pose proof Hr1 as (Hh1 & _).
  assert (Hacc1 : accretable l σ1).
  { intros h Hin. destruct (Hacc h) as (hr & e & er & ? & ? & ? & Her); [by right|].
    destruct (accreted_lookup _ _ _ _ _ Hr1 Her) as (er1 & Her1 & _).
    exists hr, e, er1. rewrite Hh1. done. }
  assert (Hinj1 : central_injective σ1).
  { unfold central_injective. rewrite Hh1. exact Hinj. }
  destruct (IH σ1 Hacc1 Hinj1) as (σ' & Hrun & Hr & Hval).
  exists σ'. split; [cbn; by erewrite run_bind|].
  pose proof Hr as (Hh' & _).
  split.
  { destruct Hr1 as (? & ? & ? & ? & Hx1), Hr as (? & ? & ? & ? & Hx2).
    repeat split; try congruence. intros y. pose proof (Hx1 y) as Hy1.
    pose proof (Hx2 y) as Hy2.
    destruct (subhalos σ !! y) as [r|], (subhalos σ1 !! y) as [r1|], (subhalos σ' !! y) as [r'|];
      try done.
    destruct Hy1 as (E1 & Hsame1), Hy2 as (E2 & Hsame2).
    split; [rewrite E2, E1; done|]. intros Hno. rewrite Hsame2, Hsame1; [done| |].
    - intros h hr [->|?%elem_of_nil]%elem_of_cons; [|done]. apply Hno. left.
    - intros h hr Hin. rewrite Hh1. apply Hno. by right. }
  intros h hr e Hin Hhr He.
  destruct (decide (h ∈ l)) as [Hl|Hnl].
  { rewrite <- Hh1. apply (Hval h hr e); [done| |done]. by rewrite Hh1. }
  apply elem_of_cons in Hin as [->|?]; [|done].
  assert (hr = ar) as -> by congruence. assert (e = c) as -> by congruence.
  destruct (accreted_lookup _ _ _ _ _ Hr Hcr1) as (cr' & Hcr' & Hsame).
  exists cr'. split; [done|]. rewrite Hsame; [done|].
  intros h' hr' Hin' Hh1' Hc'. rewrite Hh1 in Hh1'.
  apply Hnl. by rewrite <- (Hinj h' a hr' ar c).
Qed.

Lemma accumulate_Mvir_tree_blind l (mass : R) : tree_blind (accumulate_Mvir l mass).
Proof.
  revert mass. induction l as [|a l IH]; intros mass; cbn.
  - apply tree_blind_ret.
  - apply tree_blind_bind; [apply tree_blind_get_halo|]. intros ?. apply IH.
Qed.

Lemma define_accreted_mass_tree_blind ubf h :
  tree_blind (define_accreted_mass (R:=R) ubf h).
Proof.
  unfold define_accreted_mass.
  apply tree_blind_bind; [apply tree_blind_get_halo|]. intros hr.
  apply tree_blind_bind; [apply accumulate_Mvir_tree_blind|]. intros m.
  destruct (h_central_subhalo hr) as [c|]; [|apply tree_blind_undefined].
  apply tree_blind_bind; [apply tree_blind_modify_subhalo|]. intros ?.
  apply tree_blind_bind; [apply tree_blind_get_subhalo|]. intros cs.
  destruct (s_ltb _ _); [apply tree_blind_modify_subhalo|apply tree_blind_ret].
Qed.

Lemma total_for_each {A S} (I : state R → Prop) (l : list A)
    (body : A → S → M R (ctl * S)) (acc : S) :
  (∀ x a, x ∈ l → total I (body x a) (λ _, I)) → total I (for_each l body acc) (λ _, I).
Proof.
  revert acc. induction l as [|x l IH]; intros acc Hbody; cbn.
  - by apply total_ret.
  - eapply total_bind; [apply Hbody; left|]. intros [[] acc'].
    + apply IH. intros. apply Hbody. by right.
    + by apply total_ret.
Qed.

(** The sum over all centrals that closes the pass returns. *)
Lemma total_baryon_loop_total ts sim_params σ0 :
  (∀ t, t ∈ ts → ∃ tr, trees σ0 !! t = Some tr ∧
     ∀ s h, min_snapshot sim_params ≤ s ≤ max_snapshot sim_params → h ∈ bucket tr s →
       ∃ hr c cr, halos σ0 !! h = Some hr ∧ h_central_subhalo hr = Some c ∧
                  subhalos σ0 !! c = Some cr) →
  max_snapshot sim_params < int_max →
  ∀ acc0, total
    (λ σ, halos σ = halos σ0 ∧ subhalos σ = subhalos σ0 ∧ same_buckets (trees σ0) (trees σ))
    (for_each
       (seqZ (min_snapshot sim_params) (max_snapshot sim_params - min_snapshot sim_params + 1))
       (λ snapshot total_baryon_accreted,
          let* total := for_each ts (λ tree total,
              let* hs := halos_at tree snapshot in
              let* total' := for_each hs add_accreted_mass total in
              ret (Next, total')) total_baryon_accreted in
          set_baryon_total_created snapshot total ;;;
          increment snapshot ;;;
          ret (Next, total)) acc0)
    (λ _ σ, halos σ = halos σ0 ∧ subhalos σ = subhalos σ0 ∧
            same_buckets (trees σ0) (trees σ)).
Proof.
  intros Hv Hmax acc0. apply total_for_each. intros s acc Hs.
  apply elem_of_seqZ in Hs.
  assert (Hinner : total
     (λ σ, halos σ = halos σ0 ∧ subhalos σ = subhalos σ0 ∧ same_buckets (trees σ0) (trees σ))
     (for_each ts (λ tree total,
        let* hs := halos_at tree s in
        let* total' := for_each hs add_accreted_mass total in
        ret (Next, total')) acc)
     (λ _ σ, halos σ = halos σ0 ∧ subhalos σ = subhalos σ0 ∧
             same_buckets (trees σ0) (trees σ))).
  { apply total_for_each. intros t a Ht σ (Hh & Hsub & Hsb).
    destruct (Hv t Ht) as (tr & Htr & Hb).
    destruct (same_buckets_lookup _ _ _ _ Hsb Htr) as (tr' & Htr' & Hbk).
    destruct (halos_at_total σ t tr' s Htr') as (σ1 & Hrun1 & Hh1 & Hs1 & _ & _ & Hsb1).
    erewrite run_bind by exact Hrun1. rewrite Hbk.
    assert (HI1 : halos σ1 = halos σ0 ∧ subhalos σ1 = subhalos σ0 ∧
                  same_buckets (trees σ0) (trees σ1)).
    { split; [congruence|]. split; [congruence|]. by eapply same_buckets_trans. }
    assert (Hin : total
       (λ σ, halos σ = halos σ0 ∧ subhalos σ = subhalos σ0 ∧ same_buckets (trees σ0) (trees σ))
       (for_each (bucket tr s) add_accreted_mass a)
       (λ _ σ, halos σ = halos σ0 ∧ subhalos σ = subhalos σ0 ∧
               same_buckets (trees σ0) (trees σ))).
    { apply total_for_each. intros h b Hin σ2 (Hh2 & Hs2 & Hsb2).
      destruct (Hb s h) as (hr & c & cr & Hhr & Hc & Hcr); [lia|done|].
      unfold add_accreted_mass. erewrite run_bind by (apply run_get_halo; by rewrite Hh2).
      rewrite Hc. erewrite run_bind by (apply run_get_subhalo; by rewrite Hs2).
      by eexists _, _. }
    destruct (Hin σ1 HI1) as (v & σ2 & Hrun2 & HI2).
    erewrite run_bind by exact Hrun2. by eexists _, _. }
  intros σ HI. destruct (Hinner σ HI) as (v & σ1 & Hrun1 & HI1).
  erewrite run_bind by exact Hrun1.
  erewrite (run_bind (set_baryon_total_created _ _)) by reflexivity.
  erewrite run_bind by (apply run_increment; lia). by eexists _, _.
Qed.

(** C3. On trees whose halos between [min_snapshot] and
    [max_snapshot] have live ascendants and a central subhalo of their
    own, with [min_snapshot] above the smallest and [max_snapshot]
    below the largest [int] (so that the loop counters can step past
    them), [define_accretion_rate_from_dm] returns, and afterwards the
    central subhalo of each of these halos has
    [accreted_mass = max(0, (Mvir - sum of the ascendants' Mvir) *
    universal_baryon_fraction)], which is not negative; the pass
    changes no halo and, of a subhalo, only [accreted_mass]. The order
    relation on masses is a strict total order. *)
Theorem accreted_mass_is_clamped_baryon_share ts sim_params ubf σ :
  accretion_ready ts sim_params σ →
  int_min < min_snapshot sim_params → max_snapshot sim_params < int_max →
  ∃ σ', define_accretion_rate_from_dm ts sim_params ubf σ = Ret tt σ' ∧
    halos σ' = halos σ ∧
    (∀ t tr s h hr c, t ∈ ts → trees σ !! t = Some tr →
       min_snapshot sim_params ≤ s ≤ max_snapshot sim_params → h ∈ bucket tr s →
       halos σ !! h = Some hr → h_central_subhalo hr = Some c →
       ∃ cr', subhalos σ' !! c = Some cr' ∧
              sh_accreted_mass cr' = accreted_target ubf (halos σ) hr ∧
              s_le s_zero (sh_accreted_mass cr')) ∧
    (∀ x r, subhalos σ !! x = Some r →
       ∃ r', subhalos σ' !! x = Some r' ∧
             r' = sh_with_accreted_mass (sh_accreted_mass r') r).
Proof.
  intros [Hready Hinj] Hmin Hmax.
  set (snaps := snapshots_down (max_snapshot sim_params) (min_snapshot sim_params)).
  assert (Hsnaps : ∀ s, s ∈ snaps ↔
            min_snapshot sim_params ≤ s ≤ max_snapshot sim_params).
  { intros s. unfold snaps, snapshots_down. rewrite elem_of_reverse, elem_of_seqZ. lia. }
  set (l := visits σ ts snaps).
  assert (Hacc : accretable l σ).
  { intros h (t & tr & s & Ht & Hs%Hsnaps & Htr & Hin)%elem_of_visits.
    destruct (Hready t Ht) as (tr' & Htr' & Hb). assert (tr' = tr) as -> by congruence.
    by apply (Hb s h). }
  destruct (accrete_list ubf l σ Hacc Hinj) as (σa & Hflat & Hr & Hval).
  destruct (traverse_flatten σ ts snaps (define_accreted_mass ubf)
              (define_accreted_mass_tree_blind ubf)) with
    (σa := σ) (σ := σ) (σa' := σa) as (σ1 & Hrun1 & Heq1 & Hsb1);
    [|done|apply same_buckets_refl|done|].
  { intros t Ht. destruct (Hready t Ht) as (tr & ? & _). by exists tr. }
  destruct Heq1 as (Hh1 & Hs1 & _). pose proof Hr as (Hha & _).
  assert (Hlive1 : ∀ x r, subhalos σ !! x = Some r →
            ∃ r', subhalos σ1 !! x = Some r' ∧
                  r' = sh_with_accreted_mass (sh_accreted_mass r') r).
  { intros x r Hx. destruct Hr as (_ & _ & _ & _ & Hp). specialize (Hp x).
    rewrite Hx, Hs1 in Hp. destruct (subhalos σ1 !! x) as [r'|]; [|done].
    exists r'. by destruct Hp. }
  destruct (total_baryon_loop_total ts sim_params σ1) with (acc0 := s_zero (R:=R)) (σ := σ1)
    as (v & σ' & Hrun2 & Hh2 & Hs2 & _).
  { intros t Ht. destruct (Hready t Ht) as (tr & Htr & Hb).
    destruct (same_buckets_lookup _ _ _ _ Hsb1 Htr) as (tr1 & Htr1 & Hbk).
    exists tr1. split; [done|]. intros s h Hs Hin. rewrite Hbk in Hin.
    destruct (Hb s h Hs Hin) as (hr & c & cr & ? & _ & ? & Hcr).
    destruct (Hlive1 c cr Hcr) as (cr1 & ? & _).
    exists hr, c, cr1. by rewrite <- Hh1, Hha. }
  { done. }
  { repeat split. apply same_buckets_refl. }
  exists σ'. split.
  { unfold define_accretion_rate_from_dm. fold snaps.
    erewrite run_bind; [|rewrite traverse_decrement; [exact Hrun1|]].
    - by erewrite run_bind by exact Hrun2.
    - intros s Hs%Hsnaps. lia. }
  rewrite Hh2, Hs2, <- Hh1, <- Hs1. split; [done|]. split.
  - intros t tr s h hr c Ht Htr Hs Hin Hhr Hc.
    destruct (Hval h hr c) as (cr' & Hcr' & Hm); [|done..|].
    { apply elem_of_visits. exists t, tr, s. by rewrite Hsnaps. }
    exists cr'. split; [done|]. split; [done|]. rewrite Hm.
    apply s_max_zero_not_negative.
  - intros x r Hx. rewrite Hs1. by apply Hlive1.
Qed.

End Accretion.
Section LinkLocal.
Context {R : Type} {SR : Scalar R}.
Implicit Types σ : state R.

Lemma run_add_halo σ t h hr tr :
  halos σ !! h = Some hr → trees σ !! t = Some tr →
  add_halo t h σ =
    Ret tt (st_with_trees
      (<[t := t_with_halos (<[h_snapshot hr := bucket tr (h_snapshot hr) ++ [h]]> (t_halos tr)) tr]>
         (trees σ)) σ).
Proof.
  intros Hh Ht. unfold add_halo. erewrite run_bind by by apply run_get_halo.
  by erewrite run_modify_tree.
Qed.

(** C6. [link] throws [invalid_data] when the parent subhalo already
    has a descendant; otherwise it throws [invalid_data] when the
    parent halo already has a descendant halo whose id differs from the
    id of the given one; otherwise it throws [invalid_data] when the
    descendant halo has no merger tree; otherwise (the parent halo has
    no descendant yet, or one with the same id) it returns, with the
    subhalos, halos and trees updated as [link_subhalo_update],
    [link_halo_update] and [link_tree_update] say. *)
Theorem link_single_descendant σ ps ds ph dh psr dsr phr dhr :
  subhalos σ !! ps = Some psr → subhalos σ !! ds = Some dsr →
  halos σ !! ph = Some phr → halos σ !! dh = Some dhr →
  (∀ d, sh_descendant psr = Some d →
     link ps ds ph dh σ = Throw (invalid_data (msg_subhalo_has_descendant ps d ds))) ∧
  (∀ d dr, sh_descendant psr = None → h_descendant phr = Some d → halos σ !! d = Some dr →
     h_id dr ≠ h_id dhr →
     link ps ds ph dh σ = Throw (invalid_data (msg_halo_has_descendant ph d dh))) ∧
  (sh_descendant psr = None →
   (∀ d, h_descendant phr = Some d → ∃ dr, halos σ !! d = Some dr ∧ h_id dr = h_id dhr) →
   h_merger_tree dhr = None →
     link ps ds ph dh σ = Throw (invalid_data (msg_no_merger_tree dh))) ∧
  (sh_descendant psr = None →
   (∀ d, h_descendant phr = Some d → ∃ dr, halos σ !! d = Some dr ∧ h_id dr = h_id dhr) →
   ∀ t, h_merger_tree dhr = Some t → is_Some (trees σ !! t) →
     ∃ σ', link ps ds ph dh σ = Ret tt σ' ∧
       pointwise (link_subhalo_update ps ds) (subhalos σ) (subhalos σ') ∧
       pointwise (link_halo_update ph dh t) (halos σ) (halos σ') ∧
       pointwise (link_tree_update ph (h_snapshot phr) (bool_decide (ph ∉ h_ascendants dhr)) t)
         (trees σ) (trees σ')).
Proof.
  intros Hps Hds Hph Hdh.
  (* the state after the push_back, and the parent subhalo read from it *)
  set (σ1 := st_with_subhalos
     (<[ds := sh_with_ascendants (sh_ascendants dsr ++ [ps]) dsr]> (subhalos σ)) σ).
  assert (H1 : ∃ psr', subhalos σ1 !! ps = Some psr' ∧ sh_descendant psr' = sh_descendant psr).
  { eexists. split; [by apply lookup_modify|]. case_decide; simplify_eq; done. }
  destruct H1 as (psr' & Hps' & Hdesc').
  assert (Hrun1 : ∀ A (k : Subhalo R → M R A),
     (modify_subhalo ds (λ s, sh_with_ascendants (sh_ascendants s ++ [ps]) s) ;;;
      let* x := get_subhalo ps in k x) σ = k psr' σ1).
  { intros. erewrite run_bind by by apply run_modify_subhalo.
    by erewrite run_bind by by apply run_get_subhalo. }
  split.
  { intros d Hd. unfold link. rewrite Hrun1, Hdesc', Hd. done. }
  set (σ2 := st_with_subhalos (<[ps := sh_with_descendant (Some ds) psr']> (subhalos σ1)) σ1).
  set (σ3 := st_with_halos
     (<[dh := h_with_ascendants (hset_insert ph (h_ascendants dhr)).1 dhr]> (halos σ2)) σ2).
  assert (H3 : ∃ phr', halos σ3 !! ph = Some phr' ∧ h_descendant phr' = h_descendant phr).
  { eexists. split; [by apply lookup_modify|]. case_decide; simplify_eq; done. }
  destruct H3 as (phr' & Hph' & Hhdesc').
  assert (H3d : ∃ dhr', halos σ3 !! dh = Some dhr' ∧ h_id dhr' = h_id dhr
                         ∧ h_merger_tree dhr' = h_merger_tree dhr).
  { eexists. split; [by apply lookup_modify|]. rewrite decide_True; done. }
  destruct H3d as (dhr' & Hdh' & Hid' & Htree').
  assert (Hrun3 : sh_descendant psr = None →
     link ps ds ph dh σ =
     ((match h_descendant phr' with
       | Some d =>
           let* dd := get_halo d in
           let* dh' := get_halo dh in
           if decide (h_id dd = h_id dh') then ret tt
           else throw (invalid_data (msg_halo_has_descendant ph d dh))
       | None => ret tt
       end) ;;;
      modify_halo ph (h_with_descendant (Some dh)) ;;;
      let* dh'' := get_halo dh in
      match h_merger_tree dh'' with
      | None => throw (invalid_data (msg_no_merger_tree dh))
      | Some tree =>
          modify_halo ph (h_with_merger_tree (Some tree)) ;;;
          if (hset_insert ph (h_ascendants dhr)).2 then add_halo tree ph else ret tt
      end) σ3).
  { intros Hnone. unfold link. rewrite Hrun1, Hdesc', Hnone.
    erewrite run_bind by by apply run_modify_subhalo.
    erewrite run_bind by (apply run_get_halo; exact Hdh).
    erewrite run_bind by (apply run_modify_halo; exact Hdh).
    by erewrite run_bind by (apply run_get_halo; exact Hph'). }
  split.
  { intros d dr Hnone Hd Hdr Hne. rewrite (Hrun3 Hnone).
    rewrite Hhdesc', Hd.
    assert (∃ dr', halos σ3 !! d = Some dr' ∧ h_id dr' = h_id dr) as (dr' & Hdr' & Hidr).
    { eexists. split; [by apply lookup_modify|]. case_decide; simplify_eq; done. }
    apply run_bind_Throw.
    erewrite run_bind by by apply run_get_halo.
    erewrite run_bind by by apply run_get_halo.
    rewrite decide_False by congruence. done. }
  (* the halo-level check passes *)
  assert (Hcheck : (∀ d, h_descendant phr = Some d →
              ∃ dr, halos σ !! d = Some dr ∧ h_id dr = h_id dhr) →
     (match h_descendant phr' with
       | Some d =>
           let* dd := get_halo d in
           let* dh' := get_halo dh in
           if decide (h_id dd = h_id dh') then ret tt
           else throw (invalid_data (msg_halo_has_descendant ph d dh))
       | None => ret tt
       end) σ3 = Ret tt σ3).
  { intros Hsame. rewrite Hhdesc'. destruct (h_descendant phr) as [d|] eqn:Hd; [|done].
    destruct (Hsame d eq_refl) as (dr & Hdr & Hidr).
    assert (∃ dr', halos σ3 !! d = Some dr' ∧ h_id dr' = h_id dr) as (dr' & Hdr' & Hidr').
    { eexists. split; [by apply lookup_modify|]. case_decide; simplify_eq; done. }
    erewrite run_bind by by apply run_get_halo.
    erewrite run_bind by by apply run_get_halo.
    rewrite decide_True by congruence. done. }
  set (σ4 := st_with_halos (<[ph := h_with_descendant (Some dh) phr']> (halos σ3)) σ3).
  assert (H4 : ∃ dhr4, halos σ4 !! dh = Some dhr4 ∧ h_merger_tree dhr4 = h_merger_tree dhr).
  { eexists. split; [by apply lookup_modify|]. case_decide; simplify_eq; done. }
  destruct H4 as (dhr4 & Hdh4 & Htree4).
  assert (H4p : is_Some (halos σ4 !! ph)).
  { apply lookup_lt_is_Some. cbn. rewrite !length_insert. by eapply lookup_lt_Some. }
  destruct H4p as [phr4 Hph4].
  split.
  { intros Hnone Hsame Htree. rewrite (Hrun3 Hnone).
    erewrite run_bind by by apply Hcheck.
    erewrite run_bind by by apply run_modify_halo.
    erewrite run_bind by by apply run_get_halo.
    by rewrite Htree4, Htree. }
  intros Hnone Hsame t Htree [tr Htr].
  assert (∃ σ', link ps ds ph dh σ = Ret tt σ') as [σ' Hrun]; last first.
  { exists σ'. split; [done|].
    apply link_Ret_inv in Hrun
      as (psr0 & phr0 & dhr0 & t0 & ? & ? & ? & _ & _ & _ & ? & Hs & Hh & Ht & _).
    assert (phr0 = phr) as -> by congruence. assert (dhr0 = dhr) as -> by congruence.
    assert (t0 = t) as -> by congruence. done. }
  rewrite (Hrun3 Hnone).
  erewrite run_bind by by apply Hcheck.
  erewrite run_bind by by apply run_modify_halo.
  erewrite run_bind by by apply run_get_halo.
  rewrite Htree4, Htree.
  erewrite run_bind by by apply run_modify_halo.
  destruct (hset_insert ph (h_ascendants dhr)).2; [|by eexists].
  eexists. eapply run_add_halo; [|exact Htr].
  cbn. apply list_lookup_insert_eq. rewrite length_insert.
  by eapply lookup_lt_Some.
Qed.
End LinkLocal.
Section SelfContainment.
Context {R : Type} {SR : Scalar R}.
Implicit Types σ : state R.

(** Self-containment where the linker skips the root snapshot. In a
    forest that [build_trees] returns for a population with no halo
    later than the root snapshot, built from an empty set of trees, a
    halo listed in a bucket of a tree refers to that tree, sits at the
    bucket's snapshot, is listed there once, and is listed in no other
    bucket of the forest; [link] appends the
    parent halo to the bucket of its snapshot in the descendant's tree
    exactly when the parent was not yet among the descendant halo's
    ascendants, and leaves every other bucket alone; and
    [ensure_trees_are_self_contained] throws [invalid_data] for the
    first halo, in the order of the trees, their snapshots and their
    buckets, whose tree reference is not the tree that lists it, and
    returns when there is none. *)
Lemma forest_is_self_contained :
  (∀ exec_params input sim_params ubf fuel (σi σf : state R) forest r rest,
     trees σi = [] → output_snapshots exec_params = r :: rest →
     (∀ h hr, h ∈ input → halos σi !! h = Some hr → h_snapshot hr ≤ r) →
     build_trees exec_params input sim_params ubf fuel σi = Ret forest σf →
     ∀ t tr s h, t ∈ forest → trees σf !! t = Some tr → h ∈ bucket tr s →
       ∃ hr, halos σf !! h = Some hr ∧ h_merger_tree hr = Some t ∧ h_snapshot hr = s ∧
         NoDup (bucket tr s) ∧
         ∀ t' tr' s', t' ∈ forest → trees σf !! t' = Some tr' → h ∈ bucket tr' s' →
           t' = t ∧ s' = s) ∧
  (∀ (σ σ' : state R) ps ds ph dh u,
     link ps ds ph dh σ = Ret u σ' →
     ∃ phr dhr t, halos σ !! ph = Some phr ∧ halos σ !! dh = Some dhr ∧
       h_merger_tree dhr = Some t ∧
       ∀ x tr, trees σ !! x = Some tr →
         ∃ tr', trees σ' !! x = Some tr' ∧
           ∀ s, bucket tr' s =
                if decide (x = t ∧ ph ∉ h_ascendants dhr ∧ s = h_snapshot phr)
                then bucket tr s ++ [ph] else bucket tr s) ∧
  (∀ (σ : state R) ts, forest_live σ ts →
     ensure_trees_are_self_contained ts σ =
     match find (misplaced σ) (forest_halos σ ts) with
     | Some th => Throw (invalid_data (msg_not_part_of_tree th.2 th.1))
     | None => Ret tt σ
     end).
Proof.
  split; [|split].
  - intros exec_params input sim_params ubf fuel σi σf forest r rest Hnil Hout Hle Hrun
      t tr s h Ht Htr Hin.
    pose proof (build_trees_forest_ok _ _ _ _ _ _ _ _ _ _ Hnil Hout Hle Hrun) as Hok.
    destruct (Hok t tr s h Ht Htr Hin) as [(hr & Hhr & Hmt & Hs) Hnd].
    exists hr. repeat (split; [done|]).
    intros t' tr' s' Ht' Htr' Hin'.
    destruct (Hok t' tr' s' h Ht' Htr' Hin') as [(hr' & Hhr' & Hmt' & Hs') _].
    split; congruence.
  - intros σ σ' ps ds ph dh u
      (psr & phr & dhr & t & _ & Hph & Hdh & _ & _ & _ & Ht & _ & _ & Htrees & _)%link_Ret_inv.
    exists phr, dhr, t. repeat (split; [done|]).
    intros x tr Hx. eexists. split; [by eapply pointwise_lookup_Some|].
    intros s. rewrite bucket_link_tree_update.
    destruct (decide (ph ∉ h_ascendants dhr)) as [Hnew|Hold].
    + rewrite bool_decide_eq_true_2 by done.
      destruct (decide (x = t ∧ true = true ∧ s = h_snapshot phr)) as [(-> & _ & ->)|Hn].
      * by rewrite decide_True.
      * rewrite decide_False; [done|]. naive_solver.
    + rewrite bool_decide_eq_false_2 by done.
      rewrite decide_False by naive_solver. rewrite decide_False by naive_solver. done.
  - intros σ ts. apply ensure_trees_are_self_contained_run.
Qed.

End SelfContainment.
(** C1, as the code runs it: on a root halo that hosts two subhalos
    tagged [CENTRAL], with [min_snapshot = 0 < max_snapshot = 1],
    [define_central_subhalos] returns normally and leaves both tags in
    place, although the check of its second loop nest, run on that
    halo, raises "more than one central subhalo": the loop
    [for (snapshot = min_snapshot; snapshot >= max_snapshot; snapshot++)]
    never enters its body. *)
Theorem two_centrals_pass_unchecked :
  ∃ σ' : state Z,
    define_central_subhalos [0%nat] two_snapshots_sim 5 two_centrals = Ret tt σ' ∧
    sh_subhalo_type <$> subhalos σ' = [CENTRAL; CENTRAL] ∧
    (all_subhalos <$> halos σ' !! 0%nat) = Some [0%nat; 1%nat] ∧
    check_one_central 1 0 σ' = Throw (invalid_argument (msg_more_than_one_central 0 1)).
Proof.
  destruct (define_central_subhalos [0%nat] two_snapshots_sim 5 two_centrals)
    as [[] σ'| | |] eqn:E; try (by vm_compute in E).
  exists σ'. split; [done|].
  assert (Hσ : halos σ' = [h_with_satellite_subhalos [1%nat]
                             (h_with_central_subhalo (Some 0%nat)
                                (rooted 0 (halo_at 100 1 50 [0%nat; 1%nat])))] ∧
               subhalos σ' = subhalos two_centrals).
  { vm_compute in E. injection E as <-. done. }
  destruct σ' as [hs ss ts ws bs], Hσ as [Hh Hs]. cbn in Hh, Hs. subst hs ss.
  repeat split.
Qed.
Section CentralChecks.
Context {R : Type} {SR : Scalar R}.
Implicit Types σ : state R.

Lemma count_centrals_run σ halo snapshot (l : list sptr) (i : Z) :
  (∀ s, s ∈ l → is_Some (subhalos σ !! s)) → 0 ≤ i ≤ 1 →
  for_each l (λ subhalo (i : Z),
      let* s := get_subhalo subhalo in
      match sh_subhalo_type s with
      | CENTRAL =>
          if 1 <? i + 1 then throw (invalid_argument (msg_more_than_one_central halo snapshot))
          else ret (Next, i + 1)
      | SATELLITE => ret (Next, i)
      end) i σ =
  if decide (i + Z.of_nat (central_count σ l) ≤ 1)
  then Ret (i + Z.of_nat (central_count σ l)) σ
  else Throw (invalid_argument (msg_more_than_one_central halo snapshot)).
Proof.
  revert i. induction l as [|s l IH]; intros i Hl Hi; cbn [for_each central_count].
  { rewrite decide_True by lia. unfold ret. f_equal. lia. }
  destruct (Hl s) as [sr Hs]; [left|].
  assert (Hl' : ∀ x, x ∈ l → is_Some (subhalos σ !! x)) by (intros; apply Hl; by right).
  unfold is_central. rewrite Hs.
  unfold bind at 1. erewrite run_bind by by apply run_get_subhalo.
  destruct (sh_subhalo_type sr).
  - destruct (Z.ltb_spec 1 (i + 1)) as [Hgt|Hle]; cbn.
    + rewrite decide_False by lia. done.
    + rewrite IH by (done || lia).
      destruct (decide (i + 1 + Z.of_nat (central_count σ l) ≤ 1)).
      * rewrite decide_True by lia. f_equal. lia.
      * rewrite decide_False by lia. done.
  - cbn. rewrite IH by done. done.
Qed.

(** The check made on one halo: it passes when exactly one of the
    subhalos the halo lists is tagged [CENTRAL], throws
    [invalid_argument] "no central subhalo" when none is, and
    [invalid_argument] "more than 1 central subhalo" when two or more
    are; it never changes the state. *)
Theorem check_one_central_counts σ halo snapshot hr :
  halos σ !! halo = Some hr →
  (∀ s, s ∈ all_subhalos hr → is_Some (subhalos σ !! s)) →
  check_one_central snapshot halo σ =
  match central_count σ (all_subhalos hr) with
  | O => Throw (invalid_argument (msg_no_central halo snapshot))
  | S O => Ret tt σ
  | S (S _) => Throw (invalid_argument (msg_more_than_one_central halo snapshot))
  end.
Proof.
  intros Hh Hl. unfold check_one_central.
  erewrite run_bind by by apply run_get_halo.
  unfold bind at 1. rewrite (count_centrals_run σ halo snapshot _ 0 Hl) by lia.
  destruct (central_count σ (all_subhalos hr)) as [|[|n]]; cbn; try done.
  rewrite decide_False by lia. done.
Qed.

(** Once the loop [for (snapshot = min_snapshot; snapshot >=
    max_snapshot; snapshot++)] is entered it is never left normally:
    whatever the fuel, it throws, overflows [int] or is still
    running. *)
Lemma check_snapshots_from_diverges fuel tree sim_params snapshot σ u σ' :
  max_snapshot sim_params ≤ snapshot →
  check_snapshots_from fuel tree sim_params snapshot σ ≠ Ret u σ'.
Proof.
  revert snapshot σ. induction fuel as [|fuel IH]; intros snapshot σ Hge; cbn.
  - destruct (Z.geb_spec snapshot (max_snapshot sim_params)); [done|lia].
  - destruct (Z.geb_spec snapshot (max_snapshot sim_params)); [|lia].
    intros (hs & σ1 & _ & Hrun)%bind_Ret_inv.
    apply bind_Ret_inv in Hrun as (? & σ2 & _ & Hrun).
    destruct (snapshot =? int_max); [done|]. revert Hrun. apply IH. lia.
Qed.

(** With [max_snapshot <= min_snapshot], [define_central_subhalos]
    never returns normally on a forest that is not empty. *)
Theorem define_central_subhalos_needs_min_below_max tree ts sim_params fuel σ u σ' :
  max_snapshot sim_params ≤ min_snapshot sim_params →
  define_central_subhalos (tree :: ts) sim_params fuel σ ≠ Ret u σ'.
Proof.
  intros Hge. unfold define_central_subhalos, check_central_subhalos.
  intros (? & σ1 & _ & Hrun)%bind_Ret_inv. cbn in Hrun.
  apply bind_Ret_inv in Hrun as (? & σ2 & Hrun & _).
  by eapply check_snapshots_from_diverges.
Qed.

End CentralChecks.
Section CentralDefinition.
Context {R : Type} {SR : Scalar R}.
Implicit Types σ : state R.

Lemma erase_first_None x (l : list sptr) : x ∉ l → erase_first x l = None.
Proof.
  induction l as [|y l IH]; [done|]. intros Hn. cbn.
  destruct (Nat.eqb_spec x y) as [->|Hne]; [exfalso; apply Hn; left|].
  rewrite IH; [done|]. intros Hin. apply Hn. by right.
Qed.

Lemma erase_first_app x (before after : list sptr) :
  x ∉ before → erase_first x (before ++ x :: after) = Some (before ++ after).
Proof.
  induction before as [|y l IH]; intros Hn; cbn.
  - by rewrite Nat.eqb_refl.
  - destruct (Nat.eqb_spec x y) as [->|Hne]; [exfalso; apply Hn; left|].
    rewrite IH; [done|]. intros Hin. apply Hn. by right.
Qed.

Lemma remove_satellite_run σ halo subhalo hr :
  halos σ !! halo = Some hr →
  (subhalo ∉ h_satellite_subhalos hr →
   remove_satellite halo subhalo σ = Throw (invalid_data (msg_no_satellites halo))) ∧
  (∀ before after, h_satellite_subhalos hr = before ++ subhalo :: after → subhalo ∉ before →
   remove_satellite halo subhalo σ =
   Ret tt (st_with_halos (<[halo := h_with_satellite_subhalos (before ++ after) hr]> (halos σ))
             σ)).
Proof.
  intros Hh. unfold remove_satellite. split.
  - intros Hn. erewrite run_bind by by apply run_get_halo. by rewrite erase_first_None.
  - intros before after Hs Hn. erewrite run_bind by by apply run_get_halo.
    rewrite Hs, erase_first_app by done. by erewrite run_modify_halo.
Qed.

(** [remove_satellite] throws [invalid_data] when the subhalo is not
    among the satellites of the halo, even if the halo has other
    satellites; otherwise it erases the first occurrence of the subhalo
    and nothing else. *)
Theorem remove_satellite_erases_first σ halo subhalo hr :
  halos σ !! halo = Some hr →
  (subhalo ∉ h_satellite_subhalos hr →
   remove_satellite halo subhalo σ = Throw (invalid_data (msg_no_satellites halo))) ∧
  (∀ before after, h_satellite_subhalos hr = before ++ subhalo :: after → subhalo ∉ before →
   remove_satellite halo subhalo σ =
   Ret tt (st_with_halos (<[halo := h_with_satellite_subhalos (before ++ after) hr]> (halos σ))
             σ)).
Proof. apply remove_satellite_run. Qed.

Lemma define_central_subhalo_run σ halo subhalo hr sr :
  halos σ !! halo = Some hr → subhalos σ !! subhalo = Some sr →
  (subhalo ∉ h_satellite_subhalos hr →
   define_central_subhalo halo subhalo σ = Throw (invalid_data (msg_no_satellites halo))) ∧
  (∀ before after, h_satellite_subhalos hr = before ++ subhalo :: after → subhalo ∉ before →
   define_central_subhalo halo subhalo σ =
   Ret subhalo
     (mkState (<[halo := centred hr subhalo sr (before ++ after)]> (halos σ))
        (<[subhalo := sh_with_subhalo_type CENTRAL sr]> (subhalos σ))
        (trees σ) (warnings σ) (baryon_total_created σ)) ∧
   (h_central_subhalo hr = None →
    all_subhalos (centred hr subhalo sr (before ++ after)) ≡ₚ all_subhalos hr)).
Proof.
  intros Hh Hs.
  assert (Hlt : (halo < length (halos σ))%nat) by by eapply lookup_lt_Some.
  (* the state when [remove_satellite] is called *)
  set (hr5 := mkHalo (h_id hr) (h_snapshot hr) (h_Mvir hr) (s_max (h_Vvir hr) (sh_Vvir sr))
           (sh_concentration sr) (sh_lambda sr) (sh_position sr) (sh_velocity sr)
           (h_ascendants hr) (h_descendant hr) (Some subhalo) (h_satellite_subhalos hr)
           (h_merger_tree hr)).
  assert (Hpre :
    define_central_subhalo halo subhalo σ =
    (remove_satellite halo subhalo ;;;
     modify_subhalo subhalo (sh_with_subhalo_type CENTRAL) ;;;
     ret subhalo) (st_with_halos (<[halo := hr5]> (halos σ)) σ)).
  { unfold define_central_subhalo.
    erewrite run_bind by by apply run_modify_halo.
    erewrite run_bind by by apply run_get_subhalo.
    erewrite run_bind
      by (apply run_modify_halo; cbn; by apply list_lookup_insert_eq).
    cbn. rewrite list_insert_insert_eq.
    erewrite run_bind
      by (apply run_modify_halo; cbn; by apply list_lookup_insert_eq).
    cbn. rewrite list_insert_insert_eq.
    erewrite run_bind
      by (apply run_modify_halo; cbn; by apply list_lookup_insert_eq).
    cbn. rewrite list_insert_insert_eq.
    erewrite run_bind
      by (apply run_modify_halo; cbn; by apply list_lookup_insert_eq).
    cbn. rewrite list_insert_insert_eq.
    erewrite run_bind by (apply run_get_halo; cbn; by apply list_lookup_insert_eq).
    cbn. unfold hr5, s_max.
    destruct (s_ltb (h_Vvir hr) (sh_Vvir sr)).
    - erewrite run_bind
        by (apply run_modify_halo; cbn; by apply list_lookup_insert_eq).
      cbn. rewrite list_insert_insert_eq. done.
    - erewrite run_bind by done. done. }
  rewrite Hpre.
  assert (H5 : halos (st_with_halos (<[halo := hr5]> (halos σ)) σ) !! halo = Some hr5).
  { cbn. by apply list_lookup_insert_eq. }
  destruct (remove_satellite_run _ halo subhalo hr5 H5) as [Hthrow Hok].
  split.
  - intros Hn. apply run_bind_Throw. by apply Hthrow.
  - intros before after Hsat Hn. split.
    + erewrite run_bind by by apply Hok.
      erewrite run_bind by by apply run_modify_subhalo.
      cbn. rewrite list_insert_insert_eq. done.
    + intros Hc. unfold all_subhalos. cbn. rewrite Hc, Hsat.
      by rewrite Permutation_middle.
Qed.

(** [define_central_subhalo] on a satellite of the halo returns the
    subhalo, makes it the central subhalo, tags it [CENTRAL], copies
    its position, velocity, concentration and spin parameter to the
    halo, raises the halo's virial velocity to the subhalo's when that
    is larger, and takes the subhalo off the satellites; so the
    subhalos the halo lists are the same as before, the new central
    first. On a subhalo that is not a satellite of the halo it throws
    [invalid_data]. *)
Theorem define_central_subhalo_promotes σ halo subhalo hr sr :
  halos σ !! halo = Some hr → subhalos σ !! subhalo = Some sr →
  (subhalo ∉ h_satellite_subhalos hr →
   define_central_subhalo halo subhalo σ = Throw (invalid_data (msg_no_satellites halo))) ∧
  (∀ before after, h_satellite_subhalos hr = before ++ subhalo :: after → subhalo ∉ before →
   define_central_subhalo halo subhalo σ =
   Ret subhalo
     (mkState (<[halo := centred hr subhalo sr (before ++ after)]> (halos σ))
        (<[subhalo := sh_with_subhalo_type CENTRAL sr]> (subhalos σ))
        (trees σ) (warnings σ) (baryon_total_created σ)) ∧
   (h_central_subhalo hr = None →
    all_subhalos (centred hr subhalo sr (before ++ after)) ≡ₚ all_subhalos hr)).
Proof. apply define_central_subhalo_run. Qed.

End CentralDefinition.

Section MostMassive.
Context {R : Type} {SR : Scalar R} {SO : ScalarOrder R}.
Implicit Types σ : state R.

Lemma s_le_total (a b : R) : s_ltb a b = false → s_ltb b a = true ∨ a = b.
Proof.
  intros H. destruct (s_ltb b a) eqn:E; [by left|]. right. by apply s_ltb_total.
Qed.

(** [std::max_element] over the ascendants: the subhalo it returns is
    one of them, none of them is more massive, and the state is left
    alone. *)
Theorem max_element_Mvir_is_most_massive σ first rest :
  (∀ x, x ∈ first :: rest → is_Some (subhalos σ !! x)) →
  ∃ m mr, max_element_Mvir first rest σ = Ret m σ ∧ m ∈ first :: rest ∧
    subhalos σ !! m = Some mr ∧
    ∀ x xr, x ∈ first :: rest → subhalos σ !! x = Some xr →
      s_ltb (sh_Mvir mr) (sh_Mvir xr) = false.
Proof.
  revert first. induction rest as [|y rest IH]; intros first Hl.
  - destruct (Hl first) as [fr Hf]; [left|]. exists first, fr.
    split; [done|]. split; [left|]. split; [done|].
    intros x xr [->|?%elem_of_nil]%elem_of_cons Hx; [|done].
    assert (xr = fr) as -> by congruence. apply s_ltb_irrefl.
  - destruct (Hl first) as [fr Hf]; [left|].
    destruct (Hl y) as [yr Hy]; [right; left|]. cbn.
    erewrite run_bind by by apply run_get_subhalo.
    erewrite run_bind by by apply run_get_subhalo.
    destruct (s_ltb (sh_Mvir fr) (sh_Mvir yr)) eqn:Hlt.
    + destruct (IH y) as (m & mr & Hrun & Hin & Hm & Hmax).
      { intros x Hx. apply Hl. by right. }
      exists m, mr. split; [done|]. split; [by right|]. split; [done|].
      intros x xr [->|Hx]%elem_of_cons Hxr; [|by eapply Hmax].
      assert (xr = fr) as -> by congruence.
      destruct (s_ltb (sh_Mvir mr) (sh_Mvir fr)) eqn:E; [|done].
      pose proof (s_ltb_trans _ _ _ E Hlt) as Hc.
      rewrite (Hmax y yr) in Hc; [done|left|done].
    + destruct (IH first) as (m & mr & Hrun & Hin & Hm & Hmax).
      { intros x [->|Hx]%elem_of_cons; apply Hl; [left|by do 2 right]. }
      exists m, mr. split; [done|]. split.
      { apply elem_of_cons in Hin as [->|?]; [left|by do 2 right]. }
      split; [done|].
      intros x xr [->|[->|Hx]%elem_of_cons]%elem_of_cons Hxr.
      * eapply Hmax; [left|done].
      * assert (xr = yr) as -> by congruence.
        destruct (s_ltb (sh_Mvir mr) (sh_Mvir yr)) eqn:E; [|done].
        pose proof (Hmax first fr ltac:(left) Hf) as Hmf.
        destruct (s_le_total _ _ Hmf) as [Hfm|Heq].
        -- pose proof (s_ltb_trans _ _ _ Hfm E) as Hc. congruence.
        -- rewrite Heq in E. congruence.
      * eapply Hmax; [by right|done].
Qed.

End MostMassive.
Section SeedingRuns.
Context {R : Type} {SR : Scalar R}.
Implicit Types σ : state R.

Lemma root_halos_ext (hs hs' : list (Halo R)) r l :
  (∀ x, x ∈ l → h_snapshot <$> hs' !! x = h_snapshot <$> hs !! x) →
  root_halos hs' r l = root_halos hs r l.
Proof.
  induction l as [|h l IH]; intros Hl; [done|]. cbn.
  pose proof (Hl h ltac:(left)) as Hh.
  rewrite IH by (intros; apply Hl; by right).
  destruct (hs' !! h) as [a|], (hs !! h) as [b|]; cbn in Hh; try done.
  by injection Hh as ->.
Qed.

Lemma elem_of_root_halos (hs : list (Halo R)) r l h :
  h ∈ root_halos hs r l ↔ h ∈ l ∧ ∃ hr, hs !! h = Some hr ∧ h_snapshot hr = r.
Proof.
  induction l as [|x l IH]; cbn.
  { split; [by intros ?%elem_of_nil|by intros [?%elem_of_nil _]]. }
  destruct (hs !! x) as [xr|] eqn:Hx.
  - destruct (Z.eqb_spec (h_snapshot xr) r) as [Hr|Hr].
    + rewrite !elem_of_cons, IH. split; [intros [->|[? ?]]|intros [[->|?] ?]]; eauto.
    + rewrite elem_of_cons, IH. split; [intros [? ?]; eauto|].
      intros [[->|?] (hr & Hh & Hs)]; [congruence|eauto].
  - rewrite elem_of_cons, IH. split; [intros [? ?]; eauto|].
    intros [[->|?] (hr & Hh & Hs)]; [congruence|eauto].
Qed.

Lemma seed_loop r (input : list hptr) σ (trs : list tptr) :
  (∀ h, h ∈ input → is_Some (halos σ !! h)) → NoDup input →
  let roots := root_halos (halos σ) r input in
  let n := length (trees σ) in
  ∃ σ', for_each input (seed_tree r) (trs, Z.of_nat n) σ =
          Ret (trs ++ seq n (length roots), Z.of_nat (n + length roots)) σ' ∧
    trees σ' = trees σ ++ root_trees r n roots ∧
    subhalos σ' = subhalos σ ∧ warnings σ' = warnings σ ∧
    baryon_total_created σ' = baryon_total_created σ ∧
    length (halos σ') = length (halos σ) ∧
    (∀ k h, roots !! k = Some h →
       ∃ hr, halos σ !! h = Some hr ∧
             halos σ' !! h = Some (h_with_merger_tree (Some (n + k)%nat) hr)) ∧
    (∀ x, x ∉ roots → halos σ' !! x = halos σ !! x).
Proof.
  revert σ trs. induction input as [|h l IH]; intros σ trs Hlive Hnd; cbn zeta.
  { exists σ. cbn. rewrite !app_nil_r, Nat.add_0_r.
    do 6 (split; [done|]). split; [|done]. intros k h Hk. by rewrite lookup_nil in Hk. }
  apply NoDup_cons in Hnd as [Hnotin Hnd].
  destruct (Hlive h) as [hr Hh]; [left|].
  assert (Hlive' : ∀ x, x ∈ l → is_Some (halos σ !! x)) by (intros; apply Hlive; by right).
  cbn [for_each root_halos]. rewrite Hh.
  assert (Hbody : seed_tree r h (trs, Z.of_nat (length (trees σ))) σ =
    if h_snapshot hr =? r then
      (let* tree := make_tree (Z.of_nat (length (trees σ))) in
       modify_halo h (h_with_merger_tree (Some tree)) ;;;
       add_halo tree h ;;;
       ret (Next, (trs ++ [tree], Z.of_nat (length (trees σ)) + 1))) σ
    else Ret (Next, (trs, Z.of_nat (length (trees σ)))) σ).
  { unfold seed_tree. erewrite run_bind by by apply run_get_halo.
    by destruct (h_snapshot hr =? r). }
  unfold bind at 1. rewrite Hbody. clear Hbody.
  destruct (Z.eqb_spec (h_snapshot hr) r) as [Hr|Hr].
  2:{ destruct (IH σ trs Hlive' Hnd) as (σ' & Hrun & Hrest). exists σ'. by rewrite Hrun. }
  (* the state after the tree of [h] is made *)
  set (σ1 := mkState (<[h := h_with_merger_tree (Some (length (trees σ))) hr]> (halos σ))
               (subhalos σ)
               (trees σ ++ [mkMergerTree (Z.of_nat (length (trees σ))) {[r := [h]]}])
               (warnings σ) (baryon_total_created σ)).
  assert (Hstep : (let* tree := make_tree (Z.of_nat (length (trees σ))) in
                   modify_halo h (h_with_merger_tree (Some tree)) ;;;
                   add_halo tree h ;;;
                   ret (Next, (trs ++ [tree], Z.of_nat (length (trees σ)) + 1))) σ =
                  Ret (Next, (trs ++ [length (trees σ)], Z.of_nat (length (trees σ)) + 1)) σ1).
  { erewrite (run_bind (make_tree _)) by reflexivity.
    erewrite run_bind by (apply run_modify_halo; cbn; exact Hh).
    erewrite run_bind.
    2:{ eapply run_add_halo.
        - cbn. apply list_lookup_insert_eq. by eapply lookup_lt_Some.
        - cbn. rewrite lookup_app_r, Nat.sub_diag by done. done. }
    unfold ret, σ1. cbn. f_equal. f_equal.
    rewrite insert_app_r_alt, Nat.sub_diag by done. cbn.
    unfold bucket. cbn. rewrite lookup_empty. cbn. rewrite Hr, insert_empty. done. }
  rewrite Hstep.
  assert (Hlive1 : ∀ x, x ∈ l → is_Some (halos σ1 !! x)).
  { intros x Hx. apply lookup_lt_is_Some. cbn. rewrite length_insert.
    apply lookup_lt_is_Some. by apply Hlive'. }
  assert (Hroots1 : root_halos (halos σ1) r l = root_halos (halos σ) r l).
  { apply root_halos_ext. intros x Hx. cbn.
    rewrite list_lookup_insert_ne by (intros ->; done). done. }
  destruct (IH σ1 (trs ++ [length (trees σ)]) Hlive1 Hnd)
    as (σ' & Hrun & Htrees & Hsub & Hw & Hb & Hlen & Hset & Hother).
  rewrite Hroots1 in Hrun, Htrees, Hset, Hother.
  assert (Hn1 : length (trees σ1) = S (length (trees σ))).
  { cbn. rewrite length_app. cbn. lia. }
  rewrite Hn1 in Hrun, Htrees, Hset.
  exists σ'. split.
  { replace (Z.of_nat (length (trees σ)) + 1) with (Z.of_nat (S (length (trees σ)))) by lia.
    rewrite Hrun. cbn. rewrite <- app_assoc. cbn. do 3 f_equal. lia. }
  split; [rewrite Htrees; cbn; by rewrite <- app_assoc|].
  split; [done|]. split; [done|]. split; [done|].
  split; [rewrite Hlen; cbn; by rewrite length_insert|].
  assert (Hh_notroot : h ∉ root_halos (halos σ) r l).
  { intros [Hin _]%elem_of_root_halos. done. }
  split.
  - intros [|k] x Hk; cbn in Hk.
    + injection Hk as <-. exists hr. split; [done|].
      rewrite Hother by done. cbn. rewrite Nat.add_0_r.
      apply list_lookup_insert_eq. by eapply lookup_lt_Some.
    + destruct (Hset k x Hk) as (xr & Hx1 & Hx').
      assert (x ≠ h) by (intros ->; apply Hh_notroot; by eapply list_elem_of_lookup_2).
      cbn in Hx1. rewrite list_lookup_insert_ne in Hx1 by done.
      exists xr. split; [done|]. rewrite Hx'. do 3 f_equal. lia.
  - intros x Hx. apply not_elem_of_cons in Hx as [Hxh Hx].
    rewrite Hother by done. cbn. by rewrite list_lookup_insert_ne.
Qed.

Lemma seed_trees_run r input σ :
  trees σ = [] → (∀ h, h ∈ input → is_Some (halos σ !! h)) → NoDup input →
  let roots := root_halos (halos σ) r input in
  ∃ σ', seed_trees r input σ = Ret (seq 0 (length roots)) σ' ∧
    trees σ' = root_trees r 0 roots ∧
    subhalos σ' = subhalos σ ∧
    (∀ k h, roots !! k = Some h →
       ∃ hr, halos σ !! h = Some hr ∧
             halos σ' !! h = Some (h_with_merger_tree (Some k) hr)) ∧
    (∀ x, x ∉ roots → halos σ' !! x = halos σ !! x).
Proof.
  intros Hnil Hlive Hnd. cbn zeta.
  destruct (seed_loop r input σ [] Hlive Hnd)
    as (σ' & Hrun & Htrees & Hsub & _ & _ & _ & Hset & Hother).
  rewrite Hnil in Hrun, Htrees, Hset. cbn in Hrun, Htrees, Hset.
  exists σ'. unfold seed_trees. erewrite run_bind by exact Hrun. by repeat split.
Qed.

(** Seeding creates one tree per input halo at the root snapshot, in
    input order: the [k]-th root halo gets tree [k], which bears the
    id [k] and lists that halo alone, in the bucket of the root
    snapshot; no other halo and no subhalo is touched. *)
Theorem seed_trees_one_tree_per_root r input σ :
  trees σ = [] → (∀ h, h ∈ input → is_Some (halos σ !! h)) → NoDup input →
  let roots := root_halos (halos σ) r input in
  ∃ σ', seed_trees r input σ = Ret (seq 0 (length roots)) σ' ∧
    trees σ' = root_trees r 0 roots ∧
    subhalos σ' = subhalos σ ∧
    (∀ k h, roots !! k = Some h →
       ∃ hr, halos σ !! h = Some hr ∧
             halos σ' !! h = Some (h_with_merger_tree (Some k) hr)) ∧
    (∀ x, x ∉ roots → halos σ' !! x = halos σ !! x).
Proof. apply seed_trees_run. Qed.

(** Without a halo at the first output snapshot [build_trees] throws
    [invalid_data], naming that snapshot, the snapshots that do have
    halos and the output snapshots; this is what an empty population
    gets. *)
Theorem build_trees_without_roots exec_params input sim_params ubf fuel σ r rest :
  output_snapshots exec_params = r :: rest →
  (∀ h, h ∈ input → ∃ hr, halos σ !! h = Some hr ∧ h_snapshot hr ≠ r) →
  ∃ found,
    build_trees exec_params input sim_params ubf fuel σ =
      Throw (invalid_data (msg_no_halos_at_snapshot r found (r :: rest))) ∧
    StronglySorted Z.lt found ∧
    ∀ s, s ∈ found ↔ snapshot_present σ input s.
Proof.
  intros Hout Hnone.
  assert (Hlive : ∀ h, h ∈ input → is_Some (halos σ !! h)).
  { intros h Hin. destruct (Hnone h Hin) as (hr & ? & _). by eexists. }
  assert (Hseed : seed_trees r input σ = Ret [] σ).
  { unfold seed_trees.
    assert (Hloop : ∀ acc, for_each input (seed_tree r) acc σ = Ret acc σ).
    { clear Hlive. induction input as [|h l IH]; intros [trs c]; [done|]. cbn.
      destruct (Hnone h) as (hr & Hh & Hr); [left|].
      unfold bind at 1. erewrite run_bind by by apply run_get_halo.
      destruct (Z.eqb_spec (h_snapshot hr) r); [done|]. cbn.
      apply IH. intros. apply Hnone. by right. }
    erewrite run_bind by apply Hloop. done. }
  destruct (halo_snapshots_total input σ Hlive) as [found Hfound].
  exists found. split.
  - unfold build_trees. rewrite Hout. erewrite run_bind by exact Hseed.
    cbv beta iota. erewrite run_bind by exact Hfound. done.
  - by apply halo_snapshots_Ret_inv in Hfound as (_ & ? & ?).
Qed.

(** The forest [build_trees] returns has one tree per input halo at
    the first output snapshot: it is the list of the tree handles
    [0 .. n-1]. *)
Theorem build_trees_returns_root_trees exec_params input sim_params ubf fuel σ forest σf
    r rest :
  trees σ = [] → (∀ h, h ∈ input → is_Some (halos σ !! h)) → NoDup input →
  output_snapshots exec_params = r :: rest →
  build_trees exec_params input sim_params ubf fuel σ = Ret forest σf →
  forest = seq 0 (length (root_halos (halos σ) r input)) ∧ forest ≠ [].
Proof.
  intros Hnil Hlive Hnd Hout Hrun.
  destruct (seed_trees_run r input σ Hnil Hlive Hnd) as (σ0 & Hseed & _).
  unfold build_trees in Hrun. rewrite Hout in Hrun.
  erewrite run_bind in Hrun by exact Hseed. cbv beta in Hrun.
  destruct (seq 0 (length (root_halos (halos σ) r input))) as [|t ts] eqn:E.
  - apply bind_Ret_inv in Hrun as (? & ? & _ & Hrun). done.
  - do 5 (apply bind_Ret_inv in Hrun as (? & ? & _ & Hrun)).
    apply ret_Ret_inv in Hrun as [Heq _]. subst forest. split; [reflexivity|discriminate].
Qed.

End SeedingRuns.
Section PassFrames.
Context {R : Type} {SR : Scalar R}.
Implicit Types σ : state R.

Lemma links_kept_refl σ : links_kept σ σ.
Proof. split; [done|apply same_buckets_refl]. Qed.

Lemma links_kept_modify_halo σ0 h f :
  keeps_links f → preserves (R:=R) (links_kept σ0) (modify_halo h f).
Proof.
  intros Hf. apply hoare_Ret.
  intros σ u σ' [Hk Hb] (hs & -> & _ & Hhs)%modify_halo_Ret_inv'. split; [|done].
  intros x. cbn. destruct (Hk x) as (<- & <- & <-).
  rewrite !(Hhs x). destruct (halos σ !! x) as [r|]; [|done]. cbn.
  destruct (decide (x = h)); [|done]. destruct (Hf r) as (-> & -> & ->). done.
Qed.

Lemma links_kept_modify_subhalo σ0 s f :
  preserves (R:=R) (links_kept σ0) (modify_subhalo s f).
Proof. apply hoare_Ret. by intros σ u σ' Hk (ss & -> & _)%modify_subhalo_Ret_inv'. Qed.

Lemma links_kept_halos_at σ0 t s : preserves (R:=R) (links_kept σ0) (halos_at t s).
Proof.
  apply hoare_Ret.
  intros σ l σ' [Hk Hb] (tr0 & ts & f & _ & _ & -> & Hts & Hf)%halos_at_Ret_inv.
  split; [done|]. cbn. eapply same_buckets_trans; [exact Hb|]. by exists f.
Qed.

Lemma links_kept_log_warning σ0 m : preserves (R:=R) (links_kept σ0) (log_warning m).
Proof. apply hoare_Ret. by intros σ u σ' Hk ->%log_warning_Ret_inv. Qed.

Lemma links_kept_set_baryon σ0 s v :
  preserves (R:=R) (links_kept σ0) (set_baryon_total_created s v).
Proof. apply hoare_Ret. intros σ u σ' Hk Hrun. by injection Hrun as _ <-. Qed.

Lemma passes_keep_shape_lemma ts sim_params fuel ubf σ u σ' :
  (ensure_halo_mass_growth ts sim_params σ = Ret u σ' → links_kept σ σ') ∧
  (define_central_subhalos ts sim_params fuel σ = Ret u σ' → links_kept σ σ') ∧
  (define_accretion_rate_from_dm ts sim_params ubf σ = Ret u σ' → links_kept σ σ').
Proof.
  split; [|split]; intros Hrun.
  - refine (hoare_elim _ _ _ _ _ _
      (ensure_halo_mass_growth_frame _ (links_kept_modify_halo σ) (links_kept_halos_at σ) _ _)
      (links_kept_refl σ) Hrun).
  - refine (hoare_elim _ _ _ _ _ _
      (define_central_subhalos_frame _ (links_kept_modify_halo σ) (links_kept_modify_subhalo σ)
         (links_kept_halos_at σ) (links_kept_log_warning σ) _ _ _) (links_kept_refl σ) Hrun).
  - refine (hoare_elim _ _ _ _ _ _
      (define_accretion_rate_from_dm_frame _ (links_kept_modify_subhalo σ)
         (links_kept_halos_at σ) (links_kept_set_baryon σ) _ _ _) (links_kept_refl σ) Hrun).
Qed.

(** The three passes that follow the linker change no halo's snapshot,
    descendant or tree and leave every bucket as it is: whatever they
    return, the forest has the shape the linker gave it. *)
Theorem passes_keep_the_forest_shape ts sim_params fuel ubf σ u σ' :
  (ensure_halo_mass_growth ts sim_params σ = Ret u σ' → links_kept σ σ') ∧
  (define_central_subhalos ts sim_params fuel σ = Ret u σ' → links_kept σ σ') ∧
  (define_accretion_rate_from_dm ts sim_params ubf σ = Ret u σ' → links_kept σ σ').
Proof. apply passes_keep_shape_lemma. Qed.

Lemma grow_descendant_grown σ h hr d dr :
  halos σ !! h = Some hr → h_descendant hr = Some d → halos σ !! d = Some dr →
  s_le (h_Mvir hr) (h_Mvir dr) → grow_descendant h σ = Ret tt σ.
Proof.
  intros Hh Hd Hdr Hle. unfold grow_descendant.
  erewrite run_bind by by apply run_get_halo. rewrite Hd.
  erewrite run_bind by by apply run_get_halo. unfold s_le in Hle. by rewrite Hle.
Qed.

Lemma grow_descendant_blind h : tree_blind (R:=R) (grow_descendant h).
Proof.
  unfold grow_descendant.
  apply tree_blind_bind; [apply tree_blind_get_halo|]. intros hr.
  destruct (h_descendant hr) as [d|]; [|apply tree_blind_undefined].
  apply tree_blind_bind; [apply tree_blind_get_halo|]. intros dr.
  destruct (s_ltb _ _); [apply tree_blind_modify_halo|apply tree_blind_ret].
Qed.

(** On a forest whose halos are already no more massive than their
    descendants, [ensure_halo_mass_growth] returns and changes no halo
    and no subhalo. *)
Theorem ensure_halo_mass_growth_keeps_grown_forest ts sim_params σ :
  mass_grows ts sim_params σ →
  ∃ σ', ensure_halo_mass_growth ts sim_params σ = Ret tt σ' ∧ same_heap σ σ'.
Proof.
  intros Hg.
  set (snaps := snapshots_up (min_snapshot sim_params) (max_snapshot sim_params)).
  assert (Hflat : for_all (visits σ ts snaps) grow_descendant σ = Ret tt σ).
  { assert (Hl : ∀ h, h ∈ visits σ ts snaps → grow_descendant h σ = Ret tt σ).
    { intros h (t & tr & s & Ht & Hs & Htr & Hin)%elem_of_visits.
      destruct (Hg t Ht) as (tr' & Htr' & Hb). assert (tr' = tr) as -> by congruence.
      destruct (Hb s h) as (hr & d & dr & ? & ? & ? & ?); [|done|].
      { unfold snaps, snapshots_up in Hs. apply elem_of_seqZ in Hs. lia. }
      by eapply grow_descendant_grown. }
    induction (visits σ ts snaps) as [|h l IH]; [done|]. cbn.
    erewrite run_bind by (apply Hl; left). apply IH. intros. apply Hl. by right. }
  destruct (traverse_flatten σ ts snaps grow_descendant grow_descendant_blind) with
    (σa := σ) (σ := σ) (σa' := σ) as (σ' & Hrun & (Hh & Hs & Hw & Hb) & Hsb);
    [|done|apply same_buckets_refl|done|].
  { intros t Ht. destruct (Hg t Ht) as (tr & ? & _). by exists tr. }
  exists σ'. split; [exact Hrun|]. by repeat split.
Qed.

End PassFrames.
Section LinkerEdges.
Context {R : Type} {SR : Scalar R}.
Implicit Types σ : state R.

Lemma index_halos_total input σ :
  (∀ h, h ∈ input → is_Some (halos σ !! h)) → ∃ idx, index_halos input σ = Ret idx σ.
Proof.
  unfold index_halos. generalize (∅ : gmap Z (list hptr), ∅ : gmap Z hptr).
  induction input as [|x l IH]; intros [bs ix] Hv; cbn.
  - by eexists.
  - destruct (Hv x) as [hr Hh]; [left|].
    unfold bind at 1. erewrite run_bind by by apply run_get_halo. cbn.
    apply IH. intros. apply Hv. by right.
Qed.

(** A population that sits at one snapshot has nothing to link:
    [loop_through_halos] returns and leaves the state as it is. *)
Theorem loop_through_halos_single_snapshot exec_params input σ s :
  input ≠ [] →
  (∀ h, h ∈ input → ∃ hr, halos σ !! h = Some hr ∧ h_snapshot hr = s) →
  loop_through_halos exec_params input σ = Ret tt σ.
Proof.
  intros Hne Hall.
  assert (Hlive : ∀ h, h ∈ input → is_Some (halos σ !! h)).
  { intros h Hin. destruct (Hall h Hin) as (hr & ? & _). by eexists. }
  destruct (index_halos_total input σ Hlive) as [[bs ix] Hidx].
  destruct (halo_snapshots_total input σ Hlive) as [set Hset].
  pose proof (halo_snapshots_Ret_inv _ _ _ _ Hset) as (_ & Hsorted & Hel).
  assert (Hs : ∀ x, x ∈ set ↔ x = s).
  { intros x. rewrite Hel. split.
    - intros (h & hr & Hin & Hh & <-). destruct (Hall h Hin) as (hr' & ? & ?). congruence.
    - intros ->. destruct input as [|h l]; [done|].
      destruct (Hall h) as (hr & ? & ?); [left|]. exists h, hr. split; [left|done]. }
  assert (set = [s]) as ->.
  { destruct set as [|a rest].
    - exfalso. eapply elem_of_nil. apply Hs. reflexivity.
    - assert (a = s) as -> by (apply Hs; left).
      destruct rest as [|b rest]; [done|]. exfalso.
      assert (b = s) as -> by (apply Hs; right; left).
      apply StronglySorted_cons in Hsorted as [Hlt _].
      apply Forall_cons in Hlt as [Hlt _]. lia. }
  unfold loop_through_halos. erewrite run_bind by exact Hidx. cbv beta iota.
  erewrite run_bind by exact Hset. done.
Qed.

(** Two steps of the linker that link nothing.  A subhalo without a
    descendant is taken off its halo and the loop goes on; a subhalo
    whose descendant halo id is not (or no longer) in [halos_by_id]
    makes the linker give the halo up: the state is left alone, the
    halo is erased from [halos_by_id], [ignored] is incremented and
    the remaining subhalos of the halo are not looked at. *)
Theorem link_subhalo_without_target exec_params σ halo subhalo halos_by_id ignored halo_linked
    sr hr :
  subhalos σ !! subhalo = Some sr → halos σ !! halo = Some hr →
  (sh_has_descendant sr = false → subhalo ∈ all_subhalos hr →
   ∃ hr', erase_first subhalo (all_subhalos hr) = Some (all_subhalos hr') ∧
     link_subhalo exec_params halo subhalo (halos_by_id, ignored, halo_linked) σ =
     Ret (Next, (halos_by_id, ignored, halo_linked))
       (st_with_halos (<[halo := hr']> (halos σ)) σ)) ∧
  (sh_has_descendant sr = true → halos_by_id !! sh_descendant_halo_id sr = None →
   link_subhalo exec_params halo subhalo (halos_by_id, ignored, halo_linked) σ =
   Ret (Break, (delete (h_id hr) halos_by_id, ignored + 1, halo_linked)) σ).
Proof.
  intros Hs Hh. split.
  - intros Hno Hin. destruct (run_remove_subhalo σ halo subhalo hr Hh Hin) as (hr' & He & Hrun).
    exists hr'. split; [done|]. unfold link_subhalo.
    erewrite run_bind by by apply run_get_subhalo. rewrite Hno. cbn.
    by erewrite run_bind by exact Hrun.
  - intros Hhas Hnone. unfold link_subhalo.
    erewrite run_bind by by apply run_get_subhalo. rewrite Hhas, Hnone. cbn.
    by erewrite run_bind by by apply run_get_halo.
Qed.

(** After seeding at the root snapshot [r] and linking, the two
    directions of the halo links agree: a halo listed in a bucket away
    from the root snapshot is among the ascendants of its descendant. *)
Theorem linked_halos_are_ascendants exec_params input r σi σ0 σ1 forest u :
  trees σi = [] →
  seed_trees r input σi = Ret forest σ0 →
  loop_through_halos exec_params input σ0 = Ret u σ1 →
  ∀ t tr s h, trees σ1 !! t = Some tr → h ∈ bucket tr s → s ≠ r →
    ∃ hr D Dr, halos σ1 !! h = Some hr ∧ h_descendant hr = Some D ∧
               halos σ1 !! D = Some Dr ∧ h ∈ h_ascendants Dr.
Proof.
  intros Hnil Hseed Hloop t tr s h Ht Hin Hs.
  destruct (seed_trees_Ret_inv _ _ _ _ _ Hnil Hseed) as (_ & Hroots & _).
  destruct (linker_keeps_forest _ _ _ _ _ _ Hroots Hloop)
    as (set & processed & index & _ & _ & _ & Hbl & _).
  destruct (Hbl t tr s h Ht Hin) as (hr & Hhr & _ & [?|(D & Dr & ? & ? & ? & _)]); [done|].
  by exists hr, D, Dr.
Qed.

End LinkerEdges.

Section LinkerEffect.
Context {R : Type} {SR : Scalar R}.
Implicit Types σ : state R.

Lemma erase_first_sublist x (l l' : list sptr) : erase_first x l = Some l' → l' `sublist_of` l.
Proof.
  revert l'. induction l as [|y l IH]; intros l'; cbn; [done|].
  destruct (x =? y)%nat.
  - intros [= <-]. by apply sublist_cons.
  - destruct (erase_first x l) as [r|]; [|done]. intros [= <-].
    apply sublist_skip. by apply IH.
Qed.

Lemma linked_and_pruned_refl σ : linked_and_pruned σ σ.
Proof.
  split; [done|]. split; [done|]. split; [|done].
  intros h hr hr' H1 H2. assert (hr' = hr) as -> by congruence. done.
Qed.

Lemma linked_and_pruned_halos σ0 σ hs (f : nat → Halo R → Halo R) :
  linked_and_pruned σ0 σ → pointwise f (halos σ) hs →
  (∀ x r, h_unlinked (f x r) = h_unlinked r) →
  (∀ x r, all_subhalos (f x r) `sublist_of` all_subhalos r ∧
          h_ascendants r ⊆ h_ascendants (f x r)) →
  linked_and_pruned σ0 (st_with_halos hs σ).
Proof.
  intros (Hs & Hh & Hl & Hw & Hb) Hhs Hun Hsub.
  split; [done|]. split; [|split; [|done]]; cbn.
  - intros h. rewrite <- Hh. by eapply pointwise_field.
  - intros h hr hr' H0 H1.
    eapply pointwise_lookup in H1 as (r & Hr & ->); [|exact Hhs].
    destruct (Hl h hr r H0 Hr) as [Hsl Hasc]. destruct (Hsub h r) as [Hsl' Hasc'].
    split; by etrans.
Qed.

Lemma linked_and_pruned_remove_subhalo σ0 halo sub :
  preserves (linked_and_pruned σ0) (remove_subhalo halo sub).
Proof.
  apply hoare_Ret. intros σ a σ' HI (hs & -> & Hhs)%remove_subhalo_Ret_inv.
  eapply linked_and_pruned_halos; [done|exact Hhs| |].
  - intros x r. unfold remove_subhalo_update.
    destruct (decide (x = halo)); [|done].
    destruct (decide (h_central_subhalo r = Some sub)); [done|].
    by destruct (erase_first sub (h_satellite_subhalos r)).
  - intros x r. unfold remove_subhalo_update.
    destruct (decide (x = halo)); [|done].
    destruct (decide (h_central_subhalo r = Some sub)) as [Hc|Hc].
    + split; [|done]. unfold all_subhalos. cbn. rewrite Hc. by apply sublist_cons.
    + destruct (erase_first sub (h_satellite_subhalos r)) as [l|] eqn:E; [|done].
      split; [|done]. apply erase_first_sublist in E. unfold all_subhalos. cbn.
      destruct (h_central_subhalo r); [by apply sublist_skip|done].
Qed.

Lemma linked_and_pruned_log_warning σ0 m :
  preserves (linked_and_pruned σ0) (log_warning m).
Proof.
  apply hoare_Ret. intros σ a σ' (Hs & Hh & Hl & Hw & Hb) ->%log_warning_Ret_inv.
  repeat split; try done; try (by eapply Hl). cbn. etrans; [exact Hw|]. by apply prefix_app_r.
Qed.

Lemma linked_and_pruned_link σ0 ps ds ph dh :
  preserves (linked_and_pruned σ0) (link ps ds ph dh).
Proof.
  apply hoare_Ret. intros σ a σ' HI Hrun.
  apply link_Ret_inv in Hrun
    as (psr & phr & dhr & t & _ & _ & _ & _ & _ & _ & _ & Hss & Hhs & _ & Hw & Hb).
  assert (HI' : linked_and_pruned σ0 (st_with_halos (halos σ') σ)).
  { eapply linked_and_pruned_halos; [done|exact Hhs| |].
    - intros x r. unfold link_halo_update. by repeat destruct (decide _).
    - intros x r. unfold link_halo_update, all_subhalos.
      repeat destruct (decide _); cbn; split; try done; set_solver. }
  destruct HI' as (Hs' & Hh' & Hl' & Hw' & Hb'). cbn in *.
  repeat split; try done; try (by eapply Hl'); try congruence.
  intros s. rewrite <- Hs'. eapply pointwise_field; [exact Hss|].
  intros x r. unfold link_subhalo_update. by repeat destruct (decide _).
Qed.

(** [loop_through_halos] only links and prunes: of a subhalo it changes
    nothing but the ascendants and the descendant; of a halo nothing
    but the ascendants, the descendant, the tree and the subhalos it
    lists, and these it only takes away, never adds or reorders; it
    never removes an ascendant, and it leaves [AllBaryons] alone. *)
Theorem loop_through_halos_links_and_prunes exec_params input σ0 u σ1 :
  loop_through_halos exec_params input σ0 = Ret u σ1 → linked_and_pruned σ0 σ1.
Proof.
  intros (bs & index & set & processed & _ & _ & _ & Hinv)%loop_through_halos_Ret_inv.
  apply (Hinv (linked_and_pruned σ0)); [| | |apply linked_and_pruned_refl].
  - apply linked_and_pruned_remove_subhalo.
  - apply linked_and_pruned_log_warning.
  - intros ps ds ph dh σ [HI _]. by apply linked_and_pruned_link.
Qed.

End LinkerEffect.
Section CentralFrame.
Context {R : Type} {SR : Scalar R}.
Implicit Types σ : state R.

Section Resolution.
Variable I : state R → Prop.
Hypothesis I_halo : ∀ h f, keeps_central f → preserves I (modify_halo h f).
Hypothesis I_subhalo : ∀ s f, preserves I (modify_subhalo s f).
Hypothesis I_warning : ∀ m, preserves I (log_warning m).

Ltac central_step :=
  first
  [ apply preserves_ret
  | apply hoare_throw
  | apply hoare_undefined
  | apply hoare_out_of_fuel
  | apply preserves_get_halo
  | apply preserves_get_subhalo
  | apply I_subhalo
  | apply I_warning
  | apply I_halo; intros ? ?; cbn; first [done | by eexists]
  | assumption
  | solve [auto 2]
  | apply preserves_bind; [|intros ?]
  | apply preserves_for_all; intros ?
  | match goal with
    | |- preserves _ (match ?x with _ => _ end) => destruct x
    | |- preserves _ (if ?b then _ else _) => destruct b
    end ].

Lemma define_central_subhalo_keeps halo subhalo :
  preserves I (define_central_subhalo halo subhalo).
Proof using I_halo I_subhalo. unfold define_central_subhalo, remove_satellite. repeat central_step. Qed.

Lemma find_main_keeps l : preserves I (find_main l).
Proof. induction l; cbn; repeat central_step. Qed.

Lemma max_element_Mvir_keeps largest l : preserves I (max_element_Mvir largest l).
Proof. revert largest. induction l; intros; cbn; repeat central_step. Qed.

Lemma walk_main_branch_keeps fuel subhalo ascendants :
  preserves I (walk_main_branch fuel subhalo ascendants).
Proof using I_halo I_subhalo I_warning.
  pose proof define_central_subhalo_keeps. pose proof find_main_keeps.
  pose proof max_element_Mvir_keeps.
  revert subhalo ascendants. induction fuel as [|fuel IH]; intros; cbn.
  - destruct ascendants; repeat central_step.
  - unfold main, stamp_last_snapshot_identified. destruct ascendants; repeat central_step.
Qed.

Lemma resolve_halo_keeps fuel halo : preserves I (resolve_halo fuel halo).
Proof using I_halo I_subhalo I_warning.
  pose proof define_central_subhalo_keeps. pose proof walk_main_branch_keeps.
  unfold resolve_halo. repeat central_step.
Qed.

End Resolution.

Lemma centrals_set_mono σ0 (S S' : hptr → Prop) σ :
  (∀ h, S' h → S h) → centrals_set σ0 S σ → centrals_set σ0 S' σ.
Proof. intros HS [Hb Hc]. split; [done|]. auto. Qed.

Lemma centrals_set_modify_halo σ0 S h f :
  keeps_central f → preserves (R:=R) (centrals_set σ0 S) (modify_halo h f).
Proof.
  intros Hf. apply hoare_Ret.
  intros σ u σ' [Hb Hc] (hs & -> & _ & Hhs)%modify_halo_Ret_inv'. split; [done|].
  intros x Hx. destruct (Hc x Hx) as (xr & Hxr & Hcen). cbn.
  eexists. split; [by eapply pointwise_lookup_Some|]. cbn.
  destruct (decide (x = h)); [by apply Hf|done].
Qed.

Lemma centrals_set_modify_subhalo σ0 S s f :
  preserves (R:=R) (centrals_set σ0 S) (modify_subhalo s f).
Proof. apply hoare_Ret. by intros σ u σ' HI (ss & -> & _)%modify_subhalo_Ret_inv'. Qed.

Lemma centrals_set_log_warning σ0 S m :
  preserves (R:=R) (centrals_set σ0 S) (log_warning m).
Proof. apply hoare_Ret. by intros σ u σ' HI ->%log_warning_Ret_inv. Qed.

Lemma centrals_set_halos_at σ0 S t s :
  preserves (R:=R) (centrals_set σ0 S) (halos_at t s).
Proof.
  apply hoare_Ret.
  intros σ l σ' [Hb Hc] (tr0 & ts & f & _ & _ & -> & Hts & Hf)%halos_at_Ret_inv.
  split; [|done]. cbn. eapply same_buckets_trans; [exact Hb|]. by exists f.
Qed.

Lemma resolve_halo_sets fuel halo σ0 S :
  hoare (centrals_set σ0 S) (resolve_halo fuel halo)
    (λ _, centrals_set σ0 (λ h, S h ∨ h = halo)).
Proof.
  apply hoare_Ret. intros σ u σ' HI Hrun.
  assert (Hkeeps : ∀ S', centrals_set σ0 S' σ → centrals_set σ0 S' σ').
  { intros S' HI'.
    exact (hoare_elim _ _ _ _ _ _
      (resolve_halo_keeps _ (centrals_set_modify_halo σ0 S')
         (centrals_set_modify_subhalo σ0 S') (centrals_set_log_warning σ0 S') fuel halo)
      HI' Hrun). }
  destruct (Hkeeps S HI) as [Hb Hc]. split; [done|].
  intros h [Hh| ->]; [by apply Hc|].
  unfold resolve_halo in Hrun.
  apply bind_Ret_inv in Hrun as (hr & ? & [-> Hhr]%get_halo_Ret_inv & Hrun).
  destruct (h_central_subhalo hr) as [c|] eqn:Hcen.
  { apply ret_Ret_inv in Hrun as [_ ->]. exists hr. split; [done|]. by rewrite Hcen. }
  destruct (all_subhalos hr) as [|c rest]; [done|].
  apply bind_Ret_inv in Hrun as (sub & σ1 & Hdef & Hrun).
  apply bind_Ret_inv in Hrun as (sr & ? & [-> Hsr]%get_subhalo_Ret_inv & Hrun).
  (* the first assignment of [define_central_subhalo] sets the central subhalo *)
  unfold define_central_subhalo in Hdef.
  apply bind_Ret_inv in Hdef as (? & σa & (x & Hx & ->)%modify_halo_Ret_inv & Hdef).
  set (σa := st_with_halos (<[halo := h_with_central_subhalo (Some c) x]> (halos σ)) σ) in *.
  assert (Ha : centrals_set σa (λ h, h = halo) σa).
  { split; [apply same_buckets_refl|]. intros h ->. eexists.
    split; [cbn; apply list_lookup_insert_eq; by eapply lookup_lt_Some|]. by eexists. }
  assert (H1 : centrals_set σa (λ h, h = halo) σ1).
  { refine (hoare_elim (centrals_set σa (λ h, h = halo)) _
              (λ _, centrals_set σa (λ h, h = halo)) σa sub σ1 _ Ha Hdef).
    pose proof (centrals_set_modify_halo σa (λ h, h = halo)) as I_halo.
    pose proof (centrals_set_modify_subhalo σa (λ h, h = halo)) as I_subhalo.
    unfold remove_satellite.
    repeat first
      [ apply preserves_ret | apply hoare_throw | apply preserves_get_halo
      | apply preserves_get_subhalo | apply I_subhalo
      | apply I_halo; intros ? ?; cbn; first [done | by eexists]
      | apply preserves_bind; [|intros ?]
      | match goal with
        | |- preserves _ (match ?x with _ => _ end) => destruct x
        | |- preserves _ (if ?b then _ else _) => destruct b
        end ]. }
  assert (H' : centrals_set σa (λ h, h = halo) σ').
  { exact (hoare_elim _ _ _ _ _ _
      (walk_main_branch_keeps _ (centrals_set_modify_halo σa _)
         (centrals_set_modify_subhalo σa _) (centrals_set_log_warning σa _) fuel _ _)
      H1 Hrun). }
  by apply H'.
Qed.

Lemma for_all_accumulates {A} σ0 (T : A → hptr → Prop) (l : list A) (body : A → M R unit) :
  (∀ x S, x ∈ l → hoare (centrals_set σ0 S) (body x)
                     (λ _, centrals_set σ0 (λ h, S h ∨ T x h))) →
  ∀ S, hoare (centrals_set σ0 S) (for_all l body)
         (λ _, centrals_set σ0 (λ h, S h ∨ ∃ x, x ∈ l ∧ T x h)).
Proof.
  induction l as [|a l IH]; intros Hbody S; cbn.
  - apply hoare_ret. intros σ. apply centrals_set_mono.
    intros h [?|(x & ?%elem_of_nil & _)]; done.
  - eapply hoare_bind; [apply Hbody; left|]. intros ?.
    eapply hoare_conseq; [apply IH; intros; apply Hbody; by right|done|].
    intros ? σ. apply centrals_set_mono.
    intros h [?|(x & [->|?]%elem_of_cons & ?)]; [by left; left|by left; right|].
    right. by exists x.
Qed.

Lemma define_central_subhalos_Ret_centrals ts sim_params fuel σ u σ' :
  define_central_subhalos ts sim_params fuel σ = Ret u σ' →
  ∀ t tr s h, t ∈ ts → trees σ !! t = Some tr →
    min_snapshot sim_params ≤ s ≤ max_snapshot sim_params → h ∈ bucket tr s →
    ∃ hr, halos σ' !! h = Some hr ∧ is_Some (h_central_subhalo hr).
Proof.
  intros Hrun t tr s h Ht Htr Hs Hin.
  unfold define_central_subhalos in Hrun.
  apply bind_Ret_inv in Hrun as (? & σ1 & Hres & Hcheck).
  apply traverse_decrement_Ret_inv in Hres. unfold traverse in Hres.
  set (snaps := snapshots_down (max_snapshot sim_params) (min_snapshot sim_params)) in *.
  assert (Hsnaps : s ∈ snaps).
  { unfold snaps, snapshots_down. rewrite elem_of_reverse, elem_of_seqZ. lia. }
  (* one bucket *)
  assert (Hbucket : ∀ t s S,
    hoare (centrals_set σ S)
      (let* hs := halos_at t s in for_all hs (resolve_halo fuel))
      (λ _, centrals_set σ
              (λ h, S h ∨ ∃ tr, trees σ !! t = Some tr ∧ h ∈ bucket tr s))).
  { intros t' s' S. apply hoare_Ret. intros σa ua σb HI Hb.
    apply bind_Ret_inv in Hb as (hs & σc & Hat & Hb).
    pose proof (hoare_elim _ _ _ _ _ _ (centrals_set_halos_at σ S t' s') HI Hat) as HIc.
    apply halos_at_Ret_inv in Hat as (tra & _ & _ & Htra & -> & _).
    pose proof (hoare_elim _ _ _ _ _ _
      (for_all_accumulates σ (λ x h, h = x) _ (resolve_halo fuel)
         (λ x S _, resolve_halo_sets fuel x σ S) S) HIc Hb) as HId.
    revert HId. apply centrals_set_mono.
    intros y [?|(tr0 & Htr0 & Hy)]; [by left|]. right. exists y. split; [|done].
    destruct HI as [Hsb _].
    destruct (same_buckets_lookup _ _ _ _ Hsb Htr0) as (tr' & Htr' & Hbk).
    assert (tr' = tra) as -> by congruence. by rewrite Hbk. }
  (* one tree, all trees *)
  pose proof (hoare_elim _ _ _ _ _ _
    (for_all_accumulates σ
       (λ t h, ∃ s, s ∈ snaps ∧ ∃ tr, trees σ !! t = Some tr ∧ h ∈ bucket tr s) ts _
       (λ t S _, for_all_accumulates σ
          (λ s h, ∃ tr, trees σ !! t = Some tr ∧ h ∈ bucket tr s) snaps _
          (λ s S _, Hbucket t s S) S) (λ _, False))
    (conj (same_buckets_refl _) (λ h (F : False), False_ind _ F)) Hres) as [Hsb Hc].
  destruct (Hc h) as (hr & Hhr & Hcen).
  { right. exists t. split; [done|]. exists s. split; [done|]. by exists tr. }
  (* the check loops change no halo *)
  assert (Hkeep : halos σ' = halos σ1).
  { unfold check_central_subhalos in Hcheck.
    refine (hoare_elim (λ σa, halos σa = halos σ1) _ (λ _ σa, halos σa = halos σ1) _ _ _
              _ eq_refl Hcheck).
    apply hoare_for_all. intros t0 _. apply check_snapshots_from_frame.
    intros t' s'. apply hoare_Ret.
    by intros σa l σb Ha (? & ? & ? & _ & _ & -> & _)%halos_at_Ret_inv. }
  exists hr. by rewrite Hkeep.
Qed.

(** When [define_central_subhalos] returns, every halo that the trees
    list between [min_snapshot] and [max_snapshot] has a central
    subhalo. *)
Theorem define_central_subhalos_sets_centrals ts sim_params fuel σ u σ' :
  define_central_subhalos ts sim_params fuel σ = Ret u σ' →
  ∀ t tr s h, t ∈ ts → trees σ !! t = Some tr →
    min_snapshot sim_params ≤ s ≤ max_snapshot sim_params → h ∈ bucket tr s →
    ∃ hr, halos σ' !! h = Some hr ∧ is_Some (h_central_subhalo hr).
Proof. apply define_central_subhalos_Ret_centrals. Qed.

End CentralFrame.
Section Indexing.
Context {R : Type} {SR : Scalar R}.
Implicit Types σ : state R.

Lemma index_loop (l : list hptr) σ (bs0 : gmap Z (list hptr)) (ix0 : gmap Z hptr) :
  (∀ h, h ∈ l → is_Some (halos σ !! h)) →
  ∃ bs ix,
    for_each l (λ halo '(by_snapshot, by_id),
      let* h := get_halo halo in
      ret (Next, (<[h_snapshot h := default [] (by_snapshot !! h_snapshot h) ++ [halo]]>
                    by_snapshot,
                  <[h_id h := halo]> by_id))) (bs0, ix0) σ = Ret (bs, ix) σ ∧
    (∀ s, default [] (bs !! s) = default [] (bs0 !! s) ++ root_halos (halos σ) s l) ∧
    (∀ before h after hr, l = before ++ h :: after → halos σ !! h = Some hr →
       (∀ x xr, x ∈ after → halos σ !! x = Some xr → h_id xr ≠ h_id hr) →
       ix !! h_id hr = Some h) ∧
    (∀ k, (∀ x xr, x ∈ l → halos σ !! x = Some xr → h_id xr ≠ k) → ix !! k = ix0 !! k).
Proof.
  revert bs0 ix0. induction l as [|x l IH]; intros bs0 ix0 Hlive.
  { exists bs0, ix0. split; [done|]. split; [intros; cbn; by rewrite app_nil_r|].
    split; [|done]. intros [|??] ???; done. }
  destruct (Hlive x) as [xr Hx]; [left|].
  destruct (IH (<[h_snapshot xr := default [] (bs0 !! h_snapshot xr) ++ [x]]> bs0)
               (<[h_id xr := x]> ix0)) as (bs & ix & Hrun & Hbs & Hlast & Hold).
  { intros. apply Hlive. by right. }
  exists bs, ix. split; [|split; [|split]].
  - cbn [for_each]. unfold bind at 1. erewrite run_bind by by apply run_get_halo. exact Hrun.
  - intros s. rewrite Hbs. cbn. rewrite Hx.
    destruct (Z.eqb_spec (h_snapshot xr) s) as [->|Hne].
    + rewrite lookup_insert_eq. cbn. by rewrite <- app_assoc.
    + by rewrite lookup_insert_ne.
  - intros [|b before] h after hr Hl Hh Hafter; cbn in Hl; injection Hl as -> ->.
    + assert (hr = xr) as -> by congruence.
      rewrite Hold, lookup_insert_eq; [done|]. intros y yr Hy Hyr. by eapply Hafter.
    + by eapply Hlast.
  - intros k Hk. rewrite Hold by (intros y yr Hy; apply Hk; by right).
    rewrite lookup_insert_ne; [done|]. eapply Hk; [left|done].
Qed.

(** The two indexes the linker builds: [halos_by_snapshot] lists, for
    each snapshot, the input halos at that snapshot in input order;
    [halos_by_id] maps an id to the last input halo that bears it, and
    maps no other id; building them changes nothing. *)
Theorem index_halos_indexes input σ :
  (∀ h, h ∈ input → is_Some (halos σ !! h)) →
  ∃ by_snapshot by_id,
    index_halos input σ = Ret (by_snapshot, by_id) σ ∧
    (∀ s, default [] (by_snapshot !! s) = root_halos (halos σ) s input) ∧
    (∀ before h after hr, input = before ++ h :: after → halos σ !! h = Some hr →
       (∀ x xr, x ∈ after → halos σ !! x = Some xr → h_id xr ≠ h_id hr) →
       by_id !! h_id hr = Some h) ∧
    (∀ k, (∀ x xr, x ∈ input → halos σ !! x = Some xr → h_id xr ≠ k) → by_id !! k = None).
Proof.
  intros Hlive. destruct (index_loop input σ ∅ ∅ Hlive) as (bs & ix & Hrun & Hbs & Hlast & Hold).
  exists bs, ix. split; [exact Hrun|]. split; [|split; [done|]].
  - intros s. rewrite Hbs. by rewrite lookup_empty.
  - intros k Hk. rewrite Hold by done. apply lookup_empty.
Qed.

End Indexing.
Section Dereferences.
Context {R : Type} {SR : Scalar R}.
Implicit Types σ : state R.

(** A loop whose body adds the halos [T x] to the halos that satisfy
    the invariant adds them all. *)
Lemma for_all_collects {A} (J : (hptr → Prop) → state R → Prop) (T : A → hptr → Prop)
    (l : list A) (body : A → M R unit) :
  (∀ (S S' : hptr → Prop) σ, (∀ h, S' h → S h) → J S σ → J S' σ) →
  (∀ x S, x ∈ l → hoare (J S) (body x) (λ _, J (λ h, S h ∨ T x h))) →
  ∀ S, hoare (J S) (for_all l body) (λ _, J (λ h, S h ∨ ∃ x, x ∈ l ∧ T x h)).
Proof.
  intros Hmono. induction l as [|a l IH]; intros Hbody S; cbn.
  - apply hoare_ret. intros σ. apply Hmono.
    intros h [?|(x & ?%elem_of_nil & _)]; done.
  - eapply hoare_bind; [apply Hbody; left|]. intros ?.
    eapply hoare_conseq; [apply IH; intros; apply Hbody; by right|done|].
    intros ? σ. apply Hmono.
    intros h [?|(x & [->|?]%elem_of_cons & ?)]; [by left; left|by left; right|].
    right. by exists x.
Qed.

Lemma descendants_set_mono σ0 (S S' : hptr → Prop) σ :
  (∀ h, S' h → S h) → descendants_set σ0 S σ → descendants_set σ0 S' σ.
Proof. intros HS [Hb Hc]. split; [done|]. auto. Qed.

Lemma grow_descendant_dereferences σ0 S halo :
  hoare (descendants_set σ0 S) (grow_descendant (R:=R) halo)
    (λ _, descendants_set σ0 (λ h, S h ∨ h = halo)).
Proof.
  apply hoare_Ret. intros σ u σ' [Hb Hc] Hrun. unfold grow_descendant in Hrun.
  apply bind_Ret_inv in Hrun as (hr & ? & [-> Hhr]%get_halo_Ret_inv & Hrun).
  destruct (h_descendant hr) as [d|] eqn:Hd; [|done].
  apply bind_Ret_inv in Hrun as (dr & ? & [-> Hdr]%get_halo_Ret_inv & Hrun).
  assert (Hhere : ∀ h, S h ∨ h = halo →
            ∃ xr e, halos σ !! h = Some xr ∧ h_descendant xr = Some e ∧
                    is_Some (halos σ !! e)).
  { intros h [Hh| ->]; [by apply Hc|]. by exists hr, d. }
  destruct (s_ltb (h_Mvir dr) (h_Mvir hr)).
  - apply modify_halo_Ret_inv' in Hrun as (hs & -> & _ & Hhs). split; [done|].
    intros h Hh. destruct (Hhere h Hh) as (xr & e & Hx & He & [er Her]). cbn.
    eexists _, e. split; [by eapply pointwise_lookup_Some|].
    split; [by destruct (decide (h = d))|].
    eexists. by eapply pointwise_lookup_Some.
  - apply ret_Ret_inv in Hrun as [_ ->]. by split.
Qed.

Lemma ensure_halo_mass_growth_Ret_inv ts sim_params σ u σ' :
  ensure_halo_mass_growth ts sim_params σ = Ret u σ' →
  ∀ t tr s h, t ∈ ts → trees σ !! t = Some tr →
    min_snapshot sim_params ≤ s < max_snapshot sim_params → h ∈ bucket tr s →
    ∃ hr d, halos σ !! h = Some hr ∧ h_descendant hr = Some d ∧ is_Some (halos σ !! d).
Proof.
  intros Hrun t tr s h Ht Htr Hs Hin.
  set (snaps := snapshots_up (min_snapshot sim_params) (max_snapshot sim_params)) in *.
  assert (Hsnaps : s ∈ snaps).
  { unfold snaps, snapshots_up. rewrite elem_of_seqZ. lia. }
  assert (Hbucket : ∀ t s S,
    hoare (descendants_set σ S)
      (let* hs := halos_at t s in for_all hs grow_descendant)
      (λ _, descendants_set σ
              (λ h, S h ∨ ∃ tr, trees σ !! t = Some tr ∧ h ∈ bucket tr s))).
  { intros t' s' S. apply hoare_Ret. intros σa ua σb HI Hb.
    apply bind_Ret_inv in Hb as (hs & σc & Hat & Hb).
    apply halos_at_Ret_inv in Hat as (tra & tsc & f & Htra & -> & -> & Htsc & Hf).
    assert (HIc : descendants_set σ S (st_with_trees tsc σa)).
    { destruct HI as [Hsb Hc]. split; [|done]. cbn.
      eapply same_buckets_trans; [exact Hsb|]. by exists f. }
    pose proof (hoare_elim _ _ _ _ _ _
      (for_all_collects (descendants_set σ) (λ x h, h = x) _ grow_descendant
         (descendants_set_mono σ)
         (λ x S _, grow_descendant_dereferences σ S x) S) HIc Hb) as HId.
    revert HId. apply descendants_set_mono.
    intros y [?|(tr0 & Htr0 & Hy)]; [by left|]. right. exists y. split; [|done].
    destruct HI as [Hsb _].
    destruct (same_buckets_lookup _ _ _ _ Hsb Htr0) as (tr' & Htr' & Hbk).
    assert (tr' = tra) as -> by congruence. by rewrite Hbk. }
  pose proof (hoare_elim _ _ _ _ _ _
    (for_all_collects (descendants_set σ)
       (λ t h, ∃ s, s ∈ snaps ∧ ∃ tr, trees σ !! t = Some tr ∧ h ∈ bucket tr s) ts _
       (descendants_set_mono σ)
       (λ t S _, for_all_collects (descendants_set σ)
          (λ s h, ∃ tr, trees σ !! t = Some tr ∧ h ∈ bucket tr s) snaps _
          (descendants_set_mono σ)
          (λ s S _, Hbucket t s S) S) (λ _, False))
    (conj (same_buckets_refl _) (λ h (F : False), False_ind _ F)) Hrun) as [_ Hc].
  destruct (Hc h) as (hr' & d & Hhr' & Hd & Hlive).
  { right. exists t. split; [done|]. exists s. split; [done|]. by exists tr. }
  (* the pass changes masses only *)
  assert (Hraise : ∀ x, h_descendant <$> halos σ' !! x = h_descendant <$> halos σ !! x).
  { intros x.
    by destruct (proj1 (hoare_elim _ _ _ _ _ _
      (ensure_halo_mass_growth_frame _ (links_kept_modify_halo σ) (links_kept_halos_at σ) _ _)
      (links_kept_refl σ) Hrun) x) as (_ & ? & _). }
  pose proof (Hraise h) as Hh. rewrite Hhr' in Hh. cbn in Hh.
  destruct (halos σ !! h) as [hr|] eqn:Hhr; [|done]. cbn in Hh.
  exists hr, d. split; [done|]. split; [congruence|].
  destruct Hlive as [dr Hdr]. pose proof (Hraise d) as Hdd. rewrite Hdr in Hdd.
  destruct (halos σ !! d); [by eexists|done].
Qed.

(** [ensure_halo_mass_growth] dereferences [halo->descendant]
    unguarded: it returns normally only if every halo the trees list
    from [min_snapshot] up to, not including, [max_snapshot] has a
    live descendant. *)
Theorem ensure_halo_mass_growth_needs_descendants ts sim_params σ u σ' :
  ensure_halo_mass_growth ts sim_params σ = Ret u σ' →
  ∀ t tr s h, t ∈ ts → trees σ !! t = Some tr →
    min_snapshot sim_params ≤ s < max_snapshot sim_params → h ∈ bucket tr s →
    ∃ hr d, halos σ !! h = Some hr ∧ h_descendant hr = Some d ∧ is_Some (halos σ !! d).
Proof. apply ensure_halo_mass_growth_Ret_inv. Qed.

End Dereferences.
Section BaryonTotals.
Context {R : Type} {SR : Scalar R}.
Implicit Types σ : state R.

Lemma add_accreted_ext σ σ' l (total : R) :
  halos σ' = halos σ → subhalos σ' = subhalos σ →
  add_accreted σ' l total = add_accreted σ l total.
Proof.
  intros Hh Hs. revert total. induction l as [|h l IH]; intros total; cbn; [done|].
  rewrite IH. unfold accreted_of. by rewrite Hh, Hs.
Qed.

Lemma add_accreted_app σ l1 l2 (total : R) :
  add_accreted σ (l1 ++ l2) total = add_accreted σ l2 (add_accreted σ l1 total).
Proof. revert total. induction l1 as [|h l IH]; intros total; cbn; [done|]. by rewrite IH. Qed.

Lemma snapshot_halos_ext σ σ' ts s :
  same_buckets (trees σ) (trees σ') → snapshot_halos σ' ts s = snapshot_halos σ ts s.
Proof.
  intros (f & Hf & Hfb). unfold snapshot_halos. induction ts as [|t ts IH]; [done|]. cbn.
  rewrite IH, (Hf t). destruct (trees σ !! t); cbn; [|done]. by rewrite Hfb.
Qed.

Lemma snapshot_halos_cons σ t ts s :
  snapshot_halos σ (t :: ts) s =
  match trees σ !! t with Some tr => bucket tr s | None => [] end ++ snapshot_halos σ ts s.
Proof. done. Qed.

Lemma add_bucket_Ret_inv (hs : list hptr) (total : R) σ total' σ' :
  for_each hs add_accreted_mass total σ = Ret total' σ' →
  σ' = σ ∧ total' = add_accreted σ hs total.
Proof.
  revert total. induction hs as [|h l IH]; intros total; cbn.
  { by intros [-> ->]%ret_Ret_inv. }
  intros ([c acc] & σ1 & Hbody & Hrun)%bind_Ret_inv.
  unfold add_accreted_mass in Hbody.
  apply bind_Ret_inv in Hbody as (hr & ? & [-> Hhr]%get_halo_Ret_inv & Hbody).
  destruct (h_central_subhalo hr) as [cs|] eqn:Hc; [|done].
  apply bind_Ret_inv in Hbody as (cr & ? & [-> Hcr]%get_subhalo_Ret_inv & Hbody).
  apply ret_Ret_inv in Hbody as [Heq ->]. injection Heq as -> ->.
  apply IH in Hrun as [-> ->]. split; [done|].
  unfold accreted_of. rewrite Hhr. cbn. rewrite Hc. cbn. by rewrite Hcr.
Qed.

Lemma add_snapshot_Ret_inv (ts : list tptr) s (total : R) σ total' σ' :
  for_each ts (λ tree total,
      let* hs := halos_at tree s in
      let* total' := for_each hs add_accreted_mass total in
      ret (Next, total')) total σ = Ret total' σ' →
  same_heap σ σ' ∧ total' = add_accreted σ (snapshot_halos σ ts s) total.
Proof.
  revert total σ. induction ts as [|t ts IH]; intros total σ; cbn.
  { intros [-> ->]%ret_Ret_inv. split; [apply same_heap_refl|done]. }
  intros ([c acc] & σ1 & Hbody & Hrun)%bind_Ret_inv.
  apply bind_Ret_inv in Hbody as (hs & σa & Hat & Hbody).
  apply bind_Ret_inv in Hbody as (tot & σb & Hadd & Hbody).
  apply ret_Ret_inv in Hbody as [Heq ->]. injection Heq as -> ->.
  apply add_bucket_Ret_inv in Hadd as [-> ->].
  apply halos_at_Ret_inv in Hat as (tr & tsa & f & Htr & -> & -> & Htsa & Hf).
  apply IH in Hrun as (Hsame & ->). cbn in Hsame.
  assert (Hsb : same_buckets (trees σ) tsa) by by exists f.
  split.
  - destruct Hsame as (? & ? & ? & ? & g & Hg & Hgb). repeat split; try done.
    exists (λ x r, g x (f x r)). split; [by eapply pointwise_trans|].
    intros. by rewrite Hgb, Hf.
  - fold (snapshot_halos σ ts s). rewrite Htr, add_accreted_app.
    rewrite (snapshot_halos_ext σ (st_with_trees tsa σ)) by done.
    by rewrite !(add_accreted_ext σ (st_with_trees tsa σ)).
Qed.

Lemma take_seqZ_prefix (m n : Z) (i : nat) :
  Z.of_nat i ≤ n → take i (seqZ m n) = seqZ m (Z.of_nat i).
Proof.
  intros Hi. unfold seqZ. rewrite <- fmap_take, take_seq, Nat2Z.id. do 2 f_equal. lia.
Qed.

Lemma add_snapshots_Ret_inv (ts : list tptr) (snaps : list Z) (total : R) σ total' σ' :
  NoDup snaps →
  for_each snaps (λ snapshot total_baryon_accreted,
      let* total := for_each ts (λ tree total,
          let* hs := halos_at tree snapshot in
          let* total' := for_each hs add_accreted_mass total in
          ret (Next, total')) total_baryon_accreted in
      set_baryon_total_created snapshot total ;;;
      increment snapshot ;;;
      ret (Next, total)) total σ = Ret total' σ' →
  halos σ' = halos σ ∧ subhalos σ' = subhalos σ ∧ same_buckets (trees σ) (trees σ') ∧
  (∀ i s, snaps !! i = Some s →
     baryon_total_created σ' !! s = Some (baryons_created σ ts (take (S i) snaps) total)) ∧
  (∀ s, s ∉ snaps → baryon_total_created σ' !! s = baryon_total_created σ !! s).
Proof.
  revert total σ. induction snaps as [|s0 snaps IH]; intros total σ Hnd; cbn.
  { intros [-> ->]%ret_Ret_inv. repeat split; try done. apply same_buckets_refl. }
  apply NoDup_cons in Hnd as [Hnotin Hnd].
  intros ([c acc] & σ1 & Hbody & Hrun)%bind_Ret_inv.
  apply bind_Ret_inv in Hbody as (tot & σa & Hadd & Hbody).
  apply bind_Ret_inv in Hbody as (? & σb & Hset & Hbody).
  apply bind_Ret_inv in Hbody as (? & ? & [-> _]%increment_Ret_inv & Hbody).
  apply ret_Ret_inv in Hbody as [Heq ->]. injection Heq as -> ->.
  apply add_snapshot_Ret_inv in Hadd as ((Hh & Hs & _ & Hb & Hsb) & ->).
  injection Hset as Hset.
  set (σc := st_with_baryons
               (<[s0 := add_accreted σ (snapshot_halos σ ts s0) total]>
                  (baryon_total_created σa)) σa) in *.
  subst σb.
  apply IH in Hrun as (Hh' & Hs' & Hsb' & Hval & Hout); [|done].
  assert (Hext : ∀ l tot, baryons_created σc ts l tot = baryons_created σ ts l tot).
  { unfold baryons_created. induction l as [|s l IHl]; intros tot; [done|]. cbn [foldl].
    rewrite IHl. f_equal.
    rewrite (snapshot_halos_ext σ σc ts s Hsb).
    exact (add_accreted_ext σ σc _ _ Hh Hs). }
  split; [rewrite Hh'; exact Hh|]. split; [rewrite Hs'; exact Hs|].
  split; [eapply same_buckets_trans; [exact Hsb|exact Hsb']|]. split.
  - intros [|i] s Hi; cbn in Hi.
    + injection Hi as <-. rewrite Hout by done. unfold σc. cbn. by rewrite lookup_insert_eq.
    + rewrite (Hval i s Hi). cbn [take foldl baryons_created]. unfold baryons_created in *.
      cbn [foldl]. rewrite Hext. done.
  - intros s Hs0. apply not_elem_of_cons in Hs0 as [Hne Hs0].
    rewrite Hout by done. unfold σc. cbn. rewrite lookup_insert_ne by done. by rewrite Hb.
Qed.

(** When [define_accretion_rate_from_dm] returns, [AllBaryons] holds,
    for every snapshot from [min_snapshot] to [max_snapshot], the
    accreted masses of the central subhalos of all the halos the trees
    list from [min_snapshot] up to that snapshot, added up snapshot by
    snapshot, tree by tree, in bucket order; the entries of other
    snapshots are left alone. *)
Theorem define_accretion_rate_from_dm_totals ts sim_params ubf σ u σ' :
  define_accretion_rate_from_dm ts sim_params ubf σ = Ret u σ' →
  (∀ i : nat, min_snapshot sim_params + Z.of_nat i ≤ max_snapshot sim_params →
     baryon_total_created σ' !! (min_snapshot sim_params + Z.of_nat i) =
     Some (baryons_created σ' ts (seqZ (min_snapshot sim_params) (Z.of_nat (S i)))
             s_zero)) ∧
  (∀ s, ¬ (min_snapshot sim_params ≤ s ≤ max_snapshot sim_params) →
     baryon_total_created σ' !! s = baryon_total_created σ !! s).
Proof.
  intros Hrun. unfold define_accretion_rate_from_dm in Hrun.
  apply bind_Ret_inv in Hrun as (? & σ1 & Hfirst & Hrun).
  apply bind_Ret_inv in Hrun as (total & σ2 & Hsecond & Hrun).
  apply ret_Ret_inv in Hrun as [_ ->].
  apply traverse_decrement_Ret_inv in Hfirst. unfold traverse in Hfirst.
  (* the first loop nest leaves [AllBaryons] alone *)
  assert (Hb1 : baryon_total_created σ1 = baryon_total_created σ).
  { refine (hoare_elim (λ σa, baryon_total_created σa = baryon_total_created σ) _
              (λ _ σa, baryon_total_created σa = baryon_total_created σ) _ _ _
              _ eq_refl Hfirst).
    assert (Hsub : ∀ s f, preserves (R:=R)
              (λ σa, baryon_total_created σa = baryon_total_created σ) (modify_subhalo s f)).
    { intros s f. apply hoare_Ret. by intros σa a σb Ha (ss & -> & _)%modify_subhalo_Ret_inv'. }
    apply preserves_for_all. intros tree. apply preserves_for_all. intros snapshot.
    apply preserves_bind.
    { apply hoare_Ret. by intros σa l σb Ha (? & ? & ? & _ & _ & -> & _)%halos_at_Ret_inv. }
    intros hs. apply preserves_for_all. intros halo. unfold define_accreted_mass.
    apply preserves_bind; [apply preserves_get_halo|]. intros hr.
    apply preserves_bind; [apply accumulate_Mvir_frame|]. intros m.
    destruct (h_central_subhalo hr); [|apply hoare_undefined].
    apply preserves_bind; [apply Hsub|]. intros ?.
    apply preserves_bind; [apply preserves_get_subhalo|]. intros cs.
    destruct (s_ltb _ _); [apply Hsub|apply preserves_ret]. }
  apply add_snapshots_Ret_inv in Hsecond as (Hh & Hs & Hsb & Hval & Hout); [|apply NoDup_seqZ].
  assert (Hsame : ∀ l tot, baryons_created σ2 ts l tot = baryons_created σ1 ts l tot).
  { intros l. unfold baryons_created.
    induction l as [|s l IHl]; intros tot; [done|]. cbn [foldl]. rewrite IHl. f_equal.
    rewrite (snapshot_halos_ext σ1 σ2 ts s Hsb). exact (add_accreted_ext σ1 σ2 _ _ Hh Hs). }
  split.
  - intros i Hi.
    rewrite (Hval i (min_snapshot sim_params + Z.of_nat i)).
    + rewrite take_seqZ_prefix, Hsame by lia. done.
    + apply lookup_seqZ. lia.
  - intros s Hs'. rewrite Hout, Hb1; [done|]. rewrite elem_of_seqZ. lia.
Qed.

End BaryonTotals.
Section AccretionDereferences.
Context {R : Type} {SR : Scalar R}.
Implicit Types σ : state R.

Lemma accumulate_Mvir_Ret_inv l (mass : R) σ m σ' :
  accumulate_Mvir l mass σ = Ret m σ' → σ' = σ ∧ ∀ a, a ∈ l → is_Some (halos σ !! a).
Proof.
  revert mass. induction l as [|a l IH]; intros mass; cbn.
  { intros [_ ->]%ret_Ret_inv. split; [done|]. by intros ? ?%elem_of_nil. }
  intros (hr & ? & [-> Hhr]%get_halo_Ret_inv & Hrun)%bind_Ret_inv.
  apply IH in Hrun as [-> Hl]. split; [done|].
  intros x [->|Hx]%elem_of_cons; [by eexists|by apply Hl].
Qed.

Lemma accretion_done_mono σ0 (S S' : hptr → Prop) σ :
  (∀ h, S' h → S h) → accretion_done σ0 S σ → accretion_done σ0 S' σ.
Proof. intros HS (Hb & Hh & Hl & Hc). repeat split; auto. Qed.

Lemma define_accreted_mass_dereferences σ0 S ubf halo :
  hoare (accretion_done σ0 S) (define_accreted_mass (R:=R) ubf halo)
    (λ _, accretion_done σ0 (λ h, S h ∨ h = halo)).
Proof.
  apply hoare_Ret. intros σ u σ' (Hb & Hh & Hl & Hc) Hrun. unfold define_accreted_mass in Hrun.
  apply bind_Ret_inv in Hrun as (hr & ? & [-> Hhr]%get_halo_Ret_inv & Hrun).
  apply bind_Ret_inv in Hrun as (m & ? & [-> Hasc]%accumulate_Mvir_Ret_inv & Hrun).
  destruct (h_central_subhalo hr) as [c|] eqn:Hcen; [|done].
  apply bind_Ret_inv in Hrun as (? & σ1 & (cr & Hcr & ->)%modify_subhalo_Ret_inv & Hrun).
  apply bind_Ret_inv in Hrun as (cs & ? & [-> Hcs]%get_subhalo_Ret_inv & Hrun).
  assert (Hsafe : accretion_safe σ0 halo).
  { exists hr, c. rewrite <- Hh. split; [done|]. split; [done|]. split.
    - apply lookup_lt_is_Some. rewrite <- Hl. by eapply lookup_lt_Some.
    - intros a Ha. apply Hasc. by apply elem_of_elements. }
  assert (Hσ' : halos σ' = halos σ ∧ trees σ' = trees σ ∧
                length (subhalos σ') = length (subhalos σ)).
  { destruct (s_ltb _ _).
    - apply modify_subhalo_Ret_inv in Hrun as (? & ? & ->). cbn. by rewrite !length_insert.
    - apply ret_Ret_inv in Hrun as [_ ->]. cbn. by rewrite length_insert. }
  destruct Hσ' as (Hh' & Ht' & Hl'). split; [by rewrite Ht'|].
  split; [congruence|]. split; [congruence|].
  intros h [?| ->]; [by apply Hc|done].
Qed.

(** [define_accretion_rate_from_dm] dereferences the central subhalo
    and the ascendants of every halo it visits, unguarded: it returns
    normally only if every halo the trees list between [min_snapshot]
    and [max_snapshot] has a live central subhalo and live
    ascendants. *)
Theorem define_accretion_rate_from_dm_needs_centrals ts sim_params ubf σ u σ' :
  define_accretion_rate_from_dm ts sim_params ubf σ = Ret u σ' →
  ∀ t tr s h, t ∈ ts → trees σ !! t = Some tr →
    min_snapshot sim_params ≤ s ≤ max_snapshot sim_params → h ∈ bucket tr s →
    accretion_safe σ h.
Proof.
  intros Hrun t tr s h Ht Htr Hs Hin. unfold define_accretion_rate_from_dm in Hrun.
  apply bind_Ret_inv in Hrun as (? & σ1 & Hfirst & _).
  apply traverse_decrement_Ret_inv in Hfirst. unfold traverse in Hfirst.
  set (snaps := snapshots_down (max_snapshot sim_params) (min_snapshot sim_params)) in *.
  assert (Hsnaps : s ∈ snaps).
  { unfold snaps, snapshots_down. rewrite elem_of_reverse, elem_of_seqZ. lia. }
  assert (Hbucket : ∀ t s S,
    hoare (accretion_done σ S)
      (let* hs := halos_at t s in for_all hs (define_accreted_mass ubf))
      (λ _, accretion_done σ
              (λ h, S h ∨ ∃ tr, trees σ !! t = Some tr ∧ h ∈ bucket tr s))).
  { intros t' s' S. apply hoare_Ret. intros σa ua σb HI Hb.
    apply bind_Ret_inv in Hb as (hs & σc & Hat & Hb).
    apply halos_at_Ret_inv in Hat as (tra & tsc & f & Htra & -> & -> & Htsc & Hf).
    assert (HIc : accretion_done σ S (st_with_trees tsc σa)).
    { destruct HI as (Hsb & Hh & Hl & Hc). split; [|done]. cbn.
      eapply same_buckets_trans; [exact Hsb|]. by exists f. }
    pose proof (hoare_elim _ _ _ _ _ _
      (for_all_collects (accretion_done σ) (λ x h, h = x) _ (define_accreted_mass ubf)
         (accretion_done_mono σ)
         (λ x S _, define_accreted_mass_dereferences σ S ubf x) S) HIc Hb) as HId.
    revert HId. apply accretion_done_mono.
    intros y [?|(tr0 & Htr0 & Hy)]; [by left|]. right. exists y. split; [|done].
    destruct HI as [Hsb _].
    destruct (same_buckets_lookup _ _ _ _ Hsb Htr0) as (tr' & Htr' & Hbk).
    assert (tr' = tra) as -> by congruence. by rewrite Hbk. }
  pose proof (hoare_elim _ _ _ _ _ _
    (for_all_collects (accretion_done σ)
       (λ t h, ∃ s, s ∈ snaps ∧ ∃ tr, trees σ !! t = Some tr ∧ h ∈ bucket tr s) ts _
       (accretion_done_mono σ)
       (λ t S _, for_all_collects (accretion_done σ)
          (λ s h, ∃ tr, trees σ !! t = Some tr ∧ h ∈ bucket tr s) snaps _
          (accretion_done_mono σ)
          (λ s S _, Hbucket t s S) S) (λ _, False))
    (conj (same_buckets_refl _) (conj eq_refl (conj eq_refl (λ h (F : False), False_ind _ F))))
    Hfirst) as (_ & _ & _ & Hc).
  apply Hc. right. exists t. split; [done|]. exists s. split; [done|]. by exists tr.
Qed.

End AccretionDereferences.
Section RootsBelowMax.
Context {R : Type} {SR : Scalar R}.
Implicit Types σ : state R.

Lemma seed_trees_seeded r input σi forest σ0 :
  seed_trees r input σi = Ret forest σ0 → trees σi = [] → seeded r input σi σ0.
Proof.
  intros Hrun Hnil. unfold seed_trees in Hrun.
  apply bind_Ret_inv in Hrun as ([trs counter] & σ1 & Hloop & Hrun).
  apply ret_Ret_inv in Hrun as [_ ->].
  refine (hoare_elim _ _ _ _ _ _
    (hoare_for_each (λ _ σ, seeded r input σi σ) _ _ _ _) _ Hloop).
  - intros halo [trs' counter'] Hin. apply hoare_Ret.
    intros σ [c [trs'' counter'']] σ' (Hd & Hne) Hb. cbn in *.
    apply bind_Ret_inv in Hb as (hr & ? & [-> Hh]%get_halo_Ret_inv & Hb).
    destruct (h_snapshot hr =? r) eqn:Hr.
    2:{ apply ret_Ret_inv in Hb as [_ ->]. by split. }
    apply Z.eqb_eq in Hr.
    apply bind_Ret_inv in Hb as (t & ? & [-> ->]%make_tree_Ret_inv & Hb).
    apply bind_Ret_inv in Hb as (? & ? & (hs & -> & _ & Hhs)%modify_halo_Ret_inv' & Hb).
    apply bind_Ret_inv in Hb as (? & ? & (hr' & ts & Hh' & _ & -> & Hts)%add_halo_Ret_inv & Hb).
    apply ret_Ret_inv in Hb as [_ ->]. cbn in Hh', Hts |- *.
    assert (Hsn : h_snapshot hr' = r).
    { eapply pointwise_lookup in Hh' as (q & Hq & ->); [|exact Hhs].
      cbn in Hq. assert (q = hr) as -> by congruence. cbn. by destruct (decide _). }
    split.
    + intros z. rewrite <- Hd. eapply pointwise_field; [exact Hhs|].
      intros y q. cbn. by destruct (decide (y = halo)).
    + intros t' tr' Ht'. eapply pointwise_lookup in Ht' as (tr & Htr & ->); [|exact Hts].
      rewrite bucket_link_tree_update, Hsn.
      apply lookup_app_Some in Htr as [Hold|[Hle Hnew]].
      * destruct (Hne t' tr Hold) as (h & Hb' & Hi). exists h. split; [|done].
        destruct (decide _); [|done]. apply elem_of_app. by left.
      * destruct (t' - length (trees σ))%nat eqn:E; [|by destruct n].
        injection Hnew as <-. exists halo. split; [|done].
        rewrite decide_True by (repeat split; lia). apply elem_of_app. right. left.
  - split; [done|]. intros t tr Ht. by rewrite Hnil in Ht.
Qed.

Lemma linker_keeps_roots exec_params input r σ0 u σ1 processed set :
  halo_snapshots input σ0 = Ret set σ0 → sorted_halo_snapshots set = Some processed →
  r ∉ processed →
  loop_through_halos exec_params input σ0 = Ret u σ1 → roots_kept r σ0 σ1.
Proof.
  intros Hset Hp Hr (bs & index & set' & processed' & _ & Hset' & Hp' & Hinv)
    %loop_through_halos_Ret_inv.
  assert (set' = set) as -> by congruence. assert (processed' = processed) as -> by congruence.
  apply (Hinv (roots_kept r σ0)).
  - intros halo sub. apply hoare_Ret. intros σ a σ' (Hst & Hb & Hd) Hrun.
    split; [exact (hoare_elim _ _ _ _ _ _ (remove_subhalo_keeps_static_keys _ _ _) Hst Hrun)|].
    apply remove_subhalo_Ret_inv in Hrun as (hs & -> & Hhs). split; [done|]. cbn.
    intros x xr0 xr Hx0 Hs Hx. eapply pointwise_lookup in Hx as (q & Hq & ->); [|exact Hhs].
    rewrite <- (Hd x xr0 q Hx0 Hs Hq). apply remove_subhalo_update_keeps.
  - intros m. apply hoare_Ret. by intros σ a σ' HI ->%log_warning_Ret_inv.
  - intros ps ds ph dh. apply hoare_Ret.
    intros σ a σ' [(Hst & Hb & Hd) (_ & (phr0 & Hph0 & Hproc) & _)] Hrun.
    split; [by eapply link_keeps_static_keys|].
    apply link_Ret_inv in Hrun
      as (psr & phr & dhr & t & _ & _ & _ & _ & _ & _ & _ & _ & Hhs & Hts & _).
    split.
    + intros t' tr s h Ht' Hin. destruct (Hb t' tr s h Ht' Hin) as (tr' & Htr' & Hin').
      eexists. split; [by eapply pointwise_lookup_Some|].
      rewrite bucket_link_tree_update. destruct (decide _) as [(_ & _ & ->)|]; [|done].
      apply elem_of_app. by left.
    + intros x xr0 xr Hx0 Hs Hx. eapply pointwise_lookup in Hx as (q & Hq & ->); [|exact Hhs].
      rewrite link_halo_update_descendant.
      destruct (decide (x = ph)) as [->|]; [|by eapply Hd].
      exfalso. apply Hr. assert (xr0 = phr0) as -> by congruence. by rewrite <- Hs.
  - split; [done|]. split; [|intros x xr0 xr ? ? ?; congruence].
    intros t tr s h Ht Hin. by exists tr.
Qed.

(** With [ensure_mass_growth] set and the first output snapshot inside
    [min_snapshot, max_snapshot), [build_trees] never returns
    normally: the root halos have no descendant, and
    [ensure_halo_mass_growth] dereferences it (for a fresh population,
    with no halo later than the root snapshot). *)
Theorem build_trees_mass_growth_needs_root_at_max exec_params input sim_params ubf fuel
    σi forest σf r rest :
  trees σi = [] → output_snapshots exec_params = r :: rest →
  ensure_mass_growth exec_params = true →
  (∀ h hr, h ∈ input → halos σi !! h = Some hr →
     h_snapshot hr ≤ r ∧ h_descendant hr = None) →
  min_snapshot sim_params ≤ r < max_snapshot sim_params →
  build_trees exec_params input sim_params ubf fuel σi ≠ Ret forest σf.
Proof.
  intros Hnil Hout Hflag Hfresh Hr Hrun.
  assert (Hne : forest ≠ []).
  { intros ->. unfold build_trees in Hrun. rewrite Hout in Hrun.
    apply bind_Ret_inv in Hrun as ([|t ts] & σ0 & Hseed & Hrun).
    - by apply bind_Ret_inv in Hrun as (? & ? & _ & Hrun).
    - do 5 (apply bind_Ret_inv in Hrun as (? & ? & _ & Hrun)).
      by apply ret_Ret_inv in Hrun as [? _]. }
  apply build_trees_Ret_inv in Hrun
    as (r' & rest' & σ0 & σ1 & σ2 & σ3 & Hout' & Hseed & Hloop & Hcheck & Hgrow & _).
  rewrite Hout in Hout'. injection Hout' as <- <-. rewrite Hflag in Hgrow.
  destruct (seed_trees_Ret_inv _ _ _ _ _ Hnil Hseed) as (Hst0 & Hroots & _ & _ & Hforest).
  destruct (seed_trees_seeded _ _ _ _ _ Hseed Hnil) as [Hd0 Hmember].
  destruct (linker_keeps_forest _ _ _ _ _ _ Hroots Hloop)
    as (set & processed & index & Hset & Hp & _ & _ & _).
  assert (Hnp : r ∉ processed).
  { eapply (root_not_processed input σi σ0); [done| |done..].
    intros h hr Hin Hh. by destruct (Hfresh h hr Hin Hh). }
  destruct (linker_keeps_roots _ _ _ _ _ _ _ _ Hset Hp Hnp Hloop) as (Hst1 & Hb1 & Hd1).
  (* tree 0 and the root halo it lists *)
  destruct (trees σ0) as [|tr0 trs0] eqn:Htrees0; [by subst forest|].
  destruct (Hmember 0%nat tr0) as (h & Hin0 & Hinput); [done|].
  destruct (Hb1 0%nat tr0 r h) as (tr1 & Htr1 & Hin1); [done|done|].
  destruct (ensure_halo_mass_growth_Ret_inv _ _ _ _ _ Hgrow 0%nat tr1 r h)
    as (hr1 & d & Hhr1 & Hdesc & _); [|done|done|done|].
  { subst forest. cbn. left. }
  (* but the root halo has no descendant *)
  destruct (Hroots 0%nat tr0 r h) as (hr0 & Hhr0 & Hs0 & _); [by rewrite Htrees0|done|].
  rewrite (Hd1 h hr0 hr1 Hhr0 Hs0 Hhr1) in Hdesc.
  pose proof (Hd0 h) as Hdi. rewrite Hhr0 in Hdi. cbn in Hdi.
  destruct (halos σi !! h) as [hri|] eqn:Hhri; [|done]. cbn in Hdi.
  destruct (Hfresh h hri Hinput Hhri) as [_ Hnone]. congruence.
Qed.

End RootsBelowMax.
Section BuildTreesCentrals.
Context {R : Type} {SR : Scalar R}.
Implicit Types σ : state R.

(** In the forest [build_trees] returns, every halo that a tree lists
    between [min_snapshot] and [max_snapshot] has a central subhalo. *)
Theorem build_trees_defines_centrals exec_params input sim_params ubf fuel σi forest σf :
  build_trees exec_params input sim_params ubf fuel σi = Ret forest σf →
  ∀ t tr s h, t ∈ forest → trees σf !! t = Some tr →
    min_snapshot sim_params ≤ s ≤ max_snapshot sim_params → h ∈ bucket tr s →
    ∃ hr, halos σf !! h = Some hr ∧ is_Some (h_central_subhalo hr).
Proof.
  intros (r & rest & σ0 & σ1 & σ2 & σ3 & _ & _ & _ & _ & _ & Hcentral & Haccr)
    %build_trees_Ret_inv t tr s h Ht Htr Hs Hin.
  (* the accretion pass changes no halo *)
  assert (Hh : halos σf = halos σ3).
  { refine (hoare_elim (λ σ, halos σ = halos σ3) _ (λ _ σ, halos σ = halos σ3) _ _ _
              (define_accretion_rate_from_dm_frame _ _ _ _ _ _ _) eq_refl Haccr).
    - intros x f. apply hoare_Ret. by intros σ a σ' Ha (ss & -> & _)%modify_subhalo_Ret_inv'.
    - intros x y. apply hoare_Ret.
      by intros σ l σ' Ha (? & ? & ? & _ & _ & -> & _)%halos_at_Ret_inv.
    - intros x v. apply hoare_Ret. intros σ a σ' Ha [= _ <-]. done. }
  (* the buckets are those of the forest as linked *)
  destruct (proj1 (proj2 (passes_keep_shape_lemma forest sim_params fuel ubf σ2 tt σ3)) Hcentral)
    as [_ (f & Hf & Hfb)].
  destruct (proj2 (proj2 (passes_keep_shape_lemma forest sim_params fuel ubf σ3 tt σf)) Haccr)
    as [_ (g & Hg & Hgb)].
  eapply pointwise_lookup in Htr as (tr3 & Htr3 & Heq); [|exact Hg]. subst tr.
  eapply pointwise_lookup in Htr3 as (tr2 & Htr2 & Heq); [|exact Hf]. subst tr3.
  rewrite Hgb, Hfb in Hin. rewrite Hh.
  by eapply define_central_subhalos_Ret_centrals.
Qed.

End BuildTreesCentrals.
Section AdjacentLinks.
Context {R : Type} {SR : Scalar R}.
Implicit Types σ : state R.

Lemma preserves_elim {A} (I : state R → Prop) (m : M R A) σ a σ' :
  preserves I m → I σ → m σ = Ret a σ' → I σ'.
Proof. apply hoare_elim. Qed.

Lemma linked_and_pruned_hosted σ0 σ h hr s :
  linked_and_pruned σ0 σ → halos σ !! h = Some hr → s ∈ all_subhalos hr → hosted_in σ0 h s.
Proof.
  intros (_ & Hh & Hl & _) Hhr Hs. specialize (Hh h). rewrite Hhr in Hh.
  destruct (halos σ0 !! h) as [hr0|] eqn:Hhr0; [|done].
  exists hr0. split; [done|]. destruct (Hl h hr0 hr Hhr0 Hhr) as [Hsub _].
  by eapply elem_of_sublist.
Qed.

Lemma linked_and_pruned_halo_snapshot σ0 σ h hr hr0 :
  linked_and_pruned σ0 σ → halos σ !! h = Some hr → halos σ0 !! h = Some hr0 →
  h_snapshot hr = h_snapshot hr0.
Proof.
  intros (_ & Hh & _) Hhr Hhr0. specialize (Hh h). rewrite Hhr, Hhr0 in Hh.
  apply (f_equal (fmap h_snapshot)) in Hh. cbn in Hh. by injection Hh.
Qed.

Lemma linked_and_pruned_subhalo_snapshot σ0 σ s sr :
  linked_and_pruned σ0 σ → subhalos σ !! s = Some sr →
  ∃ sr0, subhalos σ0 !! s = Some sr0 ∧ sh_snapshot sr0 = sh_snapshot sr.
Proof.
  intros (Hs & _) Hsr. specialize (Hs s). rewrite Hsr in Hs.
  destruct (subhalos σ0 !! s) as [sr0|]; [|done]. exists sr0. split; [done|].
  apply (f_equal (fmap sh_snapshot)) in Hs. cbn in Hs. by injection Hs.
Qed.

(** A call of [link] in the linker keeps the halo links adjacent when
    the subhalos carried their hosts' snapshots to begin with. *)
Lemma link_keeps_adjacent_halo_links σ0 processed index ps ds ph dh σ u σ' :
  subhalos_at_host_snapshot σ0 →
  adjacent_halo_links σ → linked_and_pruned σ0 σ →
  link_site σ0 processed index σ ps ds ph dh → hosted_in σ0 ph ps → hosted_in σ0 dh ds →
  link ps ds ph dh σ = Ret u σ' →
  adjacent_halo_links σ'.
Proof.
  intros Hagree Hadj Hlp ((psr & dsr & Hps & Hds & Hsnap) & _ & _)
    (phr0 & Hph0 & Hpin) (dhr0 & Hdh0 & Hdin) Hrun.
  destruct (linked_and_pruned_subhalo_snapshot _ _ _ _ Hlp Hps) as (psr0 & Hps0 & Ep).
  destruct (linked_and_pruned_subhalo_snapshot _ _ _ _ Hlp Hds) as (dsr0 & Hds0 & Ed).
  pose proof (Hagree _ _ _ _ Hph0 Hpin Hps0) as Efp.
  pose proof (Hagree _ _ _ _ Hdh0 Hdin Hds0) as Efd.
  apply link_Ret_inv in Hrun
    as (psr' & phr & dhr & t & _ & Hph & Hdh & _ & _ & _ & _ & _ & Hhs & _).
  pose proof (linked_and_pruned_halo_snapshot _ _ _ _ _ Hlp Hph Hph0) as Eph.
  pose proof (linked_and_pruned_halo_snapshot _ _ _ _ _ Hlp Hdh Hdh0) as Edh.
  intros x xr' d dr' Hx Hd Hdr.
  eapply pointwise_lookup in Hx as (xr & Hxr & Ex); [|exact Hhs].
  eapply pointwise_lookup in Hdr as (dr & Hdrr & Edr); [|exact Hhs].
  subst xr' dr'. rewrite !link_halo_update_snapshot.
  rewrite link_halo_update_descendant in Hd.
  destruct (decide (x = ph)) as [->|Hne].
  - injection Hd as <-. simplify_eq. lia.
  - by eapply Hadj.
Qed.

(** The linker keeps the links between halos adjacent when the
    subhalos carry their hosts' snapshots. *)
Lemma linker_keeps_adjacent_halo_links exec_params input σ0 σ1 u :
  subhalos_at_host_snapshot σ0 → adjacent_halo_links σ0 →
  loop_through_halos exec_params input σ0 = Ret u σ1 →
  adjacent_halo_links σ1.
Proof.
  intros Hagree Hadj
    (bs & index & set & processed & _ & _ & _ & Hinv)%loop_through_halos_Ret_inv_hosted.
  refine (proj1 (Hinv (λ σ, adjacent_halo_links σ ∧ linked_and_pruned σ0 σ)
                   (hosted_in σ0) _ _ _ _ _)).
  - intros halo sub. apply hoare_Ret. intros σ a σ' [Ha Hlp] Hrun.
    pose proof (preserves_elim _ _ _ _ _ (linked_and_pruned_remove_subhalo σ0 halo sub)
                  Hlp Hrun) as Hlp'.
    split; [|done]. apply remove_subhalo_Ret_inv in Hrun as (hs & -> & Hhs).
    intros x xr' d dr' Hx Hd Hdr. cbn in Hx, Hdr.
    eapply pointwise_lookup in Hx as (xr & Hxr & Ex); [|exact Hhs].
    eapply pointwise_lookup in Hdr as (dr & Hdrr & Edr); [|exact Hhs].
    subst xr' dr'.
    assert (Hkeep : ∀ y (r : Halo R),
              h_snapshot (remove_subhalo_update halo sub y r) = h_snapshot r ∧
              h_descendant (remove_subhalo_update halo sub y r) = h_descendant r).
    { intros y r. unfold remove_subhalo_update. destruct (decide (y = halo)); [|done].
      destruct (decide (h_central_subhalo r = Some sub)); [done|].
      by destruct (erase_first sub (h_satellite_subhalos r)). }
    rewrite !(proj1 (Hkeep _ _)). rewrite (proj2 (Hkeep _ _)) in Hd. by eapply Ha.
  - intros m. apply hoare_Ret. intros σ a σ' [Ha Hlp] Hrun.
    pose proof (preserves_elim _ _ _ _ _ (linked_and_pruned_log_warning σ0 m) Hlp Hrun).
    apply log_warning_Ret_inv in Hrun as ->. done.
  - intros σ h hr s [_ Hlp]. by apply linked_and_pruned_hosted.
  - intros ps ds ph dh. apply hoare_Ret. intros σ a σ' ([Ha Hlp] & Hsite & Hkp & Hkd) Hrun.
    split; [by eapply link_keeps_adjacent_halo_links|].
    exact (preserves_elim _ _ _ _ _ (linked_and_pruned_link σ0 ps ds ph dh) Hlp Hrun).
  - split; [done|apply linked_and_pruned_refl].
Qed.

(** C8, amended. When the claimed descendant subhalo is found among
    the subhalos of the descendant halo, the linker calls [link] if
    the descendant subhalo's snapshot is the parent subhalo's snapshot
    plus one and throws [invalid_data] otherwise; when the descendant
    subhalo's snapshot is the smallest [int], the subtraction of the
    test overflows, which is undefined.  Hence [loop_through_halos]
    keeps the invariant that every subhalo with a descendant sits
    exactly one snapshot before it.  The snapshots of the halos are not
    tested: the links between halos are kept adjacent when every
    subhalo carries the snapshot of the halo that lists it. *)
Theorem linker_links_adjacent_snapshots :
  (∀ exec_params (σ : state R) halo subhalo halos_by_id ignored halo_linked
     sr d_halo dhr before d_subhalo after dsr,
     subhalos σ !! subhalo = Some sr → sh_has_descendant sr = true →
     halos_by_id !! sh_descendant_halo_id sr = Some d_halo → halos σ !! d_halo = Some dhr →
     all_subhalos dhr = before ++ d_subhalo :: after →
     (∀ x, x ∈ before →
        ∃ xr, subhalos σ !! x = Some xr ∧ sh_id xr ≠ sh_descendant_id sr) →
     subhalos σ !! d_subhalo = Some dsr → sh_id dsr = sh_descendant_id sr →
     link_subhalo exec_params halo subhalo (halos_by_id, ignored, halo_linked) σ =
     if decide (sh_snapshot dsr = int_min) then Undefined
     else if decide (sh_snapshot dsr = sh_snapshot sr + 1) then
       (link subhalo d_subhalo halo d_halo ;;; ret (Next, (halos_by_id, ignored, true))) σ
     else Throw (invalid_data (msg_not_direct_descendant d_subhalo subhalo))) ∧
  (∀ exec_params input (σ0 σ1 : state R) u,
     adjacent_links σ0 →
     loop_through_halos exec_params input σ0 = Ret u σ1 →
     adjacent_links σ1) ∧
  (∀ exec_params input (σ0 σ1 : state R) u,
     subhalos_at_host_snapshot σ0 → adjacent_halo_links σ0 →
     loop_through_halos exec_params input σ0 = Ret u σ1 →
     adjacent_halo_links σ1).
Proof.
  split; [|split].
  - intros exec_params σ halo subhalo halos_by_id ignored halo_linked sr d_halo dhr before
      d_subhalo after dsr Hs Hhas Hidx Hdh Hall Hb Hd Hid.
    unfold link_subhalo.
    erewrite run_bind by by apply run_get_subhalo. rewrite Hhas, Hidx. cbn.
    erewrite run_bind by by apply run_get_halo. rewrite Hall.
    unfold bind at 1. erewrite find_descendant_found by done.
    destruct (decide (sh_snapshot dsr = int_min)); [done|].
    destruct (decide (sh_snapshot dsr = sh_snapshot sr + 1)); [|done].
    unfold bind. by destruct (link subhalo d_subhalo halo d_halo σ).
  - intros exec_params input σ0 σ1 u Hadj
      (bs & index & set & processed & _ & _ & _ & Hinv)%loop_through_halos_Ret_inv.
    apply (Hinv adjacent_links); [| | |done].
    + apply remove_subhalo_keeps_adjacent_links.
    + apply log_warning_keeps_adjacent_links.
    + intros ps ds ph dh. apply hoare_Ret. intros σ a σ' [Hσ Hsite] Hrun.
      by eapply link_keeps_adjacent_links.
  - intros exec_params input σ0 σ1 u. apply linker_keeps_adjacent_halo_links.
Qed.

End AdjacentLinks.
Section Layout.
Context {R : Type} {SR : Scalar R}.
Implicit Types σ : state R.


Section Fixed.
Variables (r : Z) (index : gmap Z hptr) (σ0 : state R) (processed : list Z).
Hypothesis Hr : r ∉ processed.


End Fixed.



End Layout.
Section MassGrowthClaim.
Context {R : Type} {SR : Scalar R} {SO : ScalarOrder R}.
Implicit Types σ : state R.



End MassGrowthClaim.
(** * The claims at the concrete populations *)

(** The integers with [<] are a strict total order. *)
#[export] Instance Z_scalar_order : ScalarOrder Z.
Proof.
  split; cbn.
  - intros a. apply Z.ltb_irrefl.
  - intros a b c H1%Z.ltb_lt H2%Z.ltb_lt. apply Z.ltb_lt. lia.
  - intros a b H1%Z.ltb_ge H2%Z.ltb_ge. lia.
Qed.

Ltac elem_cases H :=
  repeat (apply elem_of_cons in H as [->|H]); try (by apply elem_of_nil in H).

(** [linker_snapshot_order] on the two-snapshot population. *)
Lemma linker_snapshot_order_witness :
  ∃ processed, linker_snapshots [0%nat; 1%nat] two_snapshots processed ∧
    StronglySorted (λ a b, b < a) processed ∧
    skips_root_snapshot two_snapshots_exec [0%nat; 1%nat] two_snapshots processed.
Proof.
  destruct (linker_snapshot_order two_snapshots_exec [0%nat; 1%nat] two_snapshots)
    as (processed & Hp & _ & Hsorted & _ & Hroot).
  - intros h Hin. elem_cases Hin; by eexists.
  - done.
  - exists processed. split; [done|]. split; [done|]. apply (Hroot 1 []); [done| |].
    + exists 1%nat. eexists. split; [right; left|]. split; reflexivity.
    + intros s (h & hr & Hin & Hh & <-). elem_cases Hin; injection Hh as <-; cbn; lia.
Defined.



(** [accreted_mass_is_clamped_baryon_share] on the resolved chain: the
    root's central subhalo accretes [(12 - 5) * 2]. *)
Lemma accreted_mass_is_clamped_baryon_share_witness :
  ∃ σ', define_accretion_rate_from_dm [0%nat] two_snapshots_sim 2 resolved_chain = Ret tt σ' ∧
        (sh_accreted_mass <$> subhalos σ' !! 1%nat) = Some 14.
Proof.
  destruct (accreted_mass_is_clamped_baryon_share [0%nat] two_snapshots_sim 2 resolved_chain)
    as (σ' & Hrun & _ & Hval & _); [|done|done|].
  - split.
    + intros t Ht. elem_cases Ht. eexists. split; [reflexivity|].
      intros s h Hs Hin. cbn in Hs.
      assert (s = 0 ∨ s = 1) as [-> | ->] by lia.
      * change (h ∈ [0%nat]) in Hin. elem_cases Hin.
        eexists _, _, _. split; [reflexivity|]. split; [|split; reflexivity].
        intros a Ha. by apply elem_of_empty in Ha.
      * change (h ∈ [1%nat]) in Hin. elem_cases Hin.
        eexists _, _, _. split; [reflexivity|]. split; [|split; reflexivity].
        intros a Ha. cbn in Ha. apply elem_of_singleton in Ha as ->. by eexists.
    + intros h1 h2 hr1 hr2 c H1 H2 Hc1 Hc2.
      destruct h1 as [|[|h1]], h2 as [|[|h2]]; cbn in H1, H2; simplify_eq; cbn in *;
        simplify_eq; done.
  - exists σ'. split; [done|].
    edestruct (Hval 0%nat (mkMergerTree 0 {[0 := [0%nat]; 1 := [1%nat]]}) 1 1%nat)
      as (cr' & Hcr' & Hm & _); [left|reflexivity|cbn; lia|left|reflexivity|reflexivity|].
    rewrite Hcr'. cbn. rewrite Hm. reflexivity.
Defined.

(** [forest_is_self_contained] on the forest [build_trees] returns
    for the two-snapshot population. *)
Lemma forest_is_self_contained_witness :
  ∃ forest σf,
    build_trees two_snapshots_exec [0%nat; 1%nat] two_snapshots_sim 2 5 two_snapshots
      = Ret forest σf ∧
    ∀ t tr s h, t ∈ forest → trees σf !! t = Some tr → h ∈ bucket tr s →
      ∃ hr, halos σf !! h = Some hr ∧ h_merger_tree hr = Some t ∧ h_snapshot hr = s ∧
            NoDup (bucket tr s).
Proof.
  assert (Hle : ∀ x xr, x ∈ [0%nat; 1%nat] → halos two_snapshots !! x = Some xr →
                 h_snapshot xr ≤ 1).
  { intros x xr Hx Hxr. elem_cases Hx; injection Hxr as <-; cbn; lia. }
  destruct (build_trees two_snapshots_exec [0%nat; 1%nat] two_snapshots_sim 2 5 two_snapshots)
    as [forest σf| | |] eqn:E; try (by vm_compute in E).
  exists forest, σf. split; [reflexivity|]. intros t tr s h Ht Htr Hin.
  destruct (proj1 forest_is_self_contained two_snapshots_exec [0%nat; 1%nat]
              two_snapshots_sim 2 5%nat two_snapshots σf forest 1 [] eq_refl eq_refl Hle E
              t tr s h Ht Htr Hin) as (hr & H1 & H2 & H3 & H4 & _).
  exists hr. split; [exact H1|]. split; [exact H2|]. split; [exact H3|exact H4].
Defined.

(** [link_single_descendant] on the first link of the two-snapshot
    population. *)
Lemma link_single_descendant_witness :
  ∃ σ', link 0 1 0 1 two_snapshots_seeded = Ret tt σ' ∧
        (h_descendant <$> halos σ' !! 0%nat) = Some (Some 1%nat) ∧
        (sh_descendant <$> subhalos σ' !! 0%nat) = Some (Some 1%nat).
Proof.
  destruct (link_single_descendant two_snapshots_seeded 0 1 0 1 _ _ _ _
              eq_refl eq_refl eq_refl eq_refl) as (_ & _ & _ & Hok).
  destruct (Hok eq_refl) with (t := 0%nat) as (σ' & Hrun & Hs & Hh & _).
  - intros d [=].
  - reflexivity.
  - by eexists.
  - exists σ'. split; [done|]. rewrite (Hh 0%nat), (Hs 0%nat). done.
Defined.

(** [missing_descendant_policy] with both flags set. *)
Lemma missing_descendant_policy_witness :
  ∃ σ', link_subhalo skip_and_warn 0 0 (two_snapshots_index, 0, false)
          missing_descendant_population
        = Ret (Next, (two_snapshots_index, 0, false)) σ' ∧
        warnings σ' = [msg_descendant_not_found 999 0 1 [1%nat]] ∧
        subhalos σ' = subhalos missing_descendant_population.
Proof.
  edestruct (missing_descendant_policy skip_and_warn missing_descendant_population 0 0
               two_snapshots_index 0 false
               (subhalo_at 200 0 SATELLITE 0 true 101 999) (halo_at 100 0 50 [0%nat])
               1%nat (rooted 0 (halo_at 101 1 40 [1%nat])))
    as (hr' & He & Hrun); try reflexivity.
  - intros x Hx. change (x ∈ [1%nat]) in Hx. elem_cases Hx. eexists.
    split; [reflexivity|done].
  - left.
  - eexists. split; [exact Hrun|]. split; reflexivity.
Defined.

(** [define_central_subhalos_idempotent] on the resolved chain. *)
Lemma define_central_subhalos_idempotent_witness :
  ∃ σ', define_central_subhalos [0%nat] two_snapshots_sim 5 resolved_chain = Ret tt σ' ∧
        same_heap resolved_chain σ'.
Proof.
  destruct (define_central_subhalos_idempotent [0%nat] two_snapshots_sim 5 resolved_chain)
    as [_ H]; [|done|].
  - intros t Ht. elem_cases Ht. eexists. split; [reflexivity|]. intros s h Hin.
    destruct (decide (s = 0)) as [->|H0]; [|destruct (decide (s = 1)) as [->|H1]].
    + change (h ∈ [0%nat]) in Hin. elem_cases Hin. by eexists.
    + change (h ∈ [1%nat]) in Hin. elem_cases Hin. by eexists.
    + unfold bucket in Hin. cbn in Hin.
      rewrite lookup_insert_ne, lookup_singleton_ne in Hin by done.
      by apply elem_of_nil in Hin.
  - apply H. cbn. lia.
Defined.

(** C2. The linker skips the largest snapshot present in the halo
    population, not the root snapshot that [build_trees] has seeded:
    with halos at the snapshots 1 and 2 and the output snapshots
    starting at 1, it skips snapshot 2 and processes the root
    snapshot 1, where it strips the root halo of its subhalo;
    [build_trees] then runs into undefined behaviour, when
    [define_central_subhalos] takes the first subhalo of the root
    halo. *)
Theorem linker_processes_root_snapshot :
  (∃ processed, linker_snapshots [0%nat; 1%nat] late_halo processed ∧ processed = [1] ∧
     ¬ skips_root_snapshot root_at_1 [0%nat; 1%nat] late_halo processed) ∧
  seed_trees 1 [0%nat; 1%nat] late_halo = Ret [0%nat] late_halo_seeded ∧
  loop_through_halos root_at_1 [0%nat; 1%nat] late_halo_seeded
    = Ret tt late_halo_linked ∧
  build_trees root_at_1 [0%nat; 1%nat] lone_root_sim 2 5 late_halo = Undefined.
Proof.
  split; [|split; [|split]]; try (vm_compute; reflexivity).
  exists [1]. split; [|split; [done|]].
  - exists [1; 2]. split; [vm_compute; reflexivity|reflexivity].
  - intros (r & rest & Hout & Hiff). injection Hout as <- <-.
    destruct (Hiff 1) as [H _]. destruct H as [_ Hne]; [left|done].
Qed.

(** C5. With a halo later than the root snapshot the linker processes
    the root snapshot: a root halo whose subhalo descends into a
    sibling subhalo is linked to itself and appended to its bucket a
    second time, and [build_trees] returns a forest whose bucket lists
    it twice. *)
Theorem self_linked_root_listed_twice :
  linker_snapshots [0%nat; 1%nat] self_linked_root [1] ∧
  ∃ σf tr,
    build_trees root_at_1 [0%nat; 1%nat] lone_root_sim 2 5 self_linked_root
      = Ret [0%nat] σf ∧
    trees σf !! 0%nat = Some tr ∧ bucket tr 1 = [0%nat; 0%nat] ∧
    ¬ forest_ok [0%nat] σf.
Proof.
  split.
  { exists [1; 2]. split; [vm_compute; reflexivity|reflexivity]. }
  destruct (build_trees root_at_1 [0%nat; 1%nat] lone_root_sim 2 5 self_linked_root)
    as [forest σf| | |] eqn:E; try (by vm_compute in E).
  vm_compute in E. injection E as <- <-.
  eexists _, _. split; [reflexivity|]. split; [reflexivity|]. split; [reflexivity|].
  intros Hok. assert (Hin : 0%nat ∈ [0%nat]) by left.
  destruct (Hok 0%nat _ 1 0%nat Hin eq_refl) as [_ Hnd]; [vm_compute; left|].
  vm_compute in Hnd. apply NoDup_cons in Hnd as [Hnotin _]. apply Hnotin. left.
Qed.



(** C8 as worded fails. The halos' own snapshots are not tested: a
    halo at snapshot 0 whose subhalo is at snapshot 1 is linked to a
    halo at snapshot 2 in the forest that [build_trees] returns. And
    with the descendant subhalo at the smallest [int] the test itself
    overflows instead of throwing [invalid_data], although the
    parent subhalo is not one snapshot before it. *)
Lemma halo_link_skips_a_snapshot :
  (∃ σf, build_trees root_at_2 [0%nat; 1%nat] lone_root_sim 2 5 distant_halos
           = Ret [0%nat] σf ∧
     (h_descendant <$> halos σf !! 0%nat) = Some (Some 1%nat) ∧
     (h_snapshot <$> halos σf !! 0%nat) = Some 0 ∧
     (h_snapshot <$> halos σf !! 1%nat) = Some 2 ∧
     ¬ adjacent_halo_links σf) ∧
  int_min ≠ int_max + 1 ∧
  link_subhalo two_snapshots_exec 0 0 (two_snapshots_index, 0, false) wrapped_snapshots
    = Undefined.
Proof.
  split; [|split; [done|vm_compute; reflexivity]].
  destruct (build_trees root_at_2 [0%nat; 1%nat] lone_root_sim 2 5 distant_halos)
    as [forest σf| | |] eqn:E; try (by vm_compute in E).
  vm_compute in E. injection E as <- <-.
  eexists. split; [reflexivity|]. do 3 (split; [reflexivity|]).
  intros Ha. by specialize (Ha 0%nat _ 1%nat _ eq_refl eq_refl eq_refl).
Qed.

(** [linker_links_adjacent_snapshots] on the two-snapshot population:
    the step of subhalo 0 calls [link], and the links between subhalos
    and between halos are adjacent after the linker. *)
Lemma linker_links_adjacent_snapshots_witness :
  link_subhalo two_snapshots_exec 0 0 (two_snapshots_index, 0, false) two_snapshots_seeded =
    (link 0 1 0 1 ;;; ret (Next, (two_snapshots_index, 0, true))) two_snapshots_seeded ∧
  ∃ σ1, loop_through_halos two_snapshots_exec [0%nat; 1%nat] two_snapshots_seeded = Ret tt σ1 ∧
        adjacent_links σ1 ∧ adjacent_halo_links σ1.
Proof.
  assert (Hs0 : adjacent_links two_snapshots_seeded).
  { intros s sr d dr Hs Hd. destruct s as [|[|s]]; cbn in Hs; by simplify_eq. }
  assert (Hh0 : adjacent_halo_links two_snapshots_seeded).
  { intros h hr d dr Hh Hd. destruct h as [|[|h]]; cbn in Hh; by simplify_eq. }
  assert (Hagree : subhalos_at_host_snapshot two_snapshots_seeded).
  { intros h hr s sr Hh Hin Hs.
    destruct h as [|[|h]]; cbn in Hh; simplify_eq; cbn in Hin; elem_cases Hin;
      cbn in Hs; by simplify_eq. }
  split.
  - exact (proj1 linker_links_adjacent_snapshots two_snapshots_exec two_snapshots_seeded 0%nat
           0%nat two_snapshots_index 0 false (subhalo_at 200 0 SATELLITE 0 true 101 201)
           1%nat (rooted 0 (halo_at 101 1 40 [1%nat])) [] 1%nat []
           (subhalo_at 201 1 SATELLITE 1 false 0 0)
           eq_refl eq_refl eq_refl eq_refl eq_refl
           (λ x Hx, False_ind _ (proj1 (elem_of_nil x) Hx)) eq_refl eq_refl).
  - destruct (loop_through_halos two_snapshots_exec [0%nat; 1%nat] two_snapshots_seeded)
      as [[] σ1| | |] eqn:E; try (by vm_compute in E).
    exists σ1. split; [reflexivity|]. split.
    + exact (proj1 (proj2 linker_links_adjacent_snapshots) two_snapshots_exec [0%nat; 1%nat]
               two_snapshots_seeded σ1 tt Hs0 E).
    + exact (proj2 (proj2 linker_links_adjacent_snapshots) two_snapshots_exec [0%nat; 1%nat]
               two_snapshots_seeded σ1 tt Hagree Hh0 E).
Defined.
(** * The further properties at the concrete populations *)

(** [check_one_central_counts] on the halo with two [CENTRAL] tags. *)
Lemma check_one_central_counts_witness :
  check_one_central 1 0 two_centrals =
  Throw (invalid_argument (msg_more_than_one_central 0 1)).
Proof.
  refine (check_one_central_counts two_centrals 0%nat 1
            (rooted 0 (halo_at 100 1 50 [0%nat; 1%nat])) eq_refl _).
  intros s Hs. change (s ∈ [0%nat; 1%nat]) in Hs. elem_cases Hs; by eexists.
Defined.

(** [define_central_subhalos_needs_min_below_max] with
    [min_snapshot = max_snapshot = 1]. *)
Lemma define_central_subhalos_needs_min_below_max_witness :
  define_central_subhalos [0%nat] (mkSim 1 1) 5 resolved_chain ≠ Ret tt resolved_chain.
Proof.
  apply define_central_subhalos_needs_min_below_max. cbn. lia.
Defined.

(** [remove_satellite_erases_first] on the only satellite of halo 0. *)
Lemma remove_satellite_erases_first_witness :
  remove_satellite 0 0 two_snapshots =
  Ret tt (st_with_halos
            (<[0%nat := h_with_satellite_subhalos [] (halo_at 100 0 50 [0%nat])]>
               (halos two_snapshots)) two_snapshots).
Proof.
  refine (proj2 (remove_satellite_erases_first two_snapshots 0%nat 0%nat
                   (halo_at 100 0 50 [0%nat]) eq_refl) [] [] eq_refl _).
  by intros ?%elem_of_nil.
Defined.

(** [define_central_subhalo_promotes] on the only satellite of halo 0. *)
Lemma define_central_subhalo_promotes_witness :
  ∃ σ', define_central_subhalo 0 0 two_snapshots = Ret 0%nat σ' ∧
        (h_central_subhalo <$> halos σ' !! 0%nat) = Some (Some 0%nat) ∧
        (sh_subhalo_type <$> subhalos σ' !! 0%nat) = Some CENTRAL.
Proof.
  destruct (proj2 (define_central_subhalo_promotes two_snapshots 0%nat 0%nat
                     (halo_at 100 0 50 [0%nat]) (subhalo_at 200 0 SATELLITE 0 true 101 201)
                     eq_refl eq_refl) [] [] eq_refl) as [Hrun _].
  - by intros ?%elem_of_nil.
  - eexists. split; [exact Hrun|]. split; reflexivity.
Defined.

(** [max_element_Mvir_is_most_massive] on the two subhalos. *)
Lemma max_element_Mvir_is_most_massive_witness :
  ∃ m, max_element_Mvir 0 [1%nat] two_snapshots = Ret m two_snapshots ∧ m ∈ [0%nat; 1%nat].
Proof.
  destruct (max_element_Mvir_is_most_massive two_snapshots 0%nat [1%nat])
    as (m & mr & Hrun & Hin & _).
  - intros x Hx. elem_cases Hx; by eexists.
  - by exists m.
Defined.

(** [seed_trees_one_tree_per_root] on the two-snapshot population. *)
Lemma seed_trees_one_tree_per_root_witness :
  ∃ σ', seed_trees 1 [0%nat; 1%nat] two_snapshots = Ret [0%nat] σ' ∧
        trees σ' = [mkMergerTree 0 {[1 := [1%nat]]}].
Proof.
  destruct (seed_trees_one_tree_per_root 1 [0%nat; 1%nat] two_snapshots)
    as (σ' & Hrun & Htrees & _).
  - reflexivity.
  - intros h Hh. elem_cases Hh; by eexists.
  - apply NoDup_cons. split; [by intros ?%list_elem_of_singleton|apply NoDup_singleton].
  - by exists σ'.
Defined.

(** [build_trees_without_roots] with the output snapshots starting at
    5, where the population has no halo. *)
Lemma build_trees_without_roots_witness :
  ∃ found, build_trees (mkExec [5] false false false) [0%nat; 1%nat] two_snapshots_sim 2 5
             two_snapshots =
           Throw (invalid_data (msg_no_halos_at_snapshot 5 found [5])).
Proof.
  destruct (build_trees_without_roots (mkExec [5] false false false) [0%nat; 1%nat]
              two_snapshots_sim 2 5%nat two_snapshots 5 [] eq_refl)
    as (found & Hrun & _).
  - intros h Hh. elem_cases Hh; eexists; (split; [reflexivity|done]).
  - by exists found.
Defined.

(** [build_trees_returns_root_trees] on the two-snapshot population. *)
Lemma build_trees_returns_root_trees_witness :
  ∃ forest σf,
    build_trees two_snapshots_exec [0%nat; 1%nat] two_snapshots_sim 2 5 two_snapshots
      = Ret forest σf ∧ forest = [0%nat].
Proof.
  assert (Hlive : ∀ h, h ∈ [0%nat; 1%nat] → is_Some (halos two_snapshots !! h)).
  { intros h Hh. elem_cases Hh; by eexists. }
  assert (Hnd : NoDup [0%nat; 1%nat]).
  { apply NoDup_cons. split; [by intros ?%list_elem_of_singleton|apply NoDup_singleton]. }
  destruct (build_trees two_snapshots_exec [0%nat; 1%nat] two_snapshots_sim 2 5 two_snapshots)
    as [forest σf| | |] eqn:E; try (by vm_compute in E).
  exists forest, σf. split; [reflexivity|].
  exact (proj1 (build_trees_returns_root_trees two_snapshots_exec [0%nat; 1%nat]
                  two_snapshots_sim 2 5%nat two_snapshots forest σf 1 []
                  eq_refl Hlive Hnd eq_refl E)).
Defined.

(** [passes_keep_the_forest_shape] on the chain with the heavy middle
    halo. *)
Lemma passes_keep_the_forest_shape_witness :
  ∃ σ', ensure_halo_mass_growth [0%nat] heavy_middle_sim heavy_middle = Ret tt σ' ∧
        links_kept heavy_middle σ'.
Proof.
  destruct (ensure_halo_mass_growth [0%nat] heavy_middle_sim heavy_middle)
    as [[] σ'| | |] eqn:E; try (by vm_compute in E).
  exists σ'. split; [reflexivity|].
  exact (proj1 (passes_keep_the_forest_shape [0%nat] heavy_middle_sim 0%nat 0
                  heavy_middle tt σ') E).
Defined.

(** [ensure_halo_mass_growth_keeps_grown_forest] on the resolved chain,
    whose root is the more massive halo. *)
Lemma ensure_halo_mass_growth_keeps_grown_forest_witness :
  ∃ σ', ensure_halo_mass_growth [0%nat] two_snapshots_sim resolved_chain = Ret tt σ' ∧
        same_heap resolved_chain σ'.
Proof.
  apply ensure_halo_mass_growth_keeps_grown_forest.
  intros t Ht. elem_cases Ht. eexists. split; [reflexivity|].
  intros s h Hs Hin. cbn in Hs. assert (s = 0) as -> by lia.
  change (h ∈ [0%nat]) in Hin. elem_cases Hin.
  eexists _, _, _. split; [reflexivity|]. split; [reflexivity|]. split; reflexivity.
Defined.

(** [loop_through_halos_single_snapshot] on the lone root. *)
Lemma loop_through_halos_single_snapshot_witness :
  loop_through_halos two_snapshots_exec [0%nat] lone_root_seeded = Ret tt lone_root_seeded.
Proof.
  apply (loop_through_halos_single_snapshot two_snapshots_exec [0%nat] lone_root_seeded 1).
  - done.
  - intros h Hh. elem_cases Hh. eexists. split; reflexivity.
Defined.

(** [link_subhalo_without_target] on the root's subhalo, which has no
    descendant. *)
Lemma link_subhalo_without_target_witness :
  ∃ σ', link_subhalo two_snapshots_exec 1 1 (two_snapshots_index, 0, false)
          two_snapshots_seeded = Ret (Next, (two_snapshots_index, 0, false)) σ' ∧
        (all_subhalos <$> halos σ' !! 1%nat) = Some [].
Proof.
  destruct (proj1 (link_subhalo_without_target two_snapshots_exec two_snapshots_seeded
                     1%nat 1%nat two_snapshots_index 0 false
                     (subhalo_at 201 1 SATELLITE 1 false 0 0)
                     (rooted 0 (halo_at 101 1 40 [1%nat])) eq_refl eq_refl) eq_refl)
    as (hr' & He & Hrun).
  - left.
  - eexists. split; [exact Hrun|]. cbn. injection He as <-. reflexivity.
Defined.

(** [linked_halos_are_ascendants] on the two-snapshot population: halo
    0 is linked to the root. *)
Lemma linked_halos_are_ascendants_witness :
  ∃ σ1, loop_through_halos two_snapshots_exec [0%nat; 1%nat] two_snapshots_seeded
          = Ret tt σ1 ∧
    ∀ t tr s h, trees σ1 !! t = Some tr → h ∈ bucket tr s → s ≠ 1 →
      ∃ hr D Dr, halos σ1 !! h = Some hr ∧ h_descendant hr = Some D ∧
                 halos σ1 !! D = Some Dr ∧ h ∈ h_ascendants Dr.
Proof.
  assert (E1 : seed_trees 1 [0%nat; 1%nat] two_snapshots = Ret [0%nat] two_snapshots_seeded).
  { vm_compute. reflexivity. }
  destruct (loop_through_halos two_snapshots_exec [0%nat; 1%nat] two_snapshots_seeded)
    as [[] σ1| | |] eqn:E2; try (by vm_compute in E2).
  exists σ1. split; [reflexivity|].
  exact (linked_halos_are_ascendants two_snapshots_exec [0%nat; 1%nat] 1
           two_snapshots two_snapshots_seeded σ1 [0%nat] tt eq_refl E1 E2).
Defined.

(** [loop_through_halos_links_and_prunes] on the two-snapshot
    population. *)
Lemma loop_through_halos_links_and_prunes_witness :
  ∃ σ1, loop_through_halos two_snapshots_exec [0%nat; 1%nat] two_snapshots_seeded
          = Ret tt σ1 ∧ linked_and_pruned two_snapshots_seeded σ1.
Proof.
  destruct (loop_through_halos two_snapshots_exec [0%nat; 1%nat] two_snapshots_seeded)
    as [[] σ1| | |] eqn:E2; try (by vm_compute in E2).
  exists σ1. split; [reflexivity|].
  exact (loop_through_halos_links_and_prunes two_snapshots_exec [0%nat; 1%nat]
           two_snapshots_seeded tt σ1 E2).
Defined.

(** [define_central_subhalos_sets_centrals] on the halo with two
    [CENTRAL] tags and no central subhalo yet. *)
Lemma define_central_subhalos_sets_centrals_witness :
  ∃ σ', define_central_subhalos [0%nat] two_snapshots_sim 5 two_centrals = Ret tt σ' ∧
        ∃ hr, halos σ' !! 0%nat = Some hr ∧ is_Some (h_central_subhalo hr).
Proof.
  destruct (define_central_subhalos [0%nat] two_snapshots_sim 5 two_centrals)
    as [[] σ'| | |] eqn:E; try (by vm_compute in E).
  exists σ'. split; [reflexivity|].
  refine (define_central_subhalos_sets_centrals [0%nat] two_snapshots_sim 5%nat two_centrals
            tt σ' E 0%nat (mkMergerTree 0 {[1 := [0%nat]]}) 1 0%nat _ eq_refl _ _).
  - left.
  - cbn. lia.
  - left.
Defined.

(** [index_halos_indexes] on the two-snapshot population. *)
Lemma index_halos_indexes_witness :
  ∃ by_snapshot by_id,
    index_halos [0%nat; 1%nat] two_snapshots = Ret (by_snapshot, by_id) two_snapshots ∧
    default [] (by_snapshot !! 1) = [1%nat] ∧ by_id !! 100 = Some 0%nat.
Proof.
  destruct (index_halos_indexes [0%nat; 1%nat] two_snapshots)
    as (bs & ix & Hrun & Hbs & Hlast & _).
  - intros h Hh. elem_cases Hh; by eexists.
  - exists bs, ix. split; [exact Hrun|]. split; [by rewrite Hbs|].
    apply (Hlast [] 0%nat [1%nat] (halo_at 100 0 50 [0%nat])); [reflexivity|reflexivity|].
    intros x xr Hx Hxr. elem_cases Hx. by injection Hxr as <-.
Defined.

(** [ensure_halo_mass_growth_needs_descendants] on the chain with the
    heavy middle halo. *)
Lemma ensure_halo_mass_growth_needs_descendants_witness :
  ∃ hr d, halos heavy_middle !! 0%nat = Some hr ∧ h_descendant hr = Some d ∧
          is_Some (halos heavy_middle !! d).
Proof.
  destruct (ensure_halo_mass_growth [0%nat] heavy_middle_sim heavy_middle)
    as [[] σ'| | |] eqn:E; try (by vm_compute in E).
  refine (ensure_halo_mass_growth_needs_descendants [0%nat] heavy_middle_sim heavy_middle
            tt σ' E 0%nat (mkMergerTree 0 {[0 := [0%nat]; 1 := [1%nat]; 2 := [2%nat]]})
            0 0%nat _ eq_refl _ _).
  - left.
  - cbn. lia.
  - left.
Defined.

(** [define_accretion_rate_from_dm_totals] on the resolved chain. *)
Lemma define_accretion_rate_from_dm_totals_witness :
  ∃ σ', define_accretion_rate_from_dm [0%nat] two_snapshots_sim 2 resolved_chain = Ret tt σ' ∧
        baryon_total_created σ' !! 1 = Some (baryons_created σ' [0%nat] [0; 1] 0).
Proof.
  assert (Hi : min_snapshot two_snapshots_sim + Z.of_nat 1 ≤ max_snapshot two_snapshots_sim).
  { cbn. lia. }
  destruct (define_accretion_rate_from_dm [0%nat] two_snapshots_sim 2 resolved_chain)
    as [[] σ'| | |] eqn:E; try (by vm_compute in E).
  exists σ'. split; [reflexivity|].
  exact (proj1 (define_accretion_rate_from_dm_totals [0%nat] two_snapshots_sim 2
                  resolved_chain tt σ' E) 1%nat Hi).
Defined.

(** [define_accretion_rate_from_dm_needs_centrals] on the resolved
    chain. *)
Lemma define_accretion_rate_from_dm_needs_centrals_witness :
  accretion_safe resolved_chain 1.
Proof.
  assert (Hs : min_snapshot two_snapshots_sim ≤ 1 ≤ max_snapshot two_snapshots_sim).
  { cbn. lia. }
  destruct (define_accretion_rate_from_dm [0%nat] two_snapshots_sim 2 resolved_chain)
    as [[] σ'| | |] eqn:E; try (by vm_compute in E).
  refine (define_accretion_rate_from_dm_needs_centrals [0%nat] two_snapshots_sim 2
            resolved_chain tt σ' E 0%nat (mkMergerTree 0 {[0 := [0%nat]; 1 := [1%nat]]})
            1 1%nat _ eq_refl Hs _); left.
Defined.

(** [build_trees_mass_growth_needs_root_at_max] on the lone root at
    snapshot 1 of a simulation that runs to snapshot 2. *)
Lemma build_trees_mass_growth_needs_root_at_max_witness :
  build_trees two_snapshots_exec [0%nat] lone_root_sim 2 5 lone_root ≠ Ret [0%nat] lone_root.
Proof.
  apply (build_trees_mass_growth_needs_root_at_max two_snapshots_exec [0%nat] lone_root_sim
           2 5%nat lone_root [0%nat] lone_root 1 []); try reflexivity.
  - intros h hr Hh Hhr. elem_cases Hh. injection Hhr as <-. cbn. split; [lia|done].
  - cbn. lia.
Defined.

(** [build_trees_defines_centrals] on the two-snapshot population. *)
Lemma build_trees_defines_centrals_witness :
  ∃ forest σf,
    build_trees two_snapshots_exec [0%nat; 1%nat] two_snapshots_sim 2 5 two_snapshots
      = Ret forest σf ∧
    ∀ t tr s h, t ∈ forest → trees σf !! t = Some tr →
      min_snapshot two_snapshots_sim ≤ s ≤ max_snapshot two_snapshots_sim →
      h ∈ bucket tr s →
      ∃ hr, halos σf !! h = Some hr ∧ is_Some (h_central_subhalo hr).
Proof.
  destruct (build_trees two_snapshots_exec [0%nat; 1%nat] two_snapshots_sim 2 5 two_snapshots)
    as [forest σf| | |] eqn:E; try (by vm_compute in E).
  exists forest, σf. split; [reflexivity|].
  exact (build_trees_defines_centrals two_snapshots_exec [0%nat; 1%nat] two_snapshots_sim
           2 5%nat two_snapshots forest σf E).
Defined.
